(** * LAfix: repairing gaps and weak regions of a read from its overlaps

    A shallow embedding of [scrub/LAfix.c] (MARVEL) and the properties of
    its per-read patch planner: flip detection, gap and weak-region
    candidates, candidate merging, splicing and interval adjustment.

    Conventions of the embedding.
    - C [int] values are integers of [Z]; coordinates are bounded by read
      lengths, far below the range of [int], so no wrap-around occurs.
      C division truncates: it is [Z.quot].
    - A C array is a list; [rd l i] reads [l[i]].  Reading outside an
      array is undefined in C; [rd] returns 0 there.
    - A counted [for] loop is a fold over its index list; a [while] loop
      whose exit depends on data runs on fuel and yields [None] when the
      fuel is exhausted.
    - The quality streams that [-q] writes next to the bases are copied
      with the same offsets and lengths; they, the counter [num_flips]
      and the wrapping of the fasta lines are left out. *)

From Stdlib Require Import ZArith Lia Ascii String.
From stdpp Require Import base numbers list sorting.

Local Open Scope Z_scope.

(** ** Arrays and counted loops *)

Definition at_Z {A : Type} (l : list A) (i : Z) : option A :=
  if i <? 0 then None else l !! Z.to_nat i.

Definition rd (l : list Z) (i : Z) : Z := default 0 (at_Z l i).

(** [for (i = lo; i < hi; i++)] *)
Definition for_range (lo hi : Z) : list Z :=
  (fun k : nat => lo + Z.of_nat k) <$> seq 0 (Z.to_nat (hi - lo)).

(** [for (j = lo; j < hi; j += 2)] *)
Definition for_step2 (lo hi : Z) : list Z :=
  (fun k : nat => lo + 2 * Z.of_nat k) <$> seq 0 (Z.to_nat ((hi - lo + 1) / 2)).

(** [memcpy(dst, buf + off, n)]: the [n] bytes of [buf] from [off] on. *)
Definition slice {A : Type} (buf : list A) (off n : Z) : list A :=
  take (Z.to_nat n) (drop (Z.to_nat off) buf).

(** ** Data model *)

(** [Path] and [Overlap] of dalign/align.h, with the unpacked trace: for
    each A-segment the alignment crosses, the pair (diffs, B-bases). *)
Record Path := {
  abpos : Z; aepos : Z;
  bbpos : Z; bepos : Z;
  tlen : Z;
  trace : list Z
}.

Record Overlap := {
  aread : Z;
  bread : Z;
  flags : Z;
  path : Path
}.

(** Modelled from the spec: the flag bit [OVL_COMP] of lib/oflags.h, set
    iff B is reverse-complement aligned; a single bit, here bit 0. *)
Definition OVL_COMP : Z := 1.

(** [ovl->flags & OVL_COMP] *)
Definition flag_comp (o : Overlap) : Z := Z.land (flags o) OVL_COMP.

Definition is_comp (o : Overlap) : bool := negb (flag_comp o =? 0).

(** A track of lib/tracks.h: [anno] holds per read the offset of its
    first entry in [data].  The code always uses the byte offset divided
    by [sizeof(track_data)]; the model stores that quotient. *)
Module Track.
Record t := {
  name : string;
  anno : list Z;
  data : list Z
}.
End Track.
Abbreviation HITS_TRACK := Track.t.

(** [data[anno[r] + k]]: the k-th entry of read [r]. *)
Definition track_at (t : HITS_TRACK) (r k : Z) : Z :=
  rd (Track.data t) (rd (Track.anno t) r + k).

(** The entries [ob, ob+2, ...] below [oe] of read [r], as pairs
    [(data[ob], data[ob+1])]: the walk [while (ob < oe) { ...; ob += 2; }]. *)
Definition track_intervals (t : HITS_TRACK) (r : Z) : list (Z * Z) :=
  let ob := rd (Track.anno t) r in
  let oe := rd (Track.anno t) (r + 1) in
  (fun k => (rd (Track.data t) k, rd (Track.data t) (k + 1))) <$> for_step2 ob oe.

(** The database: the bases of every read, as [Load_Read(.., 1)] returns
    them. *)
Definition HITS_DB := list (list ascii).

Definition Load_Read (db : HITS_DB) (r : Z) : list ascii :=
  default [] (at_Z db r).

Definition DB_READ_LEN (db : HITS_DB) (r : Z) : Z :=
  Z.of_nat (length (Load_Read db r)).

Record FixContext := {
  db : HITS_DB;
  twidth : Z;
  minlen : Z;
  lowq : Z;
  maxgap : Z;
  qtrack : HITS_TRACK;
  trimtrack : option HITS_TRACK;
  dusttrack : HITS_TRACK;
  convertTracks : list HITS_TRACK
}.

(** Information on a gap or weak region. *)
Module Gap.
Record t := {
  ab : Z; ae : Z;
  bb : Z; be : Z;
  diff : Z;
  b : Z;
  support : Z;
  span : Z;
  comp : Z
}.

Definition with_support (g : t) (s : Z) : t :=
  {| ab := ab g; ae := ae g; bb := bb g; be := be g; diff := diff g;
     b := b g; support := s; span := span g; comp := comp g |}.

Definition with_span (g : t) (s : Z) : t :=
  {| ab := ab g; ae := ae g; bb := bb g; be := be g; diff := diff g;
     b := b g; support := support g; span := s; comp := comp g |}.
End Gap.
Abbreviation Gap := Gap.t.

Definition DEF_ARG_X : Z := 1000.
Definition DEF_ARG_G : Z := 500.
Definition DEF_ARG_Q : Z := 28.
Definition MIN_INT_LEN : Z := 5.
Definition MIN_SPAN : Z := 400.

(** ** Helpers of lib/utils *)

(** Modelled from the spec: [intersect] of lib/utils, the number of
    positions two half-open ranges share; non-zero iff they intersect. *)
Definition intersect (ab ae bb be : Z) : Z :=
  let b := Z.max ab bb in
  let e := Z.min ae be in
  if b <? e then e - b else 0.

(** Modelled from the spec: the complement of a base, for [revcomp] of
    lib/utils (the [SeqOps] primitives). *)
Definition complement (c : ascii) : ascii :=
  match c with
  | "a" => "t" | "c" => "g" | "g" => "c" | "t" => "a"
  | "A" => "T" | "C" => "G" | "G" => "C" | "T" => "A"
  | _ => c
  end%char.

(** Modelled from the spec: [revcomp(c, len)] reverses the [len] bytes at
    [c] and complements each. *)
Definition revcomp (c : list ascii) : list ascii := complement <$> reverse c.

(** Modelled from the spec: [get_trim] of lib/tracks reads the single
    interval the trim track holds for the read. *)
Definition get_trim (t : HITS_TRACK) (r : Z) : Z * Z :=
  (track_at t r 0, track_at t r 1).

(** ** cmp_gaps and spanners *)

Definition cmp_gaps (x y : Gap) : Z :=
  let cmp := Gap.ab x - Gap.ab y in
  let cmp := if cmp =? 0 then Gap.ae x - Gap.ae y else cmp in
  if cmp =? 0 then Gap.diff x - Gap.diff y else cmp.

(** [cmp_gaps] with the arithmetic of [int] written out: a difference
    is taken modulo 2^32 into the range of [int]. *)
Definition wrap_int (z : Z) : Z :=
  (z + 2147483648) mod 4294967296 - 2147483648.

Definition cmp_gaps_int (x y : Gap) : Z :=
  let cmp := wrap_int (Gap.ab x - Gap.ab y) in
  let cmp := if cmp =? 0 then wrap_int (Gap.ae x - Gap.ae y) else cmp in
  if cmp =? 0 then wrap_int (Gap.diff x - Gap.diff y) else cmp.

Definition spanners (ovls : list Overlap) (b e : Z) : Z :=
  foldl (fun span ovl =>
           if (abpos (path ovl) <? b - MIN_SPAN) && (aepos (path ovl) >? e + MIN_SPAN)
           then span + 1 else span) 0 ovls.

(** ** filter_flips *)

(** The first loop: the range [b, e) of self-overlaps and their counts.
    [e] is set only when an overlap with a larger B-read follows. *)
Fixpoint flips_scan (aread0 : Z) (ovls : list Overlap) (i b e self_c self_n : Z)
  : Z * Z * Z * Z :=
  match ovls with
  | [] => (b, e, self_c, self_n)
  | ovl :: rest =>
      if aread0 <? bread ovl then
        (b, (if negb (b =? -1) then i else e), self_c, self_n)
      else if aread0 =? bread ovl then
        let b' := if b =? -1 then i else b in
        if is_comp ovl
        then flips_scan aread0 rest (i + 1) b' e (self_c + 1) self_n
        else flips_scan aread0 rest (i + 1) b' e self_c (self_n + 1)
      else flips_scan aread0 rest (i + 1) b e self_c self_n
  end.

(** The state the two flagging loops update: [trimmed], [*trim_b],
    [*trim_e]. *)
Record FlipTrim := {
  trimmed : Z;
  trim_b : Z;
  trim_e : Z
}.

(** A segment [sab, sae) crosses the diagonal: drop the shorter side. *)
Definition flip_cross (st : FlipTrim) (sab sae : Z) : FlipTrim :=
  if (trim_b st <? sab) && (sae <? trim_e st) then
    if sab - trim_b st <? trim_e st - sae
    then {| trimmed := 1; trim_b := sae; trim_e := trim_e st |}
    else {| trimmed := 1; trim_b := trim_b st; trim_e := sab |}
  else {| trimmed := 1; trim_b := trim_b st; trim_e := trim_e st |}.

(** A gap between two complement self-overlaps is flagged: cut at [mid]. *)
Definition flip_gap (st : FlipTrim) (mid : Z) : FlipTrim :=
  if (trim_b st <? mid) && (mid <? trim_e st) then
    if mid - trim_b st <? trim_e st - mid
    then {| trimmed := 1; trim_b := mid; trim_e := trim_e st |}
    else {| trimmed := 1; trim_b := trim_b st; trim_e := mid |}
  else {| trimmed := 1; trim_b := trim_b st; trim_e := trim_e st |}.

(** The walk over the trace of one overlap:
    [for (j = 2; j < ovl->path.tlen - 2; j += 2)]. *)
Definition flips_walk_step (tw alen : Z) (tr : list Z)
    (s : Z * Z * Z * Z * FlipTrim) (j : Z) : Z * Z * Z * Z * FlipTrim :=
  let '(sab, sae, sbb, sbe, st) := s in
  let st' := if negb (intersect sab sae (alen - sbe) (alen - sbb) =? 0)
             then flip_cross st sab sae else st in
  (sae, sae + tw, sbe, sbe + rd tr (j + 1), st').

Definition flips_walk (tw alen : Z) (ovl : Overlap) (st : FlipTrim) : FlipTrim :=
  let p := path ovl in
  let sab := abpos p in
  let sae := (Z.quot sab tw + 1) * tw in
  let sbb := bbpos p in
  let sbe := sbb + rd (trace p) 1 in
  snd (foldl (flips_walk_step tw alen (trace p)) (sab, sae, sbb, sbe, st)
             (for_step2 2 (tlen p - 2))).

(** The body of [for (i = b; i < e; i++)]. *)
Definition flips_overlap (tw alen : Z) (ovls : list Overlap) (st : FlipTrim) (i : Z)
  : FlipTrim :=
  match at_Z ovls i with
  | None => st
  | Some ovl =>
      if is_comp ovl then
        let ab := abpos (path ovl) in
        let ae := aepos (path ovl) in
        let ab_c := alen - bepos (path ovl) in
        let ae_c := alen - bbpos (path ovl) in
        if negb (intersect ab ae ab_c ae_c =? 0)
        then flips_walk tw alen ovl st
        else st
      else st
  end.

(** The body of [while (i < e - 1)]: the gap between [ovls[i]] and
    [ovls[i+1]]. *)
Definition flips_pair (alen : Z) (ovls : list Overlap) (st : FlipTrim) (i : Z)
  : FlipTrim :=
  match at_Z ovls i, at_Z ovls (i + 1) with
  | Some ovl, Some ovl2 =>
      if is_comp ovl && is_comp ovl2 then
        let ab := aepos (path ovl) in
        let ae := abpos (path ovl2) in
        let ab_c := alen - bbpos (path ovl2) in
        let ae_c := alen - bepos (path ovl) in
        if negb (intersect ab ae ab_c ae_c =? 0) && (spanners ovls ab ae <=? 1)
        then flip_gap st (Z.quot (ab + ae) 2)
        else st
      else st
  | _, _ => st
  end.

(** [ovls->aread]; [pass] hands over non-empty groups. *)
Definition group_aread (ovls : list Overlap) : Z :=
  match ovls with
  | o :: _ => aread o
  | [] => 0
  end.

Definition filter_flips (fctx : FixContext) (ovls : list Overlap) (tb te : Z)
  : FlipTrim :=
  let a := group_aread ovls in
  let st0 := {| trimmed := 0; trim_b := tb; trim_e := te |} in
  let '(b, e, self_c, self_n) := flips_scan a ovls 0 (-1) (-1) 0 0 in
  if self_c =? 0 then st0
  else
    let alen := DB_READ_LEN (db fctx) a in
    let st1 := foldl (flips_overlap (twidth fctx) alen ovls) st0 (for_range b e) in
    foldl (flips_pair alen ovls) st1 (for_range b (e - 1)).

(** ** fix_process: trim and sanity checks *)

Definition initial_trim (fctx : FixContext) (a : Z) : Z * Z :=
  match trimtrack fctx with
  | Some t => get_trim t a
  | None => (0, DB_READ_LEN (db fctx) a)
  end.

(** The trim after flip detection: the intersection of the original trim
    with the one [filter_flips] leaves. *)
Definition flip_adjust (fctx : FixContext) (ovl : list Overlap) (trim_ab trim_ae : Z)
  : Z * Z :=
  let st := filter_flips fctx ovl trim_ab trim_ae in
  (Z.max (trim_b st) trim_ab, Z.min (trim_e st) trim_ae).

(** [None]: the read is trimmed away and skipped. *)
Definition fix_trim (fctx : FixContext) (ovl : list Overlap) : option (Z * Z) :=
  let '(trim_ab, trim_ae) := initial_trim fctx (group_aread ovl) in
  if trim_ab >=? trim_ae then None
  else Some (flip_adjust fctx ovl trim_ab trim_ae).

Definition interval_outside (alen : Z) (i : Z * Z) : bool :=
  let '(b, e) := i in
  (b <? 0) || (b >? alen) || (b >? e) || (e >? alen).

(** The sanity checks of the tracks; [false] leads to [exit(1)]. *)
Definition tracks_sane (fctx : FixContext) (a trim_ab trim_ae : Z) : bool :=
  let alen := DB_READ_LEN (db fctx) a in
  let nsegments := Z.quot (alen + twidth fctx - 1) (twidth fctx) in
  let ob := rd (Track.anno (qtrack fctx)) a in
  let oe := rd (Track.anno (qtrack fctx)) (a + 1) in
  (oe - ob =? nsegments)
  && forallb (fun i => negb (interval_outside alen i))
             (track_intervals (dusttrack fctx) a)
  && negb (interval_outside alen (trim_ab, trim_ae)).

(** ** Breaks in A between two overlaps with the same B-read *)

(** [qb[j]] for [j] in [beg, end). *)
Definition q_values (fctx : FixContext) (r beg end_ : Z) : list Z :=
  (fun j => track_at (qtrack fctx) r j) <$> for_range beg end_.

(** A dust interval of read [r] lies inside [bb, be]. *)
Definition dust_inside (fctx : FixContext) (r bb be : Z) : bool :=
  existsb (fun d : Z * Z => (bb <=? d.1) && (be >=? d.2))
          (track_intervals (dusttrack fctx) r).

(** [(int)(100.0 * q / (be - bb))] and the like: the quotient of two
    integers far below 2^53 computed in floating point and truncated is
    their truncated quotient. *)
Definition trunc_div (n d : Z) : Z := Z.quot n d.

(** The body of the loop over [i = 1 .. novl-1] on [ovl[i-1]], [ovl[i]]. *)
Definition gap_between (fctx : FixContext) (o1 o2 : Overlap) : option Gap :=
  if (bread o1 =? bread o2)
     && (aepos (path o1) <? abpos (path o2))
     && (flag_comp o1 =? flag_comp o2)
  then
    let tw := twidth fctx in
    let ab := Z.quot (aepos (path o1) - 1) tw in
    let ae := Z.quot (abpos (path o2)) tw + 1 in
    let j := tlen (path o1) - 1 in
    let bb := bepos (path o1) - rd (trace (path o1)) j in
    let be := bbpos (path o2) + rd (trace (path o2)) 1 in
    if bb >=? be then None
    else
      let blen := DB_READ_LEN (db fctx) (bread o2) in
      let '(bb, be) := if is_comp o2 then (blen - be, blen - bb) else (bb, be) in
      if dust_inside fctx (bread o2) bb be then None
      else
        let qs := q_values fctx (bread o2) (Z.quot bb tw) (Z.quot be tw + 1) in
        if existsb (fun q => q =? 0) qs then None
        else
          let q := foldl Z.add 0 qs in
          Some {| Gap.bb := bb; Gap.be := be; Gap.b := bread o2;
                  Gap.span := 0; Gap.support := 1;
                  Gap.ab := ab * tw; Gap.ae := ae * tw;
                  Gap.diff := trunc_div (100 * q) (be - bb);
                  Gap.comp := flag_comp o2 |}
  else None.

Fixpoint find_gaps (fctx : FixContext) (ovl : list Overlap) : list Gap :=
  match ovl with
  | o1 :: ((o2 :: _) as rest) =>
      match gap_between fctx o1 o2 with
      | Some g => g :: find_gaps fctx rest
      | None => find_gaps fctx rest
      end
  | _ => []
  end.

(** ** Sorting the candidates *)

(** [qsort(data, dcur, sizeof(Gap), cmp_gaps)].  The C library leaves the
    order of candidates that compare equal open; the model sorts by
    insertion and keeps their order. *)
Fixpoint insert_gap (g : Gap) (l : list Gap) : list Gap :=
  match l with
  | [] => [g]
  | h :: t => if cmp_gaps g h <=? 0 then g :: l else h :: insert_gap g t
  end.

Definition qsort (l : list Gap) : list Gap := foldr insert_gap [] l.

(** ** Merging the breaks *)

Definition gap_too_long (mg : Z) (g : Gap) : bool :=
  negb (mg =? -1)
  && ((Gap.ae g - Gap.ab g >=? mg) || (Z.abs (Gap.be g - Gap.bb g) >=? mg)).

(** [for (j = i + 1; j < dcur && data[i].ab == data[j].ab
         && data[i].ae == data[j].ae; j++)] with [n] indices left. *)
Fixpoint merge_same_inner (n i j : nat) (data : list Gap) : list Gap :=
  match n with
  | O => data
  | S n' =>
      match data !! i, data !! j with
      | Some gi, Some gj =>
          if (Gap.ab gi =? Gap.ab gj) && (Gap.ae gi =? Gap.ae gj) then
            let data' :=
              if Gap.support gj =? -1 then data
              else if Z.abs ((Gap.be gj - Gap.bb gj) - (Gap.be gi - Gap.bb gi)) <? 40
                   then <[j := Gap.with_support gj (-1)]>
                          (<[i := Gap.with_support gi (Gap.support gi + 1)]> data)
                   else data in
            merge_same_inner n' i (S j) data'
          else data
      | _, _ => data
      end
  end.

Definition merge_same_step (mg : Z) (data : list Gap) (i : nat) : list Gap :=
  match data !! i with
  | None => data
  | Some gi =>
      if Gap.support gi =? -1 then data
      else if gap_too_long mg gi then <[i := Gap.with_support gi (-1)]> data
      else merge_same_inner (length data - S i) i (S i) data
  end.

(** Merge breaks located at the same position in A. *)
Definition merge_same (mg : Z) (data : list Gap) : list Gap :=
  foldl (merge_same_step mg) data (seq 0 (length data)).

(** [for (j = i + 1; j < dcur && data[i].ae > data[j].ab
         && data[i].ab < data[j].ae; j++)] with [n] indices left. *)
Fixpoint merge_overlapping_inner (n i j : nat) (data : list Gap) : list Gap :=
  match n with
  | O => data
  | S n' =>
      match data !! i, data !! j with
      | Some gi, Some gj =>
          if (Gap.ae gi >? Gap.ab gj) && (Gap.ab gi <? Gap.ae gj) then
            if Gap.support gj =? -1 then merge_overlapping_inner n' i (S j) data
            else if Gap.support gi >? Gap.support gj then
              merge_overlapping_inner n' i (S j)
                (<[j := Gap.with_support gj (-1)]>
                   (<[i := Gap.with_support gi (Gap.support gi + Gap.support gj)]> data))
            else
              <[i := Gap.with_support gi (-1)]>
                (<[j := Gap.with_support gj (Gap.support gj + Gap.support gi)]> data)
          else data
      | _, _ => data
      end
  end.

Definition merge_overlapping_step (data : list Gap) (i : nat) : list Gap :=
  match data !! i with
  | None => data
  | Some gi =>
      if Gap.support gi =? -1 then data
      else merge_overlapping_inner (length data - S i) i (S i) data
  end.

(** Merge overlapping breaks. *)
Definition merge_overlapping (data : list Gap) : list Gap :=
  foldl merge_overlapping_step data (seq 0 (length data)).

(** Breaks that more than 10 overlaps span are dropped. *)
Definition drop_spanned (ovl : list Overlap) (data : list Gap) : list Gap :=
  (fun g => if spanners ovl (Gap.ab g) (Gap.ae g) >? 10
            then Gap.with_support g (-1) else g) <$> data.

(** [qa[k] == 0 || qa[k] >= lowq] for some segment [k] of the break. *)
Definition bad_q (fctx : FixContext) (a : Z) (g : Gap) : bool :=
  existsb (fun q => (q =? 0) || (q >=? lowq fctx))
          (q_values fctx a (Z.quot (Gap.ab g) (twidth fctx))
                           (Z.quot (Gap.ae g) (twidth fctx))).

(** Keep the breaks with support of at least 5 and a Q drop in A. *)
Definition keep_supported (fctx : FixContext) (a : Z) (data : list Gap) : list Gap :=
  List.filter (fun g => negb (Gap.support g <? 5) && bad_q fctx a g) data.

(** The breaks that reach the scan for weak regions. *)
Definition merged_gaps (fctx : FixContext) (ovl : list Overlap) : list Gap :=
  let data := qsort (find_gaps fctx ovl) in
  let data := merge_same (maxgap fctx) data in
  let data := merge_overlapping data in
  let data := drop_spanned ovl data in
  keep_supported fctx (group_aread ovl) data.

(** ** Weak regions *)

(** [while (qa[seg_first] == 0) seg_first++;] *)
Fixpoint skip_zero_up (fuel : nat) (qa : Z -> Z) (s : Z) : option Z :=
  match fuel with
  | O => None
  | S f => if qa s =? 0 then skip_zero_up f qa (s + 1) else Some s
  end.

(** [while (qa[seg_last - 1] == 0) seg_last--;] *)
Fixpoint skip_zero_down (fuel : nat) (qa : Z -> Z) (s : Z) : option Z :=
  match fuel with
  | O => None
  | S f => if qa (s - 1) =? 0 then skip_zero_down f qa (s - 1) else Some s
  end.

(** Fuel for a scan of the Q track that starts at entry [p]: a scan that
    has not stopped after so many steps has left the array, where every
    entry reads as 0, and never stops. *)
Definition scan_fuel (t : HITS_TRACK) (p : Z) : nat :=
  (Z.to_nat (Z.abs p) + length (Track.data t) + 1)%nat.

(** [while (apos <= ab) { apos = (apos / twidth + 1) * twidth;
                          bb = be; be += tracerep[k + 1]; k += 2; }] *)
Fixpoint locate_segment (fuel : nat) (tw ab : Z) (tr : list Z) (apos bb be k : Z)
  : option (Z * Z) :=
  match fuel with
  | O => None
  | S f =>
      if apos <=? ab
      then locate_segment f tw ab tr ((Z.quot apos tw + 1) * tw) be (be + rd tr (k + 1)) (k + 2)
      else Some (bb, be)
  end.

(** The state of the scan of the overlaps for one weak segment.  [q_min]
    is the mean Q of the best donor so far, kept as the fraction
    [q_num / q_den] of the two integers the code divides; the code holds
    the quotient in a [float], which orders such fractions as they are. *)
Record WeakScan := {
  w_span : Z;
  w_border : Z;
  q_num : Z;
  q_den : Z;
  ovl_q_min : Z;
  bb_q_min : Z;
  be_q_min : Z
}.

Definition weak_border (ab ae : Z) (o : Overlap) (st : WeakScan) : WeakScan :=
  if ((abpos (path o) >=? ab) && (abpos (path o) <=? ae))
     || ((aepos (path o) >=? ab) && (aepos (path o) <=? ae))
  then {| w_span := w_span st; w_border := w_border st + 1;
          q_num := q_num st; q_den := q_den st; ovl_q_min := ovl_q_min st;
          bb_q_min := bb_q_min st; be_q_min := be_q_min st |}
  else st.

(** The body of [for (j = 0; j < novl; j++)]; [None]: the assertion
    [bb != -1] fails or the walk over the trace does not end. *)
Definition weak_donor (fctx : FixContext) (ab ae : Z) (st : WeakScan) (j : Z) (o : Overlap)
  : option WeakScan :=
  let tw := twidth fctx in
  if (abpos (path o) + 100 <=? ab) && (aepos (path o) - 100 >=? ae) then
    '(bb, be) ← locate_segment (Z.to_nat (ab - abpos (path o)) + 2) tw ab
                   (trace (path o)) (abpos (path o)) (-1) (bbpos (path o)) 0;
    if bb =? -1 then None
    else
      let blen := DB_READ_LEN (db fctx) (bread o) in
      let '(bb, be) := if is_comp o then (blen - be, blen - bb) else (bb, be) in
      let beg := Z.quot bb tw in
      let end_ := Z.quot be tw in
      let qs := q_values fctx (bread o) beg end_ in
      let q := if existsb (fun q => q =? 0) qs then 0 else foldl Z.add 0 qs in
      if q =? 0 then Some st
      else
        let st1 :=
          if (ovl_q_min st =? -1) || (q * q_den st <? q_num st * (end_ - beg))
          then {| w_span := w_span st + 1; w_border := w_border st;
                  q_num := q; q_den := end_ - beg; ovl_q_min := j;
                  bb_q_min := bb; be_q_min := be |}
          else {| w_span := w_span st + 1; w_border := w_border st;
                  q_num := q_num st; q_den := q_den st; ovl_q_min := ovl_q_min st;
                  bb_q_min := bb_q_min st; be_q_min := be_q_min st |} in
        Some (weak_border ab ae o st1)
  else Some (weak_border ab ae o st).

Fixpoint weak_scan (fctx : FixContext) (ab ae : Z) (ovl : list Overlap) (j : Z)
    (st : WeakScan) : option WeakScan :=
  match ovl with
  | [] => Some st
  | o :: rest => st' ← weak_donor fctx ab ae st j o; weak_scan fctx ab ae rest (j + 1) st'
  end.

(** The body of [for (i = seg_first; i < seg_last; i++)]: the candidates
    with the one for segment [i] appended, if there is one. *)
Definition weak_segment (fctx : FixContext) (ovl : list Overlap) (data : list Gap) (i : Z)
  : option (list Gap) :=
  let tw := twidth fctx in
  let qi := track_at (qtrack fctx) (group_aread ovl) i in
  if negb (qi =? 0) && (qi <? lowq fctx) then Some data
  else
    let ab := i * tw in
    let ae := (i + 1) * tw in
    if existsb (fun g => (Gap.ab g <=? ae) && (Gap.ae g >=? ab)) data then Some data
    else
      st ← weak_scan fctx ab ae ovl 0
             {| w_span := 0; w_border := 0; q_num := 0; q_den := 1;
                ovl_q_min := -1; bb_q_min := 0; be_q_min := 0 |};
      if ovl_q_min st =? -1 then Some data
      else
        ovlrep ← at_Z ovl (ovl_q_min st);
        Some (data ++ [ {| Gap.bb := bb_q_min st; Gap.be := be_q_min st;
                           Gap.b := bread ovlrep;
                           Gap.span := w_span st; Gap.support := w_border st;
                           Gap.ab := ab; Gap.ae := ae;
                           Gap.diff := trunc_div (q_num st) (q_den st);
                           Gap.comp := flag_comp ovlrep |} ]).

(** The scan for bad segments inside the trim, leading and trailing
    segments without Q skipped. *)
Definition find_weak (fctx : FixContext) (ovl : list Overlap) (trim_ab trim_ae : Z)
    (data : list Gap) : option (list Gap) :=
  let a := group_aread ovl in
  let tw := twidth fctx in
  let qa := track_at (qtrack fctx) a in
  let off := rd (Track.anno (qtrack fctx)) a in
  seg_first ← skip_zero_up (scan_fuel (qtrack fctx) (off + Z.quot trim_ab tw)) qa
                 (Z.quot trim_ab tw);
  seg_last ← skip_zero_down (scan_fuel (qtrack fctx) (off + Z.quot trim_ae tw - 1)) qa
                (Z.quot trim_ae tw);
  foldl (fun acc i => data ← acc; weak_segment fctx ovl data i) (Some data)
        (for_range seg_first seg_last).

(** The candidates handed to the patching phase. *)
Definition candidates (fctx : FixContext) (ovl : list Overlap) (trim_ab trim_ae : Z)
  : option (list Gap) :=
  find_weak fctx ovl trim_ab trim_ae (merged_gaps fctx ovl).

(** ** Reads without problems: the trimmed read *)

(** The intervals of a track moved by [trim_ab] and clipped to the trim:
    the loop [for ( ; ob < oe; ob += 2)] of the branch [dcur == 0]. *)
Fixpoint trim_intervals (trim_ab trim_ae : Z) (ivs : list (Z * Z)) : list (Z * Z) :=
  match ivs with
  | [] => []
  | (ib, ie) :: rest =>
      let beg := ib - trim_ab in
      let end_ := ie - trim_ab in
      if end_ <? 0 then trim_intervals trim_ab trim_ae rest
      else
        let beg := if beg <? 0 then 0 else beg in
        if beg >? trim_ae - trim_ab then []
        else
          let end_ := if end_ >? trim_ae - trim_ab then trim_ae - trim_ab else end_ in
          (beg, end_) :: trim_intervals trim_ab trim_ae rest
  end.

(** ** Patching *)

(** A triple of [apatches]: [apatches[j]], [apatches[j+1]],
    [apatches[j+2]], the A-range copied and its offset in the result. *)
Record APatch := {
  pa_ab : Z;
  pa_ae : Z;
  pa_off : Z
}.

(** The state of the patch loop: the cursor [ab], the patched read
    [read] with its length [rlen], [apatches], and the counters of the
    context. *)
Record Patched := {
  cur_ab : Z;
  read : list ascii;
  rlen : Z;
  apatches : list APatch;
  num_gaps : Z;
  stats_bases_before : Z;
  stats_bases_after : Z
}.

(** A[ab..ae]: record the triple and copy the bases. *)
Definition copy_a (reada : list ascii) (st : Patched) (ab ae : Z) : Patched :=
  {| cur_ab := ab;
     read := read st ++ slice reada ab (ae - ab);
     rlen := rlen st + (ae - ab);
     apatches := apatches st ++ [ {| pa_ab := ab; pa_ae := ae; pa_off := rlen st |} ];
     num_gaps := num_gaps st;
     stats_bases_before := stats_bases_before st;
     stats_bases_after := stats_bases_after st |}.

(** The bases of the donor: [readb + bb], [be - bb] of them, reversed and
    complemented in place first if the candidate asks for it. *)
Definition donor (fctx : FixContext) (g : Gap) : list ascii :=
  let readb := Load_Read (db fctx) (Gap.b g) in
  let s := slice readb (Gap.bb g) (Gap.be g - Gap.bb g) in
  if Gap.comp g =? 0 then s else revcomp s.

(** B[bb..be]: copy the bases of the donor and move the cursor. *)
Definition copy_b (fctx : FixContext) (st : Patched) (g : Gap) : Patched :=
  {| cur_ab := Gap.ae g;
     read := read st ++ donor fctx g;
     rlen := rlen st + (Gap.be g - Gap.bb g);
     apatches := apatches st;
     num_gaps := num_gaps st + 1;
     stats_bases_before := stats_bases_before st + (Gap.ae g - Gap.ab g);
     stats_bases_after := stats_bases_after st + (Gap.be g - Gap.bb g) |}.

Definition move_cursor (st : Patched) (ab : Z) : Patched :=
  {| cur_ab := ab; read := read st; rlen := rlen st; apatches := apatches st;
     num_gaps := num_gaps st; stats_bases_before := stats_bases_before st;
     stats_bases_after := stats_bases_after st |}.

(** [for (i = 0; i < dcur; i++)] over the candidates; [None]: the
    assertion [ab <= ae] fails. *)
Fixpoint patch_loop (fctx : FixContext) (reada : list ascii) (trim_ab trim_ae : Z)
    (data : list Gap) (st : Patched) : option Patched :=
  match data with
  | [] => Some st
  | g :: rest =>
      if trim_ab >? Gap.ab g then
        patch_loop fctx reada trim_ab trim_ae rest (move_cursor st (Gap.ae g))
      else if trim_ae <? Gap.ae g then Some st
      else
        let ae := Gap.ab g in
        let ab := if (trim_ab <? ae) && (trim_ab >? cur_ab st)
                  then trim_ab else cur_ab st in
        if ab >? ae then None
        else
          let st1 := if ab <? ae then copy_a reada st ab ae else st in
          patch_loop fctx reada trim_ab trim_ae rest (copy_b fctx st1 g)
  end.

Definition patch_start (trim_ab : Z) : Patched :=
  {| cur_ab := trim_ab; read := []; rlen := 0; apatches := [];
     num_gaps := 0; stats_bases_before := 0; stats_bases_after := 0 |}.

(** The patch loop and the rest of A up to the end of the trim. *)
Definition patch (fctx : FixContext) (a trim_ab trim_ae : Z) (data : list Gap)
  : option Patched :=
  let reada := Load_Read (db fctx) a in
  st ← patch_loop fctx reada trim_ab trim_ae data (patch_start trim_ab);
  Some (if cur_ab st <? trim_ae then copy_a reada st (cur_ab st) trim_ae else st).

(** The candidates the loop splices in: those it neither skips for
    starting before the trim nor stops at. *)
Fixpoint spliced (trim_ab trim_ae : Z) (data : list Gap) : list Gap :=
  match data with
  | [] => []
  | g :: rest =>
      if trim_ab >? Gap.ab g then spliced trim_ab trim_ae rest
      else if trim_ae <? Gap.ae g then []
      else g :: spliced trim_ab trim_ae rest
  end.

(** Count reads that span the break. *)
Definition count_span (ovl : list Overlap) (data : list Gap) : list Gap :=
  foldl (fun data o =>
           (fun g => if (abpos (path o) + 100 <? Gap.ab g) && (aepos (path o) - 100 >? Gap.ae g)
                     then Gap.with_span g (Gap.span g + 1) else g) <$> data)
        data ovl.

(** ** Adjusting track intervals to the patched read *)

(** [for (j = 0; j < napatches; j += 3)] for one interval [ib, ie);
    [prev] is the triple before [j], absent when [j == 0]. *)
Fixpoint adjust_loop (ib ie : Z) (prev : option APatch) (ps : list APatch)
    (ib_adj ie_adj : Z) : Z * Z :=
  match ps with
  | [] => (ib_adj, ie_adj)
  | p :: rest =>
      let ib_adj :=
        if (ib_adj =? -1) && (ib <? pa_ae p)
        then pa_off p + (Z.max ib (pa_ab p) - pa_ab p) else ib_adj in
      if (ie_adj =? -1) && (ie <=? pa_ae p) then
        match prev with
        | Some q =>
            if ie <? pa_ab p then (ib_adj, pa_off q + (pa_ae q - pa_ab q))
            else if ie >? pa_ab p then (ib_adj, pa_off p + (ie - pa_ab p))
            else adjust_loop ib ie (Some p) rest ib_adj ie_adj
        | None =>
            if ie >? pa_ab p then (ib_adj, pa_off p + (ie - pa_ab p))
            else adjust_loop ib ie (Some p) rest ib_adj ie_adj
        end
      else adjust_loop ib ie (Some p) rest ib_adj ie_adj
  end.

Inductive Adjusted :=
| Outside                          (* before the first or after the last A-range *)
| Skip                             (* not longer than MIN_INT_LEN *)
| Keep (ib_adj ie_adj : Z)         (* written to the header *)
| Insane (ib_adj ie_adj : Z).      (* outside the patched read: exit(1) *)

(** One interval of a track; [None] without any triple, where the code
    reads [apatches] outside of what it wrote. *)
Definition adjust_interval (ps : list APatch) (rlen0 : Z) (iv : Z * Z) : option Adjusted :=
  let '(ib, ie) := iv in
  first ← head ps;
  last_ ← last ps;
  if (ie <? pa_ab first) || (ib >? pa_ae last_) then Some Outside
  else
    let '(ib_adj, ie_adj) := adjust_loop ib ie None ps (-1) (-1) in
    if ie_adj - ib_adj >? MIN_INT_LEN then
      if (ib_adj <? 0) || (ib_adj >? rlen0) || (ib_adj >? ie_adj) || (ie_adj >? rlen0)
      then Some (Insane ib_adj ie_adj)
      else Some (Keep ib_adj ie_adj)
    else Some Skip.

(** The outcome of writing a header or a read. *)
Inductive Outcome (A : Type) :=
| Done (x : A)
| Exit1            (* exit(1) after a message *)
| Stuck.           (* a failed assertion, a loop that does not end, or a
                      read outside of an array *)
Arguments Done {A} x.
Arguments Exit1 {A}.
Arguments Stuck {A}.

(** The intervals of one track that the header of a fixed read lists. *)
Fixpoint adjust_intervals (ps : list APatch) (rlen0 : Z) (ivs : list (Z * Z))
  : Outcome (list (Z * Z)) :=
  match ivs with
  | [] => Done []
  | iv :: rest =>
      match adjust_interval ps rlen0 iv with
      | None => Stuck
      | Some (Insane _ _) => Exit1
      | Some (Keep b e) =>
          match adjust_intervals ps rlen0 rest with
          | Done l => Done ((b, e) :: l)
          | r => r
          end
      | Some _ => adjust_intervals ps rlen0 rest
      end
  end.

Fixpoint adjust_tracks (ps : list APatch) (rlen0 : Z) (a : Z) (ts : list HITS_TRACK)
  : Outcome (list (string * list (Z * Z))) :=
  match ts with
  | [] => Done []
  | t :: rest =>
      match adjust_intervals ps rlen0 (track_intervals t a) with
      | Done l =>
          match adjust_tracks ps rlen0 a rest with
          | Done r => Done ((Track.name t, l) :: r)
          | Exit1 => Exit1
          | Stuck => Stuck
          end
      | Exit1 => Exit1
      | Stuck => Stuck
      end
  end.

(** ** The result of a read *)

(** What [fix_process] writes to the fasta file for a read: the prefix of
    the name, the read it comes from, per track the intervals listed
    (none listed: the track is left out of the header), and the bases,
    which [wrap_write] breaks into lines. *)
Record Fasta := {
  prefix : string;
  source : Z;
  tracks : list (string * list (Z * Z));
  bases : list ascii
}.

Inductive FixResult :=
| Skipped                 (* trimmed away *)
| Failed                  (* exit(1) *)
| Undefined               (* assertion failure, endless loop, wild read *)
| Short                   (* shorter than minlen: nothing written *)
| Written (f : Fasta).

Definition write_trimmed (fctx : FixContext) (a trim_ab trim_ae : Z) : FixResult :=
  let reada := Load_Read (db fctx) a in
  if trim_ae - trim_ab >=? minlen fctx then
    Written {| prefix := "trimmed_"; source := a;
               tracks := (fun t => (Track.name t,
                                    trim_intervals trim_ab trim_ae (track_intervals t a)))
                         <$> convertTracks fctx;
               bases := slice reada trim_ab (trim_ae - trim_ab) |}
  else Short.

Definition write_fixed (fctx : FixContext) (ovl : list Overlap) (trim_ab trim_ae : Z)
    (data : list Gap) : FixResult :=
  let a := group_aread ovl in
  let data := count_span ovl (qsort data) in
  match patch fctx a trim_ab trim_ae data with
  | None => Undefined
  | Some st =>
      if rlen st >=? minlen fctx then
        match adjust_tracks (apatches st) (rlen st) a (convertTracks fctx) with
        | Done ts =>
            Written {| prefix := "fixed_"; source := a; tracks := ts;
                       bases := take (Z.to_nat (rlen st)) (read st) |}
        | Exit1 => Failed
        | Stuck => Undefined
        end
      else Short
  end.

(** [fix_process] from the sanity checks on, for the trim [trim_ab],
    [trim_ae] the flip detection left. *)
Definition fix_patch (fctx : FixContext) (ovl : list Overlap) (trim_ab trim_ae : Z)
  : FixResult :=
  let a := group_aread ovl in
  if negb (tracks_sane fctx a trim_ab trim_ae) then Failed
  else
    match candidates fctx ovl trim_ab trim_ae with
    | None => Undefined
    | Some [] => write_trimmed fctx a trim_ab trim_ae
    | Some data => write_fixed fctx ovl trim_ab trim_ae data
    end.

Definition fix_process (fctx : FixContext) (ovl : list Overlap) : FixResult :=
  match fix_trim fctx ovl with
  | None => Skipped
  | Some (trim_ab, trim_ae) => fix_patch fctx ovl trim_ab trim_ae
  end.

(** ** fix_pre *)

(** The number of [int]s that [fix_pre] allocates for [apatches], for a
    database whose longest read has [maxlen] bases. *)
Definition apatches_size (maxlen twidth : Z) : Z :=
  (Z.quot maxlen twidth + 1) * 3.

(** ** The scenarios of the specification *)

Module Scenario.

(** A track from the entries of each read, read 0 first. *)
Definition offsets (per_read : list (list Z)) : list Z :=
  foldl (fun acc l => acc ++ [default 0 (last acc) + Z.of_nat (length l)]) [0] per_read.

Definition mk_track (n : string) (per_read : list (list Z)) : HITS_TRACK :=
  {| Track.name := n; Track.anno := offsets per_read; Track.data := concat per_read |}.

Definition bases_of (c : ascii) (n : nat) : list ascii := replicate n c.

(** Reads 0..9; [lens] gives their lengths, read [r] made of the
    letter [c r]. *)
Definition mk_db (lens : list nat) (c : nat -> ascii) : HITS_DB :=
  imap (fun r n => bases_of (c r) n) lens.

Definition letter (r : nat) : ascii :=
  match r with
  | 7 | 9 => "c"
  | _ => "a"
  end%char%nat.

Definition mk_ovl (a b f ab ae bb be : Z) (tr : list Z) : Overlap :=
  {| aread := a; bread := b; flags := f;
     path := {| abpos := ab; aepos := ae; bbpos := bb; bepos := be;
                tlen := Z.of_nat (length tr); trace := tr |} |}.

Definition no_dust : HITS_TRACK := mk_track "dust" (replicate 10 []).

(** S3: read 2 of length 500, two overlaps with read 9. *)
Definition S3_db : HITS_DB := mk_db [0; 0; 500; 0; 0; 0; 0; 0; 0; 500]%nat letter.

Definition S3_q : HITS_TRACK :=
  mk_track "q" [[]; []; [10; 10; 40; 10; 10]; []; []; []; []; []; []; [9; 9; 9; 9; 9]].

Definition S3_ctx : FixContext :=
  {| db := S3_db; twidth := 100; minlen := 50; lowq := 28; maxgap := 500;
     qtrack := S3_q; trimtrack := None; dusttrack := no_dust;
     convertTracks := [] |}.

Definition S3_ovl : list Overlap :=
  [ mk_ovl 2 9 0 0 200 0 200 [0; 100; 0; 100];
    mk_ovl 2 9 0 300 500 300 500 [0; 100; 0; 100] ].

(** S2: read 1 of length 400 with a bad segment, one overlap with
    read 7 that spans it. *)
Definition S2_db : HITS_DB := mk_db [0; 400; 0; 0; 0; 0; 0; 400]%nat letter.

Definition S2_q : HITS_TRACK :=
  mk_track "q" [[]; [10; 40; 10; 12]; []; []; []; []; []; [8; 9; 10; 11]].

Definition S2_ovl : list Overlap :=
  [ mk_ovl 1 7 0 0 400 0 400 [0; 100; 0; 100; 0; 100; 0; 100] ].

Definition S2_ctx : FixContext :=
  {| db := S2_db; twidth := 100; minlen := 50; lowq := 28; maxgap := 500;
     qtrack := S2_q; trimtrack := None; dusttrack := no_dust;
     convertTracks := [] |}.

(** The candidate of S2 and the read it is patched to. *)
Definition S2_cands : list Gap := default [] (candidates S2_ctx S2_ovl 0 400).

Definition S2_patched : Patched :=
  default (patch_start 0) (patch S2_ctx 1 0 400 (count_span S2_ovl (qsort S2_cands))).

Definition S2_fasta : Fasta :=
  {| prefix := "fixed_"; source := 1; tracks := [];
     bases := take (Z.to_nat (rlen S2_patched)) (read S2_patched) |}.

(** S2 with read 7 aligned as its reverse complement. *)
Definition S2_comp_ovl : list Overlap :=
  [ mk_ovl 1 7 OVL_COMP 0 400 0 400 [0; 100; 0; 100; 0; 100; 0; 100] ].

(** S2 with a dust interval [120, 150) in read 7. *)
Definition S2_dust : HITS_TRACK :=
  mk_track "dust" [[]; []; []; []; []; []; []; [120; 150]].

Definition S2_dust_ctx : FixContext :=
  {| db := S2_db; twidth := 100; minlen := 50; lowq := 28; maxgap := 500;
     qtrack := S2_q; trimtrack := None; dusttrack := S2_dust;
     convertTracks := [] |}.

(** S2 run with [-g 100]. *)
Definition S2_g100_ctx : FixContext :=
  {| db := S2_db; twidth := 100; minlen := 50; lowq := 28; maxgap := 100;
     qtrack := S2_q; trimtrack := None; dusttrack := no_dust;
     convertTracks := [] |}.

(** A gap with support: read 2 of length 500 and five B-reads 10..14,
    each with an overlap before and one after the bases 200..300 of A. *)
Definition G5_db : HITS_DB :=
  mk_db [0; 0; 500; 0; 0; 0; 0; 0; 0; 0; 500; 500; 500; 500; 500]%nat letter.

Definition G5_q : HITS_TRACK :=
  mk_track "q" [[]; []; [10; 10; 40; 10; 10]; []; []; []; []; []; []; [];
                [9; 9; 9; 9; 9]; [9; 9; 9; 9; 9]; [9; 9; 9; 9; 9];
                [9; 9; 9; 9; 9]; [9; 9; 9; 9; 9]].

Definition G5_ctx : FixContext :=
  {| db := G5_db; twidth := 100; minlen := 50; lowq := 28; maxgap := 500;
     qtrack := G5_q; trimtrack := None;
     dusttrack := mk_track "dust" (replicate 15 []);
     convertTracks := [] |}.

Definition G5_ovl : list Overlap :=
  b ← [10; 11; 12; 13; 14];
  [ mk_ovl 2 b 0 0 200 0 200 [0; 100; 0; 100];
    mk_ovl 2 b 0 300 500 300 500 [0; 100; 0; 100] ].

(** S4: read 3 of length 1000 with a complement overlap with itself. *)
Definition S4_db : HITS_DB := mk_db [0; 0; 0; 1000]%nat letter.

Definition S4_q : HITS_TRACK :=
  mk_track "q" [[]; []; []; [10; 10; 10; 10; 10; 10; 10; 10; 10; 10]].

Definition S4_ctx : FixContext :=
  {| db := S4_db; twidth := 100; minlen := 50; lowq := 28; maxgap := 500;
     qtrack := S4_q; trimtrack := None; dusttrack := no_dust;
     convertTracks := [] |}.

(** The overlap of S4, for a trace [tr] of [tl] entries. *)
Definition S4_self (tl : Z) (tr : list Z) : Overlap :=
  {| aread := 3; bread := 3; flags := OVL_COMP;
     path := {| abpos := 200; aepos := 500; bbpos := 500; bepos := 800;
                tlen := tl; trace := tr |} |}.

Definition S4_ovl : list Overlap := [ S4_self 6 [0; 100; 0; 100; 0; 100] ].

(** S3 with a track REP to convert that holds [10, 12) for read 2. *)
Definition S3_rep : HITS_TRACK :=
  mk_track "REP" [[]; []; [10; 12]; []; []; []; []; []; []; []].

Definition S3_rep_ctx : FixContext :=
  {| db := S3_db; twidth := 100; minlen := 50; lowq := 28; maxgap := 500;
     qtrack := S3_q; trimtrack := None; dusttrack := no_dust;
     convertTracks := [S3_rep] |}.

(** S2 with a track REP that holds the interval [50, 300) for read 1. *)
Definition S2_rep : HITS_TRACK := mk_track "REP" [[]; [50; 300]].

Definition S2_rep_ctx : FixContext :=
  {| db := S2_db; twidth := 100; minlen := 50; lowq := 28; maxgap := 500;
     qtrack := S2_q; trimtrack := None; dusttrack := no_dust;
     convertTracks := [S2_rep] |}.


(** A break before the trim: a candidate for [0, 100) of read 1 with
    the donor B7[0, 100). *)
Definition early_gap : Gap :=
  {| Gap.ab := 0; Gap.ae := 100; Gap.bb := 0; Gap.be := 100; Gap.diff := 0;
     Gap.b := 7; Gap.support := 5; Gap.span := 0; Gap.comp := 0 |}.

End Scenario.
Import Scenario.

(** * Specification *)

(** A state of the flip detector lies inside the trim [tb0, te0) it
    started from, and is not empty. *)
Definition inside_trim (tb0 te0 : Z) (st : FlipTrim) : Prop :=
  tb0 <= trim_b st /\ trim_b st < trim_e st /\ trim_e st <= te0.

(** The bases the triples of [apatches] account for, and those of the
    donors. *)
Definition sum_retained (ps : list APatch) : Z :=
  foldr (fun p acc => (pa_ae p - pa_ab p) + acc) 0 ps.

Definition sum_donor (gs : list Gap) : Z :=
  foldr (fun g acc => (Gap.be g - Gap.bb g) + acc) 0 gs.

(** Base [i] of the result is the base of A that a triple of [ps] puts
    there. *)
Definition from_A (reada : list ascii) (ps : list APatch) (i : nat) (x : ascii) : Prop :=
  exists p, p ∈ ps
    /\ pa_off p <= Z.of_nat i < pa_off p + (pa_ae p - pa_ab p)
    /\ reada !! Z.to_nat (pa_ab p + (Z.of_nat i - pa_off p)) = Some x.

(** Base [i] of the result comes from the B-interval [bb, be) of a
    candidate of [gs] spliced in at [off]: the base at the same distance
    from [bb], or, for a complemented donor, the complement of the base
    at that distance back from [be]. *)
Definition from_B (fctx : FixContext) (gs : list Gap) (i : nat) (x : ascii) : Prop :=
  exists g off, g ∈ gs
    /\ off <= Z.of_nat i < off + (Gap.be g - Gap.bb g)
    /\ if Gap.comp g =? 0
       then Load_Read (db fctx) (Gap.b g) !! Z.to_nat (Gap.bb g + (Z.of_nat i - off)) = Some x
       else exists y,
              Load_Read (db fctx) (Gap.b g) !! Z.to_nat (Gap.be g - 1 - (Z.of_nat i - off))
              = Some y
              /\ x = complement y.

(** The trim lies in A and every candidate in its reads: what the copies
    of the patch loop need to stay inside their buffers. *)
Definition gap_in_reads (fctx : FixContext) (g : Gap) : Prop :=
  0 <= Gap.ab g <= Gap.ae g
  /\ 0 <= Gap.bb g <= Gap.be g
  /\ Gap.be g <= DB_READ_LEN (db fctx) (Gap.b g).

Definition patch_input_ok (fctx : FixContext) (a trim_ab trim_ae : Z) (data : list Gap)
  : Prop :=
  0 <= trim_ab
  /\ trim_ae <= DB_READ_LEN (db fctx) a
  /\ Forall (gap_in_reads fctx) data.

(** The invariant of the patch loop, [used] being the candidates spliced
    in so far. *)
Definition patch_inv (fctx : FixContext) (reada : list ascii) (used : list Gap)
    (st : Patched) : Prop :=
  0 <= cur_ab st
  /\ Z.of_nat (length (read st)) = rlen st
  /\ rlen st = sum_retained (apatches st) + sum_donor used
  /\ forall i x, read st !! i = Some x ->
       from_A reada (apatches st) i x \/ from_B fctx used i x.

(** A piece of the patched read: the bases of A that a triple of
    [apatches] stands for, or the donor of a candidate spliced in. *)
Inductive Piece :=
| PieceA (p : APatch)
| PieceB (g : Gap).

Definition piece_len (x : Piece) : Z :=
  match x with
  | PieceA p => pa_ae p - pa_ab p
  | PieceB g => Gap.be g - Gap.bb g
  end.

Definition total_len (l : list Piece) : Z :=
  foldr (fun x acc => piece_len x + acc) 0 l.

Definition pieces_A (l : list Piece) : list APatch :=
  omap (fun x => match x with PieceA p => Some p | PieceB _ => None end) l.

Definition pieces_B (l : list Piece) : list Gap :=
  omap (fun x => match x with PieceA _ => None | PieceB g => Some g end) l.

(** Base [k] of a piece is [c]: for a triple the base of A at [ab + k];
    for a candidate the base of its B-read at [bb + k], or, for a
    complemented donor, the complement of the base at [be - 1 - k], that
    is [k] places back from the end of the B-interval. *)
Definition piece_base (fctx : FixContext) (reada : list ascii) (x : Piece) (k : Z)
    (c : ascii) : Prop :=
  match x with
  | PieceA p => reada !! Z.to_nat (pa_ab p + k) = Some c
  | PieceB g =>
      if Gap.comp g =? 0
      then Load_Read (db fctx) (Gap.b g) !! Z.to_nat (Gap.bb g + k) = Some c
      else exists y,
             Load_Read (db fctx) (Gap.b g) !! Z.to_nat (Gap.be g - 1 - k) = Some y
             /\ c = complement y
  end.

(** [out] is the pieces [pieces] one after the other, and nothing else:
    the triples among them are [ps] and the candidates [gs], each in
    their order; no piece has a negative length; [out] is as long as the
    pieces together; a piece begins in [out] where the pieces before it
    end, which for a triple is the offset it records; and base [k] of a
    piece is the base of [out] [k] places after the begin of the
    piece. *)
Definition spliced_from (fctx : FixContext) (reada : list ascii) (ps : list APatch)
    (gs : list Gap) (out : list ascii) (pieces : list Piece) : Prop :=
  pieces_A pieces = ps
  /\ pieces_B pieces = gs
  /\ Forall (fun x => 0 <= piece_len x) pieces
  /\ Z.of_nat (length out) = total_len pieces
  /\ forall pre x post, pieces = pre ++ x :: post ->
       match x with PieceA p => pa_off p = total_len pre | PieceB _ => True end
       /\ forall k, 0 <= k < piece_len x ->
            exists c, out !! Z.to_nat (total_len pre + k) = Some c
                      /\ piece_base fctx reada x k c.

(** The bases the code copies for a piece. *)
Definition piece_bytes (fctx : FixContext) (reada : list ascii) (x : Piece) : list ascii :=
  match x with
  | PieceA p => slice reada (pa_ab p) (pa_ae p - pa_ab p)
  | PieceB g => donor fctx g
  end.

Definition bytes_of (fctx : FixContext) (reada : list ascii) (l : list Piece) : list ascii :=
  foldr (fun x acc => piece_bytes fctx reada x ++ acc) [] l.

(** A piece lies in the read it is copied from. *)
Definition piece_fits (fctx : FixContext) (reada : list ascii) (x : Piece) : Prop :=
  match x with
  | PieceA p => 0 <= pa_ab p /\ pa_ab p < pa_ae p /\ pa_ae p <= Z.of_nat (length reada)
  | PieceB g => gap_in_reads fctx g
  end.

(** The triples of [l] record as their offset the length of the pieces
    before them, [off] being the length of what comes before [l]. *)
Fixpoint offsets_from (off : Z) (l : list Piece) : Prop :=
  match l with
  | [] => True
  | x :: l' =>
      match x with PieceA p => pa_off p = off | PieceB _ => True end
      /\ offsets_from (off + piece_len x) l'
  end.

(** The invariant of the patch loop for the pieces copied so far,
    [used] being the candidates spliced in. *)
Definition pieces_inv (fctx : FixContext) (reada : list ascii) (used : list Gap)
    (pieces : list Piece) (st : Patched) : Prop :=
  0 <= cur_ab st
  /\ rlen st = total_len pieces
  /\ read st = bytes_of fctx reada pieces
  /\ apatches st = pieces_A pieces
  /\ used = pieces_B pieces
  /\ Forall (piece_fits fctx reada) pieces
  /\ offsets_from 0 pieces.

(** The triples of [apatches] are not empty and follow one another in
    A without overlap. *)
Definition splice_ordered (ps : list APatch) : Prop :=
  Forall (fun p => pa_ab p < pa_ae p) ps
  /\ StronglySorted (fun p q => pa_ae p <= pa_ab q) ps.

(** The candidates as the second [qsort] leaves them: in the order of
    their begin in A; and each with its end in A not before its begin. *)
Definition sorted_by_ab (data : list Gap) : Prop :=
  StronglySorted (fun g g' => Gap.ab g <= Gap.ab g') data.

Definition gap_ab_le_ae (g : Gap) : Prop := Gap.ab g <= Gap.ae g.

(** The invariant of the patch loop for the order of the triples: they
    end at or before the cursor, and once there is one, no candidate
    left starts before the trim. *)
Definition order_inv (trim_ab : Z) (data : list Gap) (st : Patched) : Prop :=
  splice_ordered (apatches st)
  /\ Forall (fun p => pa_ae p <= cur_ab st) (apatches st)
  /\ (apatches st <> [] -> Forall (fun g => trim_ab <= Gap.ab g) data).

(** No dust interval of the donor lies inside the B-interval of the
    candidate. *)
Definition dust_clear (fctx : FixContext) (g : Gap) : Prop :=
  forall d : Z * Z,
    d ∈ track_intervals (dusttrack fctx) (Gap.b g) ->
    ~ (Gap.bb g <= d.1 /\ d.2 <= Gap.be g).

(** The cap on the size of a gap as the specification states it. *)
Definition within_maxgap (mg : Z) (g : Gap) : Prop :=
  Gap.ae g - Gap.ab g < mg
  /\ Z.abs ((Gap.be g - Gap.bb g) - (Gap.ae g - Gap.ab g)) < mg.

(** The candidate passes the check of the merger. *)
Definition capped (mg : Z) (g : Gap) : Prop := gap_too_long mg g = false.

(** Both intervals of the candidate are not empty. *)
Definition gap_proper (g : Gap) : Prop :=
  Gap.ab g < Gap.ae g /\ Gap.bb g < Gap.be g.

(** Two candidates for the same place: the same intervals in A and B. *)
Definition same_place (g g' : Gap) : Prop :=
  Gap.ab g = Gap.ab g' /\ Gap.ae g = Gap.ae g'
  /\ Gap.bb g = Gap.bb g' /\ Gap.be g = Gap.be g'.

(** Every candidate of [data] satisfies [phi] at its index. *)
Definition all_at (phi : nat -> Gap -> Prop) (data : list Gap) : Prop :=
  forall k g, data !! k = Some g -> phi k g.

(** The candidates before index [i] that are not dropped pass the check
    of the merger. *)
Definition checked_upto (mg : Z) (i : nat) (data : list Gap) : Prop :=
  all_at (fun k g => (k < i)%nat -> Gap.support g <> -1 -> capped mg g) data.

Definition alive_capped (mg : Z) (data : list Gap) : Prop :=
  all_at (fun _ g => Gap.support g <> -1 -> capped mg g) data.

(** The state of the flip detector tells whether it flagged anything:
    without a flag the trim is the one it started from. *)
Definition flag_inv (tb te : Z) (st : FlipTrim) : Prop :=
  trimmed st = 0 /\ trim_b st = tb /\ trim_e st = te \/ trimmed st = 1.

(** What a break between the consecutive overlaps [o1] and [o2] of one
    B-read looks like. *)
Definition gap_shape (fctx : FixContext) (o1 o2 : Overlap) (g : Gap) : Prop :=
  Gap.support g = 1 /\ Gap.span g = 0
  /\ bread o1 = Gap.b g /\ bread o2 = Gap.b g
  /\ flag_comp o1 = Gap.comp g /\ flag_comp o2 = Gap.comp g
  /\ (exists k, Gap.ab g = k * twidth fctx) /\ (exists k, Gap.ae g = k * twidth fctx)
  /\ 0 <= Gap.ab g
  /\ Gap.ab g < aepos (path o1) /\ aepos (path o1) < abpos (path o2)
  /\ abpos (path o2) < Gap.ae g
  /\ Gap.bb g < Gap.be g
  /\ Gap.be g - Gap.bb g
     = (bbpos (path o2) + rd (trace (path o2)) 1)
       - (bepos (path o1) - rd (trace (path o1)) (tlen (path o1) - 1)).

(** The merger changes nothing of a candidate but its support. *)
Definition merged_from (fctx : FixContext) (ovl : list Overlap) (g : Gap) : Prop :=
  exists g0, g0 ∈ find_gaps fctx ovl /\ g = Gap.with_support g0 (Gap.support g).

(** A candidate in the merger: dropped or with a positive support, and
    with an A-interval that is not empty. *)
Definition gap_ok (g : Gap) : Prop :=
  (Gap.support g = -1 \/ 1 <= Gap.support g) /\ Gap.ab g < Gap.ae g.

(** [g'] is what a step of the merger makes of [g]: the same A-interval,
    not dropped unless the step drops it, and in order if [g] is. *)
Definition weaker (g g' : Gap) : Prop :=
  Gap.ab g' = Gap.ab g /\ Gap.ae g' = Gap.ae g
  /\ (Gap.support g' <> -1 -> Gap.support g <> -1)
  /\ (gap_ok g -> gap_ok g').

Definition refines (data data' : list Gap) : Prop :=
  forall k g', data' !! k = Some g' -> exists g, data !! k = Some g /\ weaker g g'.

(** The candidates are in the order of their begin in A. *)
Definition ab_sorted (data : list Gap) : Prop :=
  forall i k g h, (i < k)%nat -> data !! i = Some g -> data !! k = Some h ->
                  Gap.ab g <= Gap.ab h.

(** The candidates at the index pairs [B] that are both not dropped do
    not overlap in A. *)
Definition apart (B : nat -> nat -> Prop) (data : list Gap) : Prop :=
  forall i k g h, B i k -> data !! i = Some g -> data !! k = Some h ->
                  Gap.support g <> -1 -> Gap.support h <> -1 ->
                  Gap.ae g <= Gap.ab h.

(** The state of the loop that merges overlapping breaks, before index
    [i]; [data0] is what the loop started from. *)
Definition overlap_inv (data0 : list Gap) (i : nat) (data : list Gap) : Prop :=
  refines data0 data
  /\ all_at (fun _ => gap_ok) data
  /\ ab_sorted data
  /\ apart (fun i' k => (i' < i)%nat /\ (i' < k)%nat) data.

(** Two candidates do not overlap in A. *)
Definition disjoint_A (g h : Gap) : Prop :=
  Gap.ae g <= Gap.ab h \/ Gap.ae h <= Gap.ab g.

(** The state of the scan for a donor of the weak segment [ab, ae): the
    counts are not negative, and the donor chosen, if any, is an overlap
    of the group that extends 100 bases beyond the segment on both sides
    and offers a B-interval that is not empty. *)
Definition donor_inv (ovl : list Overlap) (ab ae : Z) (st : WeakScan) : Prop :=
  0 <= w_span st /\ 0 <= w_border st
  /\ (ovl_q_min st = -1
      \/ exists o, at_Z ovl (ovl_q_min st) = Some o
                   /\ abpos (path o) + 100 <= ab /\ ae <= aepos (path o) - 100
                   /\ bb_q_min st < be_q_min st
                   /\ 1 <= w_span st).

(** What a candidate for a weak segment looks like, given the candidates
    [data] found before it. *)
Definition weak_shape (fctx : FixContext) (ovl : list Overlap) (data : list Gap) (g : Gap)
  : Prop :=
  (exists i, Gap.ab g = i * twidth fctx /\ Gap.ae g = (i + 1) * twidth fctx
             /\ let qi := track_at (qtrack fctx) (group_aread ovl) i in
                qi = 0 \/ lowq fctx <= qi)
  /\ Forall (fun h => Gap.ae h < Gap.ab g \/ Gap.ae g < Gap.ab h) data
  /\ (exists o, o ∈ ovl /\ bread o = Gap.b g /\ flag_comp o = Gap.comp g
                 /\ abpos (path o) + 100 <= Gap.ab g /\ Gap.ae g <= aepos (path o) - 100)
  /\ Gap.bb g < Gap.be g
  /\ 1 <= Gap.span g /\ 0 <= Gap.support g.

(** The bases of A that the candidates of [gs] replace. *)
Definition sum_replaced (gs : list Gap) : Z :=
  foldr (fun g acc => (Gap.ae g - Gap.ab g) + acc) 0 gs.

(** A triple of [apatches] lies in a patched read of [n] bases. *)
Definition triple_in_read (n : Z) (p : APatch) : Prop :=
  0 <= pa_off p /\ pa_ab p <= pa_ae p /\ pa_off p + (pa_ae p - pa_ab p) <= n.

(** A candidate covers whole segments of A, one at least. *)
Definition whole_segments (fctx : FixContext) (g : Gap) : Prop :=
  (exists k, Gap.ab g = k * twidth fctx) /\ (exists k, Gap.ae g = k * twidth fctx)
  /\ Gap.ab g < Gap.ae g.

(** The overlaps of [ovl] that extend more than 100 bases beyond the
    candidate [g] on both sides. *)
Definition spans_wide (g : Gap) (o : Overlap) : bool :=
  (abpos (path o) + 100 <? Gap.ab g) && (aepos (path o) - 100 >? Gap.ae g).

Definition wide_spanners (ovl : list Overlap) (g : Gap) : Z :=
  Z.of_nat (length (List.filter (spans_wide g) ovl)).

(** The values of an [int]. *)
Definition int_range (z : Z) : Prop := -2147483648 <= z <= 2147483647.

(** The keys of a candidate are places in a read and a quality: not
    negative, and within [int]; no difference of two such keys leaves
    the range of [int]. *)
Definition key_range (g : Gap) : Prop :=
  0 <= Gap.ab g <= 2147483647
  /\ 0 <= Gap.ae g <= 2147483647
  /\ 0 <= Gap.diff g <= 2147483647.

(** [x] comes before [y]: by begin in A, then by end in A, then by
    [diff]. *)
Definition gap_before (x y : Gap) : Prop :=
  Gap.ab x < Gap.ab y
  \/ Gap.ab x = Gap.ab y
     /\ (Gap.ae x < Gap.ae y \/ Gap.ae x = Gap.ae y /\ Gap.diff x < Gap.diff y).

Definition same_keys (x y : Gap) : Prop :=
  Gap.ab x = Gap.ab y /\ Gap.ae x = Gap.ae y /\ Gap.diff x = Gap.diff y.

(** The overlap [o] starts more than [MIN_SPAN] bases before [b] and
    ends more than [MIN_SPAN] bases after [e]. *)
Definition spans (b e : Z) (o : Overlap) : Prop :=
  abpos (path o) < b - MIN_SPAN /\ e + MIN_SPAN < aepos (path o).

#[global] Instance spans_dec (b e : Z) (o : Overlap) : Decision (spans b e o).
Proof. unfold spans. apply _. Defined.

(** * Properties *)

(** ** The model on small inputs *)

Example for_step2_trace : for_step2 2 (8 - 2) = [2; 4].
Proof. reflexivity. Qed.

Example for_range_segments : for_range 1 4 = [1; 2; 3].
Proof. reflexivity. Qed.

Example intersect_overlapping : intersect 200 500 300 400 = 100.
Proof. reflexivity. Qed.

Example intersect_disjoint : intersect 200 300 400 500 = 0.
Proof. reflexivity. Qed.

Example revcomp_acgt : revcomp ["a"; "a"; "c"; "g"]%char = ["c"; "g"; "t"; "t"]%char.
Proof. reflexivity. Qed.

Example track_intervals_S2_dust : track_intervals S2_dust 7 = [(120, 150)].
Proof. reflexivity. Qed.

Example spanners_S2 : spanners S2_ovl 100 200 = 0.
Proof. reflexivity. Qed.

(** S2 as the specification expects it: one candidate for the weak
    segment, and the read A[0..100] + B7[100..200] + A[200..400]. *)
Example S2_candidate :
  candidates S2_ctx S2_ovl 0 400
  = Some [ {| Gap.ab := 100; Gap.ae := 200; Gap.bb := 100; Gap.be := 200;
              Gap.diff := 9; Gap.b := 7; Gap.support := 0; Gap.span := 1;
              Gap.comp := 0 |} ].
Proof. vm_compute. reflexivity. Qed.

Example S2_fixed :
  fix_process S2_ctx S2_ovl
  = Written {| prefix := "fixed_"; source := 1; tracks := [];
               bases := replicate 100 "a"%char ++ replicate 100 "c"%char
                        ++ replicate 200 "a"%char |}.
Proof. vm_compute. reflexivity. Qed.

(** With the donor aligned as its reverse complement, its bases are
    complemented: the c of read 7 arrive as g. *)
Example S2_fixed_complemented :
  fix_process S2_ctx S2_comp_ovl
  = Written {| prefix := "fixed_"; source := 1; tracks := [];
               bases := replicate 100 "a"%char ++ replicate 100 "g"%char
                        ++ replicate 200 "a"%char |}.
Proof. vm_compute. reflexivity. Qed.

(** ** Loops as folds *)

Lemma foldl_invariant {A B : Type} (P : A -> Prop) (f : A -> B -> A) (l : list B) (a : A) :
  P a -> (forall x y, P x -> P (f x y)) -> P (foldl f a l).
Proof.
  intros Ha Hf. revert a Ha.
  induction l as [|y l IH]; intros a Ha; simpl; [assumption|].
  apply IH, Hf, Ha.
Qed.

(** ** The flip detector *)

Section Flips.

(** The trim [filter_flips] starts from. *)
Variables tb0 te0 : Z.

Lemma flip_cross_nonempty st sab sae :
  trim_b st < trim_e st ->
  trim_b (flip_cross st sab sae) < trim_e (flip_cross st sab sae).
Proof.
  intros H. unfold flip_cross.
  destruct (trim_b st <? sab) eqn:E1; destruct (sae <? trim_e st) eqn:E2; simpl; try lia.
  destruct (sab - trim_b st <? trim_e st - sae); simpl; lia.
Qed.

Lemma flip_gap_nonempty st mid :
  trim_b st < trim_e st ->
  trim_b (flip_gap st mid) < trim_e (flip_gap st mid).
Proof.
  intros H. unfold flip_gap.
  destruct (trim_b st <? mid) eqn:E1; destruct (mid <? trim_e st) eqn:E2; simpl; try lia.
  destruct (mid - trim_b st <? trim_e st - mid); simpl; lia.
Qed.

Lemma flip_cross_inside st sab sae :
  sab < sae -> inside_trim tb0 te0 st -> inside_trim tb0 te0 (flip_cross st sab sae).
Proof.
  unfold inside_trim, flip_cross. intros Hs (H1 & H2 & H3).
  destruct (trim_b st <? sab) eqn:E1; destruct (sae <? trim_e st) eqn:E2; simpl; try lia.
  destruct (sab - trim_b st <? trim_e st - sae); simpl; lia.
Qed.

Lemma flip_gap_inside st mid :
  inside_trim tb0 te0 st -> inside_trim tb0 te0 (flip_gap st mid).
Proof.
  unfold inside_trim, flip_gap. intros (H1 & H2 & H3).
  destruct (trim_b st <? mid) eqn:E1; destruct (mid <? trim_e st) eqn:E2; simpl; try lia.
  destruct (mid - trim_b st <? trim_e st - mid); simpl; lia.
Qed.

(** The end of the segment an alignment starts in lies past its start. *)
Lemma segment_end_after tw sab : 0 < tw -> sab < (Z.quot sab tw + 1) * tw.
Proof.
  intros Htw.
  pose proof (Z.quot_rem' sab tw) as Hq.
  pose proof (Z.rem_bound_abs sab tw ltac:(lia)) as Hr.
  lia.
Qed.

Lemma flips_walk_nonempty tw alen ovl st :
  trim_b st < trim_e st ->
  trim_b (flips_walk tw alen ovl st) < trim_e (flips_walk tw alen ovl st).
Proof.
  intros H. unfold flips_walk.
  apply (foldl_invariant (fun s : Z * Z * Z * Z * FlipTrim => trim_b s.2 < trim_e s.2)).
  - exact H.
  - intros [[[[sab sae] sbb] sbe] s] j Hs. simpl in *.
    destruct (negb _); simpl; [apply flip_cross_nonempty|]; assumption.
Qed.

Lemma flips_walk_inside tw alen ovl st :
  0 < tw -> inside_trim tb0 te0 st -> inside_trim tb0 te0 (flips_walk tw alen ovl st).
Proof.
  intros Htw H. unfold flips_walk.
  apply (foldl_invariant
           (fun s : Z * Z * Z * Z * FlipTrim => s.1.1.1.1 < s.1.1.1.2 /\ inside_trim tb0 te0 s.2)).
  - simpl. split; [apply segment_end_after; assumption | exact H].
  - intros [[[[sab sae] sbb] sbe] s] j [Hlt Hs]. simpl in *.
    split; [lia|].
    destruct (negb _); [apply flip_cross_inside|]; assumption.
Qed.

Lemma flips_overlap_nonempty tw alen ovls st i :
  trim_b st < trim_e st ->
  trim_b (flips_overlap tw alen ovls st i) < trim_e (flips_overlap tw alen ovls st i).
Proof.
  intros H. unfold flips_overlap.
  destruct (at_Z ovls i) as [ovl|]; [|assumption].
  destruct (is_comp ovl); [|assumption].
  destruct (negb _); [apply flips_walk_nonempty|]; assumption.
Qed.

Lemma flips_overlap_inside tw alen ovls st i :
  0 < tw -> inside_trim tb0 te0 st -> inside_trim tb0 te0 (flips_overlap tw alen ovls st i).
Proof.
  intros Htw H. unfold flips_overlap.
  destruct (at_Z ovls i) as [ovl|]; [|assumption].
  destruct (is_comp ovl); [|assumption].
  destruct (negb _); [apply flips_walk_inside|]; assumption.
Qed.

Lemma flips_pair_nonempty alen ovls st i :
  trim_b st < trim_e st ->
  trim_b (flips_pair alen ovls st i) < trim_e (flips_pair alen ovls st i).
Proof.
  intros H. unfold flips_pair.
  destruct (at_Z ovls i) as [ovl|]; [|assumption].
  destruct (at_Z ovls (i + 1)) as [ovl2|]; [|assumption].
  destruct (is_comp ovl && is_comp ovl2); [|assumption].
  destruct (negb _ && _); [apply flip_gap_nonempty|]; assumption.
Qed.

Lemma flips_pair_inside alen ovls st i :
  inside_trim tb0 te0 st -> inside_trim tb0 te0 (flips_pair alen ovls st i).
Proof.
  intros H. unfold flips_pair.
  destruct (at_Z ovls i) as [ovl|]; [|assumption].
  destruct (at_Z ovls (i + 1)) as [ovl2|]; [|assumption].
  destruct (is_comp ovl && is_comp ovl2); [|assumption].
  destruct (negb _ && _); [apply flip_gap_inside|]; assumption.
Qed.

End Flips.

(** Every update of the trim inside [filter_flips] keeps it non-empty. *)
Lemma filter_flips_nonempty fctx ovls tb te :
  tb < te ->
  trim_b (filter_flips fctx ovls tb te) < trim_e (filter_flips fctx ovls tb te).
Proof.
  intros H. unfold filter_flips.
  destruct (flips_scan _ _ _ _ _ _ _) as [[[b e] self_c] self_n].
  destruct (self_c =? 0); [exact H|].
  apply foldl_invariant; [|intros; apply flips_pair_nonempty; assumption].
  apply foldl_invariant; [exact H|intros; apply flips_overlap_nonempty; assumption].
Qed.

(** With segments of positive width, [filter_flips] leaves a trim inside
    the one it was given. *)
Lemma filter_flips_inside fctx ovls tb te :
  0 < twidth fctx -> tb < te ->
  inside_trim tb te (filter_flips fctx ovls tb te).
Proof.
  intros Htw H. unfold filter_flips.
  destruct (flips_scan _ _ _ _ _ _ _) as [[[b e] self_c] self_n].
  assert (H0 : inside_trim tb te {| trimmed := 0; trim_b := tb; trim_e := te |})
    by (unfold inside_trim; simpl; lia).
  destruct (self_c =? 0); [exact H0|].
  apply foldl_invariant; [|intros; apply flips_pair_inside; assumption].
  apply foldl_invariant; [exact H0|intros; apply flips_overlap_inside; assumption].
Qed.

(** ** The trim after flip detection *)

(** C5. Flip trim monotonicity: the trim that results from the flip
    detector and the intersection with the original trim starts no
    earlier and ends no later than the original trim, for the trim
    [fix_process] goes on with in particular.  With segments of positive
    width [filter_flips] alone leaves a trim inside the one it got. *)
Theorem flip_trim_monotone (fctx : FixContext) (ovl : list Overlap) (trim_ab trim_ae : Z) :
  trim_ab <= (flip_adjust fctx ovl trim_ab trim_ae).1
  /\ (flip_adjust fctx ovl trim_ab trim_ae).2 <= trim_ae
  /\ (forall trim_ab' trim_ae',
        fix_trim fctx ovl = Some (trim_ab', trim_ae') ->
        (initial_trim fctx (group_aread ovl)).1 <= trim_ab'
        /\ trim_ae' <= (initial_trim fctx (group_aread ovl)).2)
  /\ (0 < twidth fctx -> trim_ab < trim_ae ->
      inside_trim trim_ab trim_ae (filter_flips fctx ovl trim_ab trim_ae)).
Proof.
  split; [unfold flip_adjust; simpl; lia|].
  split; [unfold flip_adjust; simpl; lia|].
  split; [|apply filter_flips_inside].
  intros tab' tae'. unfold fix_trim.
  destruct (initial_trim fctx (group_aread ovl)) as [tab tae].
  destruct (tab >=? tae); [discriminate|].
  unfold flip_adjust. intros H. injection H as <- <-. simpl. lia.
Qed.

(** With segments of positive width the intersection changes nothing:
    the trim is the one [filter_flips] leaves. *)
Lemma flip_adjust_filter_flips fctx ovl trim_ab trim_ae :
  0 < twidth fctx -> trim_ab < trim_ae ->
  flip_adjust fctx ovl trim_ab trim_ae
  = (trim_b (filter_flips fctx ovl trim_ab trim_ae),
     trim_e (filter_flips fctx ovl trim_ab trim_ae)).
Proof.
  intros Htw H. unfold flip_adjust.
  destruct (filter_flips_inside fctx ovl trim_ab trim_ae Htw H) as (H1 & H2 & H3).
  f_equal; lia.
Qed.

(** C10. The flip detector never empties the trim: the update for a
    crossing segment and the update for a gap between two overlaps both
    keep [trim_b < trim_e]; so does [filter_flips] as a whole, and a read
    whose trim is not empty at the start is not skipped: [fix_process]
    goes on to the patching phase with a trim that is not empty. *)
Theorem flips_never_empty_trim (fctx : FixContext) (ovl : list Overlap) :
  0 < twidth fctx ->
  (initial_trim fctx (group_aread ovl)).1 < (initial_trim fctx (group_aread ovl)).2 ->
  (forall st sab sae, trim_b st < trim_e st ->
     trim_b (flip_cross st sab sae) < trim_e (flip_cross st sab sae))
  /\ (forall st mid, trim_b st < trim_e st ->
     trim_b (flip_gap st mid) < trim_e (flip_gap st mid))
  /\ (forall tb te, tb < te ->
     trim_b (filter_flips fctx ovl tb te) < trim_e (filter_flips fctx ovl tb te))
  /\ exists trim_ab trim_ae,
       fix_trim fctx ovl = Some (trim_ab, trim_ae)
       /\ trim_ab < trim_ae
       /\ fix_process fctx ovl = fix_patch fctx ovl trim_ab trim_ae.
Proof.
  intros Htw H.
  split; [intros; apply flip_cross_nonempty; assumption|].
  split; [intros; apply flip_gap_nonempty; assumption|].
  split; [intros; apply filter_flips_nonempty; assumption|].
  unfold fix_process, fix_trim.
  destruct (initial_trim fctx (group_aread ovl)) as [tab tae]. simpl in H.
  destruct (tab >=? tae) eqn:E; [lia|].
  rewrite (flip_adjust_filter_flips fctx ovl tab tae Htw H).
  eexists _, _. split; [reflexivity|].
  split; [apply filter_flips_nonempty; assumption | reflexivity].
Qed.

Lemma flips_never_empty_trim_witness :
  0 < twidth S4_ctx
  /\ (initial_trim S4_ctx (group_aread S4_ovl)).1 < (initial_trim S4_ctx (group_aread S4_ovl)).2
  /\ exists trim_ab trim_ae,
       fix_trim S4_ctx S4_ovl = Some (trim_ab, trim_ae)
       /\ trim_ab < trim_ae
       /\ fix_process S4_ctx S4_ovl = fix_patch S4_ctx S4_ovl trim_ab trim_ae.
Proof.
  assert (H1 : 0 < twidth S4_ctx) by (vm_compute; reflexivity).
  assert (H2 : (initial_trim S4_ctx (group_aread S4_ovl)).1
               < (initial_trim S4_ctx (group_aread S4_ovl)).2)
    by (vm_compute; reflexivity).
  split; [exact H1|]. split; [exact H2|].
  exact (proj2 (proj2 (proj2 (flips_never_empty_trim S4_ctx S4_ovl H1 H2)))).
Defined.

(** ** Scenario S4: a complement overlap of a read with itself *)

Lemma S4_read_len : DB_READ_LEN (db S4_ctx) 3 = 1000.
Proof. vm_compute. reflexivity. Qed.

(** The walk over the trace moves the start of the trim to ends of
    segments only. *)
Lemma flips_walk_S4_boundary tl tr st :
  (exists k, trim_b st = 100 * k) ->
  exists k, trim_b (flips_walk 100 1000 (S4_self tl tr) st) = 100 * k.
Proof.
  intros Hst. unfold flips_walk.
  enough (H : (fun s : Z * Z * Z * Z * FlipTrim =>
                 (exists k, s.1.1.1.2 = 100 * k) /\ (exists k, trim_b s.2 = 100 * k))
              (foldl (flips_walk_step 100 1000 (trace (path (S4_self tl tr))))
                     (abpos (path (S4_self tl tr)),
                      (Z.quot (abpos (path (S4_self tl tr))) 100 + 1) * 100,
                      bbpos (path (S4_self tl tr)),
                      bbpos (path (S4_self tl tr)) + rd (trace (path (S4_self tl tr))) 1, st)
                     (for_step2 2 (tlen (path (S4_self tl tr)) - 2))))
    by (exact (proj2 H)).
  apply foldl_invariant.
  - simpl. split; [exists 3; reflexivity | exact Hst].
  - intros [[[[sab sae] sbb] sbe] s] j [[k Hk] Hs]. simpl in *.
    split; [exists (k + 1); lia|].
    destruct (negb _); [|exact Hs].
    unfold flip_cross.
    destruct ((trim_b s <? sab) && (sae <? trim_e s)); [|exact Hs].
    destruct (sab - trim_b s <? trim_e s - sae); simpl; [exists k; exact Hk | exact Hs].
Qed.

(** C3, the scenario as the code runs it on an overlap group that holds
    the overlap of S4 alone: no crossing is flagged and the trim stays
    [0, 1000); its start is not 350. *)
Lemma S4_trim_is_not_350 :
  filter_flips S4_ctx S4_ovl 0 1000 = {| trimmed := 0; trim_b := 0; trim_e := 1000 |}
  /\ fix_trim S4_ctx S4_ovl = Some (0, 1000)
  /\ trim_b (filter_flips S4_ctx S4_ovl 0 1000) <> 350.
Proof. split; [|split]; [vm_compute; reflexivity .. | vm_compute; discriminate]. Qed.

(** C3, amended. In S4 the A-range [200, 500) of the overlap and its
    flipped B-range [200, 500) intersect, so the overlap is walked
    segment by segment.  A flagged segment cuts the trim at a segment
    boundary, not at the midpoint of the crossing: for the crossing
    segment [300, 400) and the trim [0, 1000) the cut is [trim_b = 400],
    since 300 - 0 < 1000 - 400.  Whatever the trace of the overlap, and
    whatever overlaps with later B-reads follow it, the start of the trim
    after [filter_flips] is a multiple of the segment width, and never
    350. *)
Theorem S4_trim_at_segment_boundary (tl : Z) (tr : list Z) (rest : list Overlap) :
  Forall (fun o => 3 < bread o) rest ->
  let o := S4_self tl tr in
  let st := filter_flips S4_ctx (o :: rest) 0 1000 in
  intersect (abpos (path o)) (aepos (path o))
            (1000 - bepos (path o)) (1000 - bbpos (path o)) <> 0
  /\ flip_cross {| trimmed := 0; trim_b := 0; trim_e := 1000 |} 300 400
     = {| trimmed := 1; trim_b := 400; trim_e := 1000 |}
  /\ (exists k, trim_b st = 100 * k)
  /\ trim_b st <> 350.
Proof.
  intros Hrest o st.
  split; [vm_compute; discriminate|].
  split; [vm_compute; reflexivity|].
  assert (Hk : exists k, trim_b st = 100 * k).
  { subst st o. unfold filter_flips.
    change (group_aread (S4_self tl tr :: rest)) with 3.
    rewrite S4_read_len.
    destruct rest as [|o' rest'].
    - simpl. exists 0. reflexivity.
    - apply Forall_cons in Hrest as [Ho' _].
      assert (Hscan : flips_scan 3 (S4_self tl tr :: o' :: rest') 0 (-1) (-1) 0 0
                      = (0, 1, 1, 0)).
      { simpl. destruct (3 <? bread o') eqn:E; [reflexivity|lia]. }
      rewrite Hscan. simpl.
      apply flips_walk_S4_boundary. exists 0. reflexivity. }
  split; [exact Hk|].
  destruct Hk as [k Hk]. lia.
Qed.

Lemma S4_trim_at_segment_boundary_witness :
  let rest := [mk_ovl 3 5 0 0 100 0 100 [0; 100]] in
  let st := filter_flips S4_ctx (S4_self 6 [0; 250; 0; 25; 0; 25] :: rest) 0 1000 in
  Forall (fun o => 3 < bread o) rest
  /\ trim_b st = 300
  /\ (exists k, trim_b st = 100 * k)
  /\ trim_b st <> 350.
Proof.
  assert (H : Forall (fun o => 3 < bread o) [mk_ovl 3 5 0 0 100 0 100 [0; 100]])
    by (repeat constructor).
  split; [exact H|].
  split; [vm_compute; reflexivity|].
  exact (proj2 (proj2 (S4_trim_at_segment_boundary 6 [0; 250; 0; 25; 0; 25] _ H))).
Defined.

(** ** Scenario S3: a gap between two overlaps with the same B-read *)

Lemma gap_between_support fctx o1 o2 g :
  gap_between fctx o1 o2 = Some g -> Gap.support g = 1.
Proof.
  unfold gap_between. intros H.
  repeat match type of H with
         | (if ?c then _ else _) = Some _ => destruct c; try discriminate
         | (let '(_, _) := ?p in _) = Some _ => destruct p
         end.
  injection H as <-. reflexivity.
Qed.

(** A break that no second pair of overlaps repeats keeps support 1 or
    is dropped, and does not pass the filter on support. *)
Lemma lone_gap_dropped fctx ovl a g :
  Gap.support g = 1 ->
  keep_supported fctx a
    (drop_spanned ovl (merge_overlapping (merge_same (maxgap fctx) [g]))) = [].
Proof.
  intros Hs.
  unfold merge_same, merge_same_step, merge_overlapping, merge_overlapping_step.
  simpl. rewrite Hs. simpl.
  destruct (gap_too_long (maxgap fctx) g); simpl; rewrite ?Hs; simpl;
    destruct (spanners ovl (Gap.ab g) (Gap.ae g) >? 10); simpl; rewrite ?Hs;
    reflexivity.
Qed.

Lemma two_overlaps_no_gap fctx o1 o2 : merged_gaps fctx [o1; o2] = [].
Proof.
  unfold merged_gaps. simpl.
  destruct (gap_between fctx o1 o2) as [g|] eqn:E.
  - apply lone_gap_dropped. eapply gap_between_support, E.
  - reflexivity.
Qed.

(** C2, the scenario as the code runs it: the one candidate does not
    survive the merger, and the read is written under the header
    [trimmed_], not [fixed_]. *)
Lemma S3_gap_is_dropped :
  merged_gaps S3_ctx S3_ovl = []
  /\ candidates S3_ctx S3_ovl 0 500 = Some []
  /\ exists f, fix_process S3_ctx S3_ovl = Written f
              /\ prefix f = "trimmed_"%string
              /\ prefix f <> "fixed_"%string.
Proof.
  split; [vm_compute; reflexivity|].
  split; [vm_compute; reflexivity|].
  eexists. split; [vm_compute; reflexivity|].
  split; [reflexivity | discriminate].
Qed.

(** C2, amended. In S3 the scan for breaks produces one candidate, with
    [ab = 100], [ae = 400], [bb = 100], [be = 400] and support 1.  The
    merger keeps breaks with a support of at least 5 only, so a group of
    two overlaps never leaves a break; here no weak segment finds a donor
    either, and the read is written unpatched, as the bases [0, 500) of A
    under the header [trimmed_]. *)
Theorem S3_gap_lacks_support :
  find_gaps S3_ctx S3_ovl
  = [ {| Gap.ab := 100; Gap.ae := 400; Gap.bb := 100; Gap.be := 400;
         Gap.diff := 12; Gap.b := 9; Gap.support := 1; Gap.span := 0;
         Gap.comp := 0 |} ]
  /\ (forall fctx o1 o2, merged_gaps fctx [o1; o2] = [])
  /\ fix_process S3_ctx S3_ovl
     = Written {| prefix := "trimmed_"; source := 2; tracks := [];
                  bases := slice (Load_Read S3_db 2) 0 500 |}.
Proof.
  split; [vm_compute; reflexivity|].
  split; [exact two_overlaps_no_gap|].
  vm_compute. reflexivity.
Qed.

(** ** Track intervals in the header *)

(** An interval listed in the header of a fixed read. *)
Lemma adjust_interval_keep ps rlen0 iv b e :
  adjust_interval ps rlen0 iv = Some (Keep b e) ->
  MIN_INT_LEN < e - b /\ 0 <= b /\ b <= e /\ e <= rlen0.
Proof.
  unfold adjust_interval. destruct iv as [ib ie]. intros H.
  destruct (head ps) as [first|]; [|discriminate].
  destruct (last ps) as [last_|]; [|discriminate]. simpl in H.
  destruct (_ || _); [discriminate|].
  destruct (adjust_loop ib ie None ps (-1) (-1)) as [ib_adj ie_adj].
  destruct (ie_adj - ib_adj >? MIN_INT_LEN) eqn:E; [|discriminate].
  destruct (_ || _ || _ || _) eqn:E2; [discriminate|].
  injection H as <- <-.
  apply orb_false_elim in E2 as [E2 E5].
  apply orb_false_elim in E2 as [E2 E4].
  apply orb_false_elim in E2 as [E2 E3]. lia.
Qed.

Lemma adjust_intervals_listed ps rlen0 ivs l :
  adjust_intervals ps rlen0 ivs = Done l ->
  Forall (fun iv : Z * Z => MIN_INT_LEN < iv.2 - iv.1 /\ 0 <= iv.1 /\ iv.1 <= iv.2 /\ iv.2 <= rlen0) l.
Proof.
  revert l. induction ivs as [|iv ivs IH]; intros l H; simpl in H.
  - injection H as <-. constructor.
  - destruct (adjust_interval ps rlen0 iv) as [[| |b e|b e]|] eqn:E; try discriminate;
      try (apply IH; exact H).
    destruct (adjust_intervals ps rlen0 ivs) as [l'| |]; try discriminate.
    injection H as <-. constructor; [|apply IH; reflexivity].
    simpl. eapply adjust_interval_keep, E.
Qed.

Lemma adjust_tracks_listed ps rlen0 a ts r :
  adjust_tracks ps rlen0 a ts = Done r ->
  Forall (fun t : string * list (Z * Z) =>
            Forall (fun iv : Z * Z => MIN_INT_LEN < iv.2 - iv.1
                                      /\ 0 <= iv.1 /\ iv.1 <= iv.2 /\ iv.2 <= rlen0) t.2) r.
Proof.
  revert r. induction ts as [|t ts IH]; intros r H; simpl in H.
  - injection H as <-. constructor.
  - destruct (adjust_intervals ps rlen0 (track_intervals t a)) as [l| |] eqn:E;
      try discriminate.
    destruct (adjust_tracks ps rlen0 a ts) as [r'| |]; try discriminate.
    injection H as <-. constructor; [|apply IH; reflexivity].
    simpl. eapply adjust_intervals_listed, E.
Qed.

(** The intervals in the header of a trimmed read lie in the read, if
    the intervals of the track are well-formed. *)
Lemma trim_intervals_bounds trim_ab trim_ae ivs :
  trim_ab <= trim_ae -> Forall (fun iv : Z * Z => iv.1 <= iv.2) ivs ->
  Forall (fun iv : Z * Z => 0 <= iv.1 /\ iv.1 <= iv.2 /\ iv.2 <= trim_ae - trim_ab)
         (trim_intervals trim_ab trim_ae ivs).
Proof.
  intros Ht H. induction H as [|[ib ie] ivs Hiv H IH]; simpl; [constructor|].
  simpl in Hiv.
  destruct (ie - trim_ab <? 0) eqn:E1; [exact IH|].
  destruct ((if ib - trim_ab <? 0 then 0 else ib - trim_ab) >? trim_ae - trim_ab) eqn:E2;
    [constructor|].
  constructor; [|exact IH]. simpl.
  destruct (ib - trim_ab <? 0) eqn:E3;
    destruct (ie - trim_ab >? trim_ae - trim_ab) eqn:E4; lia.
Qed.

(** C8. The header of a fixed read lists the adjusted intervals that are
    longer than [MIN_INT_LEN] and lie in the read, and no others.  The
    header of a trimmed read lists every interval that meets the trim,
    whatever its length: for S3 with the interval [10, 12) of track REP
    it lists [10, 12), two bases long. *)
Theorem trimmed_lists_short_interval :
  (forall fctx ovl trim_ab trim_ae data f,
     write_fixed fctx ovl trim_ab trim_ae data = Written f ->
     exists st,
       patch fctx (group_aread ovl) trim_ab trim_ae (count_span ovl (qsort data)) = Some st
       /\ Forall (fun t : string * list (Z * Z) =>
                    Forall (fun iv : Z * Z => MIN_INT_LEN < iv.2 - iv.1
                                              /\ 0 <= iv.1 /\ iv.1 <= iv.2
                                              /\ iv.2 <= rlen st) t.2)
                 (tracks f))
  /\ fix_process S3_rep_ctx S3_ovl
     = Written {| prefix := "trimmed_"; source := 2;
                  tracks := [("REP"%string, [(10, 12)])];
                  bases := slice (Load_Read S3_db 2) 0 500 |}.
Proof.
  split; [|vm_compute; reflexivity].
  intros fctx ovl trim_ab trim_ae data f H. unfold write_fixed in H.
  destruct (patch _ _ _ _ _) as [st|]; [|discriminate].
  exists st. split; [reflexivity|].
  destruct (rlen st >=? minlen fctx); [|discriminate].
  destruct (adjust_tracks _ _ _ _) as [ts| |] eqn:E; try discriminate.
  injection H as <-. simpl. eapply adjust_tracks_listed, E.
Qed.

(** ** The patched read *)

Lemma length_slice {A : Type} (buf : list A) (off n : Z) :
  0 <= off -> 0 <= n -> off + n <= Z.of_nat (length buf) ->
  Z.of_nat (length (slice buf off n)) = n.
Proof.
  intros Ho Hn Hb. unfold slice.
  rewrite length_take_le; [lia|]. rewrite length_drop. lia.
Qed.

Lemma lookup_slice {A : Type} (buf : list A) (off n : Z) (k : nat) (x : A) :
  0 <= off -> slice buf off n !! k = Some x ->
  buf !! Z.to_nat (off + Z.of_nat k) = Some x.
Proof.
  intros Ho H. unfold slice in H.
  apply lookup_take_Some in H as [H _].
  rewrite lookup_drop in H.
  replace (Z.to_nat (off + Z.of_nat k)) with (Z.to_nat off + k)%nat by lia.
  exact H.
Qed.

Lemma sum_retained_snoc ps p :
  sum_retained (ps ++ [p]) = sum_retained ps + (pa_ae p - pa_ab p).
Proof. unfold sum_retained. induction ps as [|q ps IH]; simpl; lia. Qed.

Lemma sum_donor_snoc gs g :
  sum_donor (gs ++ [g]) = sum_donor gs + (Gap.be g - Gap.bb g).
Proof. unfold sum_donor. induction gs as [|q gs IH]; simpl; lia. Qed.

Lemma from_A_more reada ps p i x : from_A reada ps i x -> from_A reada (ps ++ [p]) i x.
Proof.
  intros (q & Hq & H). exists q. split; [|exact H].
  apply elem_of_app. left. exact Hq.
Qed.

Lemma from_B_more fctx gs g i x : from_B fctx gs i x -> from_B fctx (gs ++ [g]) i x.
Proof.
  intros (q & off & Hq & H). exists q, off. split; [|exact H].
  apply elem_of_app. left. exact Hq.
Qed.

Lemma length_donor fctx g :
  gap_in_reads fctx g -> Z.of_nat (length (donor fctx g)) = Gap.be g - Gap.bb g.
Proof.
  intros (_ & Hb & Hl). unfold donor, revcomp.
  destruct (Gap.comp g =? 0);
    rewrite ?length_fmap, ?length_reverse;
    apply length_slice; unfold DB_READ_LEN in Hl; lia.
Qed.

(** The bases of a donor are those of its B-interval, in order or, for a
    complemented donor, complemented from the end backwards. *)
Lemma lookup_donor fctx g k x :
  gap_in_reads fctx g -> donor fctx g !! k = Some x ->
  if Gap.comp g =? 0
  then Load_Read (db fctx) (Gap.b g) !! Z.to_nat (Gap.bb g + Z.of_nat k) = Some x
  else exists y,
         Load_Read (db fctx) (Gap.b g) !! Z.to_nat (Gap.be g - 1 - Z.of_nat k) = Some y
         /\ x = complement y.
Proof.
  intros Hg H. pose proof Hg as (_ & Hb & Hl).
  assert (Hlen : Z.of_nat (length (slice (Load_Read (db fctx) (Gap.b g)) (Gap.bb g)
                                          (Gap.be g - Gap.bb g)))
                 = Gap.be g - Gap.bb g)
    by (apply length_slice; unfold DB_READ_LEN in Hl; lia).
  unfold donor, revcomp in H.
  destruct (Gap.comp g =? 0).
  - apply lookup_slice in H; [exact H | lia].
  - apply list_lookup_fmap_Some in H as (y & -> & Hy).
    pose proof (lookup_lt_Some _ _ _ Hy) as Hk. rewrite length_reverse in Hk.
    rewrite reverse_lookup in Hy by exact Hk.
    apply lookup_slice in Hy; [|lia].
    exists y. split; [|reflexivity].
    rewrite <- Hy. f_equal. lia.
Qed.

Lemma copy_a_inv fctx reada used st ab ae :
  patch_inv fctx reada used st ->
  0 <= ab -> ab < ae -> ae <= Z.of_nat (length reada) ->
  patch_inv fctx reada used (copy_a reada st ab ae).
Proof.
  intros (Hc & Hlen & Hsum & Horig) Hab Hlt Hae.
  assert (Hs : Z.of_nat (length (slice reada ab (ae - ab))) = ae - ab)
    by (apply length_slice; lia).
  unfold patch_inv, copy_a; simpl.
  split; [exact Hab|].
  split; [rewrite length_app; lia|].
  split; [rewrite sum_retained_snoc; simpl; lia|].
  intros i x Hi.
  apply lookup_app_Some in Hi as [Hi|[Hge Hi]].
  - destruct (Horig i x Hi) as [HA|HB]; [left; apply from_A_more, HA | right; exact HB].
  - left. exists {| pa_ab := ab; pa_ae := ae; pa_off := rlen st |}.
    split; [apply elem_of_app; right; apply list_elem_of_singleton; reflexivity|].
    pose proof (lookup_lt_Some _ _ _ Hi) as Hk.
    simpl. split; [lia|].
    apply lookup_slice in Hi; [|lia].
    rewrite <- Hi. f_equal. lia.
Qed.

Lemma copy_b_inv fctx reada used st g :
  patch_inv fctx reada used st -> gap_in_reads fctx g ->
  patch_inv fctx reada (used ++ [g]) (copy_b fctx st g).
Proof.
  intros (Hc & Hlen & Hsum & Horig) Hg.
  pose proof (length_donor fctx g Hg) as Hd.
  pose proof Hg as (Ha & Hb & Hl).
  unfold patch_inv, copy_b; simpl.
  split; [lia|].
  split; [rewrite length_app; lia|].
  split; [rewrite sum_donor_snoc; lia|].
  intros i x Hi.
  apply lookup_app_Some in Hi as [Hi|[Hge Hi]].
  - destruct (Horig i x Hi) as [HA|HB]; [left; exact HA | right; apply from_B_more, HB].
  - right. exists g, (rlen st).
    split; [apply elem_of_app; right; apply list_elem_of_singleton; reflexivity|].
    pose proof (lookup_lt_Some _ _ _ Hi) as Hk.
    split; [lia|].
    pose proof (lookup_donor fctx g _ x Hg Hi) as Hx.
    replace (Z.of_nat i - rlen st) with (Z.of_nat (i - length (read st))) by lia.
    exact Hx.
Qed.

Lemma move_cursor_inv fctx reada used st ab :
  patch_inv fctx reada used st -> 0 <= ab ->
  patch_inv fctx reada used (move_cursor st ab).
Proof. intros (Hc & H) Hab. split; [exact Hab | exact H]. Qed.

Lemma patch_loop_inv fctx reada trim_ab trim_ae data :
  0 <= trim_ab -> trim_ae <= Z.of_nat (length reada) ->
  Forall (gap_in_reads fctx) data ->
  forall used st st',
    patch_inv fctx reada used st ->
    patch_loop fctx reada trim_ab trim_ae data st = Some st' ->
    patch_inv fctx reada (used ++ spliced trim_ab trim_ae data) st'.
Proof.
  intros Htb Hte Hdata.
  induction Hdata as [|g rest Hg Hrest IH]; intros used st st' Hinv H; simpl in *.
  - injection H as <-. rewrite app_nil_r. exact Hinv.
  - pose proof Hg as (Ha & Hb & Hl).
    destruct (trim_ab >? Gap.ab g) eqn:E1.
    + eapply IH; [|exact H]. apply move_cursor_inv; [exact Hinv | lia].
    + destruct (trim_ae <? Gap.ae g) eqn:E2.
      * injection H as <-. rewrite app_nil_r. exact Hinv.
      * set (ab := if (trim_ab <? Gap.ab g) && (trim_ab >? cur_ab st)
                   then trim_ab else cur_ab st) in *.
        destruct (ab >? Gap.ab g) eqn:E3; [discriminate|].
        assert (Hab : 0 <= ab).
        { subst ab. destruct Hinv as (Hc & _).
          destruct ((trim_ab <? Gap.ab g) && (trim_ab >? cur_ab st)); lia. }
        replace (used ++ g :: spliced trim_ab trim_ae rest)
          with ((used ++ [g]) ++ spliced trim_ab trim_ae rest)
          by (rewrite <- app_assoc; reflexivity).
        eapply IH; [|exact H].
        apply copy_b_inv; [|exact Hg].
        destruct (ab <? Gap.ab g) eqn:E4; [|exact Hinv].
        apply copy_a_inv; [exact Hinv|lia..].
Qed.

(** The patch loop and the copy of the rest of A keep the invariant. *)
Lemma patch_inv_holds fctx a trim_ab trim_ae data st :
  patch_input_ok fctx a trim_ab trim_ae data ->
  patch fctx a trim_ab trim_ae data = Some st ->
  patch_inv fctx (Load_Read (db fctx) a) (spliced trim_ab trim_ae data) st.
Proof.
  intros (Htb & Hte & Hdata) H. unfold patch in H.
  destruct (patch_loop _ _ _ _ _ _) as [st0|] eqn:E; [|discriminate].
  simpl in H. injection H as <-.
  assert (H0 : patch_inv fctx (Load_Read (db fctx) a) [] (patch_start trim_ab)).
  { unfold patch_inv, patch_start; simpl.
    split; [exact Htb|]. split; [reflexivity|]. split; [reflexivity|].
    intros i x Hi. rewrite lookup_nil in Hi. discriminate. }
  pose proof (patch_loop_inv fctx _ trim_ab trim_ae data Htb Hte Hdata [] _ _ H0 E) as Hinv.
  simpl in Hinv.
  destruct (cur_ab st0 <? trim_ae) eqn:E1; [|exact Hinv].
  apply copy_a_inv; [exact Hinv | | lia | exact Hte].
  destruct Hinv as (Hc & _). exact Hc.
Qed.

(** The bases written are all of [read]. *)
Lemma written_is_read fctx reada used st :
  patch_inv fctx reada used st -> take (Z.to_nat (rlen st)) (read st) = read st.
Proof. intros (_ & Hlen & _). apply take_ge. lia. Qed.

Lemma write_fixed_written fctx ovl trim_ab trim_ae data f :
  write_fixed fctx ovl trim_ab trim_ae data = Written f ->
  exists st,
    patch fctx (group_aread ovl) trim_ab trim_ae (count_span ovl (qsort data)) = Some st
    /\ prefix f = "fixed_"%string
    /\ bases f = take (Z.to_nat (rlen st)) (read st).
Proof.
  unfold write_fixed. intros H.
  destruct (patch _ _ _ _ _) as [st|]; [|discriminate].
  exists st. split; [reflexivity|].
  destruct (rlen st >=? minlen fctx); [|discriminate].
  destruct (adjust_tracks _ _ _ _); try discriminate.
  injection H as <-. split; reflexivity.
Qed.

(** C4. Length consistency: the length of a read written under
    [fixed_] is the sum of [ae - ab] over the triples of [apatches] plus
    the sum of [be - bb] over the candidates spliced in between. *)
Theorem fixed_length_consistent (fctx : FixContext) (ovl : list Overlap)
    (trim_ab trim_ae : Z) (data : list Gap) (f : Fasta) :
  patch_input_ok fctx (group_aread ovl) trim_ab trim_ae (count_span ovl (qsort data)) ->
  write_fixed fctx ovl trim_ab trim_ae data = Written f ->
  exists st,
    patch fctx (group_aread ovl) trim_ab trim_ae (count_span ovl (qsort data)) = Some st
    /\ Z.of_nat (length (bases f)) = rlen st
    /\ Z.of_nat (length (bases f))
       = sum_retained (apatches st)
         + sum_donor (spliced trim_ab trim_ae (count_span ovl (qsort data))).
Proof.
  intros Hok H.
  destruct (write_fixed_written _ _ _ _ _ _ H) as (st & Hp & _ & Hb).
  exists st. split; [exact Hp|].
  pose proof (patch_inv_holds _ _ _ _ _ _ Hok Hp) as Hinv.
  rewrite Hb, (written_is_read _ _ _ _ Hinv).
  destruct Hinv as (_ & Hlen & Hsum & _). lia.
Qed.

Lemma fixed_length_consistent_witness :
  patch_input_ok S2_ctx (group_aread S2_ovl) 0 400 (count_span S2_ovl (qsort S2_cands))
  /\ write_fixed S2_ctx S2_ovl 0 400 S2_cands = Written S2_fasta
  /\ exists st,
       patch S2_ctx (group_aread S2_ovl) 0 400 (count_span S2_ovl (qsort S2_cands)) = Some st
       /\ Z.of_nat (length (bases S2_fasta)) = rlen st
       /\ Z.of_nat (length (bases S2_fasta))
          = sum_retained (apatches st)
            + sum_donor (spliced 0 400 (count_span S2_ovl (qsort S2_cands))).
Proof.
  assert (Hok : patch_input_ok S2_ctx (group_aread S2_ovl) 0 400
                               (count_span S2_ovl (qsort S2_cands))).
  { unfold patch_input_ok, gap_in_reads.
    split; [lia|]. split; [vm_compute; discriminate|].
    vm_compute. repeat constructor; discriminate. }
  assert (Hw : write_fixed S2_ctx S2_ovl 0 400 S2_cands = Written S2_fasta)
    by (vm_compute; reflexivity).
  split; [exact Hok|]. split; [exact Hw|].
  exact (fixed_length_consistent S2_ctx S2_ovl 0 400 S2_cands S2_fasta Hok Hw).
Defined.

(** *** The pieces of the patched read *)

Lemma total_len_app l l' : total_len (l ++ l') = total_len l + total_len l'.
Proof. unfold total_len. induction l as [|x l IH]; simpl; lia. Qed.

Lemma bytes_of_app fctx reada l l' :
  bytes_of fctx reada (l ++ l') = bytes_of fctx reada l ++ bytes_of fctx reada l'.
Proof.
  unfold bytes_of. induction l as [|x l IH]; simpl; [reflexivity|].
  rewrite IH, app_assoc. reflexivity.
Qed.

Lemma offsets_from_app l l' : forall off,
  offsets_from off (l ++ l') <-> offsets_from off l /\ offsets_from (off + total_len l) l'.
Proof.
  induction l as [|x l IH]; intros off; cbn [app offsets_from].
  - change (total_len []) with 0. rewrite Z.add_0_r. tauto.
  - rewrite IH.
    change (total_len (x :: l)) with (piece_len x + total_len l).
    rewrite Z.add_assoc. tauto.
Qed.

Lemma length_piece_bytes fctx reada x :
  piece_fits fctx reada x ->
  Z.of_nat (length (piece_bytes fctx reada x)) = piece_len x.
Proof.
  destruct x as [p|g]; simpl.
  - intros (H1 & H2 & H3). apply length_slice; lia.
  - apply length_donor.
Qed.

Lemma piece_fits_len fctx reada x : piece_fits fctx reada x -> 0 <= piece_len x.
Proof.
  destruct x as [p|g]; simpl; [lia|]. unfold gap_in_reads. lia.
Qed.

Lemma length_bytes_of fctx reada l :
  Forall (piece_fits fctx reada) l ->
  Z.of_nat (length (bytes_of fctx reada l)) = total_len l.
Proof.
  intros H. induction H as [|x l Hx Hl IH]; [reflexivity|].
  change (bytes_of fctx reada (x :: l))
    with (piece_bytes fctx reada x ++ bytes_of fctx reada l).
  change (total_len (x :: l)) with (piece_len x + total_len l).
  rewrite length_app, Nat2Z.inj_add, IH, (length_piece_bytes _ _ _ Hx). reflexivity.
Qed.

(** Base [k] of the bases copied for a piece is the base the piece
    stands for. *)
Lemma piece_bytes_base fctx reada x k :
  piece_fits fctx reada x -> 0 <= k < piece_len x ->
  exists c, piece_bytes fctx reada x !! Z.to_nat k = Some c
            /\ piece_base fctx reada x k c.
Proof.
  intros Hx Hk.
  pose proof (length_piece_bytes _ _ _ Hx) as Hlen.
  destruct (lookup_lt_is_Some_2 (piece_bytes fctx reada x) (Z.to_nat k)) as [c Hc]; [lia|].
  exists c. split; [exact Hc|].
  destruct x as [p|g]; simpl in *.
  - destruct Hx as (H1 & _). apply lookup_slice in Hc; [|exact H1].
    rewrite Z2Nat.id in Hc by lia. exact Hc.
  - pose proof (lookup_donor fctx g _ c Hx Hc) as H.
    rewrite Z2Nat.id in H by lia. exact H.
Qed.

(** The pieces one after the other: a piece begins where those before
    it end. *)
Lemma bytes_of_piece fctx reada pre x post k :
  Forall (piece_fits fctx reada) (pre ++ x :: post) ->
  0 <= k < piece_len x ->
  bytes_of fctx reada (pre ++ x :: post) !! Z.to_nat (total_len pre + k)
  = piece_bytes fctx reada x !! Z.to_nat k.
Proof.
  intros H Hk.
  apply Forall_app in H as [Hpre H]. apply Forall_cons in H as [Hx _].
  pose proof (length_bytes_of _ _ _ Hpre) as Hl.
  pose proof (length_piece_bytes _ _ _ Hx) as Hlx.
  rewrite bytes_of_app.
  change (bytes_of fctx reada (x :: post))
    with (piece_bytes fctx reada x ++ bytes_of fctx reada post).
  rewrite lookup_app_r by lia.
  replace (Z.to_nat (total_len pre + k) - length (bytes_of fctx reada pre))%nat
    with (Z.to_nat k) by lia.
  apply lookup_app_l. lia.
Qed.

Lemma copy_a_pieces fctx reada used pieces st ab ae :
  pieces_inv fctx reada used pieces st ->
  0 <= ab -> ab < ae -> ae <= Z.of_nat (length reada) ->
  pieces_inv fctx reada used
    (pieces ++ [PieceA {| pa_ab := ab; pa_ae := ae; pa_off := rlen st |}])
    (copy_a reada st ab ae).
Proof.
  intros (Hc & Hlen & Hread & Hps & Hused & Hfits & Hoff) Hab Hlt Hae.
  unfold pieces_inv, copy_a; simpl.
  split; [exact Hab|].
  split; [rewrite total_len_app; unfold total_len at 2; simpl; lia|].
  split; [rewrite bytes_of_app, Hread; unfold bytes_of at 3; simpl;
          rewrite app_nil_r; reflexivity|].
  split; [unfold pieces_A in *; rewrite omap_app, Hps; reflexivity|].
  split; [unfold pieces_B in *; rewrite omap_app, Hused; simpl;
          rewrite app_nil_r; reflexivity|].
  split.
  - apply Forall_app. split; [exact Hfits|]. constructor; [simpl; lia | constructor].
  - apply offsets_from_app. split; [exact Hoff|]. simpl. split; [lia | exact I].
Qed.

Lemma copy_b_pieces fctx reada used pieces st g :
  pieces_inv fctx reada used pieces st -> gap_in_reads fctx g ->
  pieces_inv fctx reada (used ++ [g]) (pieces ++ [PieceB g]) (copy_b fctx st g).
Proof.
  intros (Hc & Hlen & Hread & Hps & Hused & Hfits & Hoff) Hg.
  pose proof Hg as (Ha & Hb & Hl).
  unfold pieces_inv, copy_b; simpl.
  split; [lia|].
  split; [rewrite total_len_app; unfold total_len at 2; simpl; lia|].
  split; [rewrite bytes_of_app, Hread; unfold bytes_of at 3; simpl;
          rewrite app_nil_r; reflexivity|].
  split; [unfold pieces_A in *; rewrite omap_app, Hps; simpl;
          rewrite app_nil_r; reflexivity|].
  split; [unfold pieces_B in *; rewrite omap_app, Hused; reflexivity|].
  split.
  - apply Forall_app. split; [exact Hfits|]. constructor; [exact Hg | constructor].
  - apply offsets_from_app. split; [exact Hoff|]. simpl. split; exact I.
Qed.

Lemma patch_loop_pieces fctx reada trim_ab trim_ae data :
  0 <= trim_ab -> trim_ae <= Z.of_nat (length reada) ->
  Forall (gap_in_reads fctx) data ->
  forall used pieces st st',
    pieces_inv fctx reada used pieces st ->
    patch_loop fctx reada trim_ab trim_ae data st = Some st' ->
    exists pieces',
      pieces_inv fctx reada (used ++ spliced trim_ab trim_ae data) pieces' st'.
Proof.
  intros Htb Hte Hdata.
  induction Hdata as [|g rest Hg Hrest IH]; intros used pieces st st' Hinv H; simpl in *.
  - injection H as <-. rewrite app_nil_r. exists pieces. exact Hinv.
  - pose proof Hg as (Ha & Hb & Hl).
    destruct (trim_ab >? Gap.ab g) eqn:E1.
    + eapply IH; [|exact H].
      destruct Hinv as (Hc & Hinv). split; [simpl; lia | exact Hinv].
    + destruct (trim_ae <? Gap.ae g) eqn:E2.
      * injection H as <-. rewrite app_nil_r. exists pieces. exact Hinv.
      * set (ab := if (trim_ab <? Gap.ab g) && (trim_ab >? cur_ab st)
                   then trim_ab else cur_ab st) in *.
        destruct (ab >? Gap.ab g) eqn:E3; [discriminate|].
        assert (Hab : 0 <= ab).
        { subst ab. destruct Hinv as (Hc & _).
          destruct ((trim_ab <? Gap.ab g) && (trim_ab >? cur_ab st)); lia. }
        replace (used ++ g :: spliced trim_ab trim_ae rest)
          with ((used ++ [g]) ++ spliced trim_ab trim_ae rest)
          by (rewrite <- app_assoc; reflexivity).
        destruct (ab <? Gap.ab g) eqn:E4.
        -- eapply IH; [|exact H].
           apply copy_b_pieces; [|exact Hg].
           apply copy_a_pieces; [exact Hinv|lia..].
        -- eapply IH; [|exact H].
           apply copy_b_pieces; [exact Hinv | exact Hg].
Qed.

(** The patch loop and the copy of the rest of A keep the invariant. *)
Lemma patch_pieces fctx a trim_ab trim_ae data st :
  patch_input_ok fctx a trim_ab trim_ae data ->
  patch fctx a trim_ab trim_ae data = Some st ->
  exists pieces,
    pieces_inv fctx (Load_Read (db fctx) a) (spliced trim_ab trim_ae data) pieces st.
Proof.
  intros (Htb & Hte & Hdata) H. unfold patch in H.
  destruct (patch_loop _ _ _ _ _ _) as [st0|] eqn:E; [|discriminate].
  simpl in H. injection H as <-.
  assert (H0 : pieces_inv fctx (Load_Read (db fctx) a) [] [] (patch_start trim_ab)).
  { unfold pieces_inv, patch_start; simpl.
    split; [exact Htb|]. repeat split; constructor. }
  destruct (patch_loop_pieces fctx _ trim_ab trim_ae data Htb Hte Hdata [] [] _ _ H0 E)
    as [pieces Hinv].
  simpl in Hinv.
  destruct (cur_ab st0 <? trim_ae) eqn:E1; [|exists pieces; exact Hinv].
  eexists. apply copy_a_pieces; [exact Hinv | | lia | exact Hte].
  destruct Hinv as (Hc & _). exact Hc.
Qed.

(** What the invariant says of the bases of the patched read. *)
Lemma pieces_inv_spliced fctx reada used pieces st :
  pieces_inv fctx reada used pieces st ->
  spliced_from fctx reada (apatches st) used (read st) pieces.
Proof.
  intros (Hc & Hlen & Hread & Hps & Hused & Hfits & Hoff).
  unfold spliced_from.
  split; [symmetry; exact Hps|]. split; [symmetry; exact Hused|].
  split; [eapply Forall_impl; [exact Hfits | apply piece_fits_len]|].
  split; [rewrite Hread; apply length_bytes_of, Hfits|].
  intros pre x post -> . split.
  - apply offsets_from_app in Hoff as [_ Hoff]. simpl in Hoff.
    destruct Hoff as [Hx _]. destruct x; [exact Hx | exact I].
  - intros k Hk. rewrite Hread, (bytes_of_piece _ _ _ _ _ _ Hfits Hk).
    apply piece_bytes_base; [|exact Hk].
    apply Forall_app in Hfits as [_ Hfits]. apply Forall_cons in Hfits as [Hx _].
    exact Hx.
Qed.

(** Every place of a run of pieces lies in one of them. *)
Lemma piece_at pieces : forall i,
  Forall (fun x => 0 <= piece_len x) pieces ->
  0 <= i < total_len pieces ->
  exists pre x post,
    pieces = pre ++ x :: post /\ total_len pre <= i < total_len pre + piece_len x.
Proof.
  induction pieces as [|x l IH]; intros i H Hi.
  - change (total_len []) with 0 in Hi. lia.
  - apply Forall_cons in H as [Hx H].
    change (total_len (x :: l)) with (piece_len x + total_len l) in Hi.
    destruct (Z.lt_ge_cases i (piece_len x)) as [Hlt|Hge].
    + exists [], x, l. split; [reflexivity|]. change (total_len []) with 0. lia.
    + destruct (IH (i - piece_len x) H) as (pre & y & post & -> & Hy); [lia|].
      exists (x :: pre), y, post. split; [reflexivity|].
      change (total_len (x :: pre)) with (piece_len x + total_len pre). lia.
Qed.

(** Every base of [out] is the base of a piece, at its place in the
    piece. *)
Lemma spliced_from_origin fctx reada ps gs out pieces i c :
  spliced_from fctx reada ps gs out pieces ->
  out !! i = Some c ->
  exists pre x post,
    pieces = pre ++ x :: post
    /\ total_len pre <= Z.of_nat i < total_len pre + piece_len x
    /\ piece_base fctx reada x (Z.of_nat i - total_len pre) c.
Proof.
  intros (_ & _ & Hlen & Hout & Hbase) Hi.
  pose proof (lookup_lt_Some _ _ _ Hi) as Hlt.
  destruct (piece_at pieces (Z.of_nat i) Hlen) as (pre & x & post & Heq & Hx); [lia|].
  exists pre, x, post. split; [exact Heq|]. split; [exact Hx|].
  destruct (Hbase pre x post Heq) as [_ Hk].
  destruct (Hk (Z.of_nat i - total_len pre)) as (c' & Hc' & Hb); [lia|].
  replace (Z.to_nat (total_len pre + (Z.of_nat i - total_len pre))) with i in Hc' by lia.
  rewrite Hi in Hc'. injection Hc' as <-. exact Hb.
Qed.

(** C1. Base conservation: a read written under [fixed_] is made of
    pieces that follow one another without a gap, the triples of
    [apatches] and the candidates spliced in, each in their order.  A
    triple [(ab, ae, off)] begins at [off], and the base [k] places
    after is the base of A at [ab + k]; a candidate begins where the
    pieces before it end, and the base [k] places after is the base of
    its B-read at [bb + k], or, if the candidate is complemented, the
    complement of the base at [be - 1 - k].  So every base written has
    one of these origins, at a place and in an orientation that the
    pieces fix.  Every base of a read written under [trimmed_] is the
    base of A that the one triple [(trim_ab, trim_ae, 0)] gives. *)
Theorem bases_conserved (fctx : FixContext) (ovl : list Overlap)
    (trim_ab trim_ae : Z) (data : list Gap) :
  patch_input_ok fctx (group_aread ovl) trim_ab trim_ae (count_span ovl (qsort data)) ->
  (forall f, write_fixed fctx ovl trim_ab trim_ae data = Written f ->
     exists st pieces,
       patch fctx (group_aread ovl) trim_ab trim_ae (count_span ovl (qsort data)) = Some st
       /\ spliced_from fctx (Load_Read (db fctx) (group_aread ovl))
            (apatches st) (spliced trim_ab trim_ae (count_span ovl (qsort data)))
            (bases f) pieces
       /\ forall i c, bases f !! i = Some c ->
            exists pre x post,
              pieces = pre ++ x :: post
              /\ total_len pre <= Z.of_nat i < total_len pre + piece_len x
              /\ piece_base fctx (Load_Read (db fctx) (group_aread ovl)) x
                    (Z.of_nat i - total_len pre) c)
  /\ (forall f, write_trimmed fctx (group_aread ovl) trim_ab trim_ae = Written f ->
     forall i x, bases f !! i = Some x ->
       from_A (Load_Read (db fctx) (group_aread ovl))
              [ {| pa_ab := trim_ab; pa_ae := trim_ae; pa_off := 0 |} ] i x).
Proof.
  intros Hok. split.
  - intros f H.
    destruct (write_fixed_written _ _ _ _ _ _ H) as (st & Hp & _ & Hb).
    destruct (patch_pieces _ _ _ _ _ _ Hok Hp) as [pieces Hinv].
    exists st, pieces. split; [exact Hp|].
    pose proof (pieces_inv_spliced _ _ _ _ _ Hinv) as Hs.
    assert (Hall : take (Z.to_nat (rlen st)) (read st) = read st).
    { apply take_ge. destruct Hs as (_ & _ & _ & Hl & _).
      destruct Hinv as (_ & Hr & _). lia. }
    rewrite Hb, Hall. split; [exact Hs|].
    intros i c Hi. exact (spliced_from_origin _ _ _ _ _ _ _ _ Hs Hi).
  - intros f H i x Hi. unfold write_trimmed in H.
    destruct (trim_ae - trim_ab >=? minlen fctx); [|discriminate].
    injection H as <-. simpl in Hi.
    destruct Hok as (Htb & _).
    exists {| pa_ab := trim_ab; pa_ae := trim_ae; pa_off := 0 |}.
    split; [apply list_elem_of_singleton; reflexivity|]. simpl.
    pose proof Hi as Hi'. unfold slice in Hi'.
    apply lookup_take_Some in Hi' as [_ Hlt].
    split; [lia|].
    apply lookup_slice in Hi; [|exact Htb].
    rewrite <- Hi. f_equal. lia.
Qed.

Lemma bases_conserved_witness :
  patch_input_ok S2_ctx (group_aread S2_ovl) 0 400 (count_span S2_ovl (qsort S2_cands))
  /\ write_fixed S2_ctx S2_ovl 0 400 S2_cands = Written S2_fasta
  /\ exists st pieces,
       patch S2_ctx (group_aread S2_ovl) 0 400 (count_span S2_ovl (qsort S2_cands)) = Some st
       /\ spliced_from S2_ctx (Load_Read (db S2_ctx) (group_aread S2_ovl))
            (apatches st) (spliced 0 400 (count_span S2_ovl (qsort S2_cands)))
            (bases S2_fasta) pieces
       /\ forall i c, bases S2_fasta !! i = Some c ->
            exists pre x post,
              pieces = pre ++ x :: post
              /\ total_len pre <= Z.of_nat i < total_len pre + piece_len x
              /\ piece_base S2_ctx (Load_Read (db S2_ctx) (group_aread S2_ovl)) x
                    (Z.of_nat i - total_len pre) c.
Proof.
  assert (Hok : patch_input_ok S2_ctx (group_aread S2_ovl) 0 400
                               (count_span S2_ovl (qsort S2_cands))).
  { unfold patch_input_ok, gap_in_reads.
    split; [lia|]. split; [vm_compute; discriminate|].
    vm_compute. repeat constructor; discriminate. }
  assert (Hw : write_fixed S2_ctx S2_ovl 0 400 S2_cands = Written S2_fasta)
    by (vm_compute; reflexivity).
  split; [exact Hok|]. split; [exact Hw|].
  exact (proj1 (bases_conserved S2_ctx S2_ovl 0 400 S2_cands Hok) S2_fasta Hw).
Defined.

(** ** The order of the triples *)

Lemma splice_ordered_snoc ps p c :
  splice_ordered ps -> Forall (fun q => pa_ae q <= c) ps ->
  c <= pa_ab p -> pa_ab p < pa_ae p ->
  splice_ordered (ps ++ [p]).
Proof.
  intros [Hne Hs] Hc Hp Hlt. split.
  - apply Forall_app. split; [exact Hne|]. constructor; [exact Hlt | constructor].
  - apply StronglySorted_app. split; [|split].
    + intros q p' Hq Hp'. apply list_elem_of_singleton in Hp' as ->.
      rewrite Forall_forall in Hc. specialize (Hc q Hq). simpl in Hc. lia.
    + exact Hs.
    + repeat constructor.
Qed.

Lemma copy_a_ordered st reada ab ae c :
  splice_ordered (apatches st) -> Forall (fun q => pa_ae q <= cur_ab st) (apatches st) ->
  cur_ab st <= ab -> ab < ae -> ae <= c ->
  splice_ordered (apatches (copy_a reada st ab ae))
  /\ Forall (fun q => pa_ae q <= c) (apatches (copy_a reada st ab ae)).
Proof.
  intros Hs Hc Hab Hlt Hae. simpl. split.
  - eapply splice_ordered_snoc; [exact Hs | exact Hc | exact Hab | exact Hlt].
  - apply Forall_app. split.
    + eapply Forall_impl; [exact Hc|]. simpl. intros q Hq. lia.
    + constructor; [simpl; lia | constructor].
Qed.

Lemma patch_loop_ordered fctx reada trim_ab trim_ae data :
  sorted_by_ab data -> Forall gap_ab_le_ae data ->
  forall st st',
    order_inv trim_ab data st ->
    patch_loop fctx reada trim_ab trim_ae data st = Some st' ->
    splice_ordered (apatches st')
    /\ Forall (fun p => pa_ae p <= cur_ab st') (apatches st').
Proof.
  intros Hsorted Hwf. revert Hsorted.
  induction Hwf as [|g rest Hg Hrest IH]; intros Hsorted st st' Hinv H; simpl in *.
  - injection H as <-. destruct Hinv as (H1 & H2 & _). split; assumption.
  - apply StronglySorted_cons in Hsorted as [Hle Hsorted].
    destruct Hinv as (Hs & Hc & Hno).
    destruct (trim_ab >? Gap.ab g) eqn:E1.
    + assert (Hnil : apatches st = []).
      { destruct (apatches st) as [|p ps] eqn:Ep; [reflexivity|].
        assert (Hne : p :: ps <> []) by discriminate.
        specialize (Hno Hne). apply Forall_cons in Hno as [Hno _]. lia. }
      eapply IH; [exact Hsorted | | exact H].
      unfold order_inv. simpl. rewrite Hnil.
      split; [split; constructor|]. split; [constructor|].
      intros Hne. exfalso. apply Hne. reflexivity.
    + assert (Hrest' : Forall (fun g' => trim_ab <= Gap.ab g') rest).
      { eapply Forall_impl; [exact Hle|]. simpl. intros g' Hg'. lia. }
      destruct (trim_ae <? Gap.ae g) eqn:E2.
      * injection H as <-. split; assumption.
      * set (ab := if (trim_ab <? Gap.ab g) && (trim_ab >? cur_ab st)
                   then trim_ab else cur_ab st) in *.
        destruct (ab >? Gap.ab g) eqn:E3; [discriminate|].
        assert (Hab : cur_ab st <= ab).
        { subst ab. destruct ((trim_ab <? Gap.ab g) && (trim_ab >? cur_ab st)) eqn:E; lia. }
        unfold gap_ab_le_ae in Hg.
        eapply IH; [exact Hsorted | | exact H].
        unfold order_inv.
        destruct (ab <? Gap.ab g) eqn:E4.
        -- destruct (copy_a_ordered st reada ab (Gap.ab g) (Gap.ae g) Hs Hc Hab) as [H1 H2];
             [lia | lia |].
           split; [exact H1|]. split; [exact H2|]. intros _. exact Hrest'.
        -- simpl. split; [exact Hs|]. split; [|intros _; exact Hrest'].
           eapply Forall_impl; [exact Hc|]. simpl. intros q Hq. lia.
Qed.

(** The triples a run of the patch loop records are ordered. *)
Lemma patch_ordered fctx a trim_ab trim_ae data st :
  sorted_by_ab data -> Forall gap_ab_le_ae data ->
  patch fctx a trim_ab trim_ae data = Some st ->
  splice_ordered (apatches st).
Proof.
  intros Hsorted Hwf H. unfold patch in H.
  destruct (patch_loop _ _ _ _ _ _) as [st0|] eqn:E; [|discriminate].
  simpl in H. injection H as <-.
  assert (H0 : order_inv trim_ab data (patch_start trim_ab)).
  { unfold order_inv, patch_start; simpl.
    split; [split; constructor|]. split; [constructor|].
    intros Hne. exfalso. apply Hne. reflexivity. }
  destruct (patch_loop_ordered _ _ _ _ _ Hsorted Hwf _ _ H0 E) as [Hs Hc].
  destruct (cur_ab st0 <? trim_ae) eqn:E1; [|exact Hs].
  destruct (copy_a_ordered st0 (Load_Read (db fctx) a) (cur_ab st0) trim_ae trim_ae Hs Hc)
    as [H1 _]; [lia .. | exact H1].
Qed.

(** ** Intervals inside a triple *)



(** ** The merger *)

Lemma foldl_seq_invariant {A : Type} (I : nat -> A -> Prop) (f : A -> nat -> A) :
  (forall i a, I i a -> I (S i) (f a i)) ->
  forall n i0 a, I i0 a -> I (i0 + n)%nat (foldl f a (seq i0 n)).
Proof.
  intros Hf n. induction n as [|n IH]; intros i0 a Ha; simpl.
  - rewrite Nat.add_0_r. exact Ha.
  - replace (i0 + S n)%nat with (S i0 + n)%nat by lia. apply IH, Hf, Ha.
Qed.

Section Updates.

(** The merger changes the support of a candidate only: it drops the
    candidate, or the candidate is the one at index [i] of the outer
    loop, or it is one that has not been dropped.  [phi] is a property of
    the candidates that such changes keep. *)
Variable i : nat.
Variable phi : nat -> Gap -> Prop.
Hypothesis phi_update :
  forall k g s, phi k g -> s = -1 \/ k = i \/ Gap.support g <> -1 ->
                phi k (Gap.with_support g s).

Lemma all_at_insert data k g s :
  all_at phi data -> data !! k = Some g ->
  s = -1 \/ k = i \/ Gap.support g <> -1 ->
  all_at phi (<[k := Gap.with_support g s]> data).
Proof.
  intros Hall Hk Hs k' g' H.
  apply list_lookup_insert_Some in H as [(<- & <- & _)|(Hne & H)].
  - apply phi_update; [apply Hall, Hk | exact Hs].
  - apply Hall, H.
Qed.

Lemma merge_same_inner_all_at n : forall j data,
  (i < j)%nat -> all_at phi data -> all_at phi (merge_same_inner n i j data).
Proof.
  induction n as [|n IH]; intros j data Hij Hall; simpl; [exact Hall|].
  destruct (data !! i) as [gi|] eqn:Ei; [|exact Hall].
  destruct (data !! j) as [gj|] eqn:Ej; [|exact Hall].
  destruct ((Gap.ab gi =? Gap.ab gj) && (Gap.ae gi =? Gap.ae gj)); [|exact Hall].
  apply IH; [lia|].
  destruct (Gap.support gj =? -1); [exact Hall|].
  destruct (Z.abs _ <? 40); [|exact Hall].
  apply all_at_insert; [| |left; reflexivity].
  - apply all_at_insert; [exact Hall | exact Ei | right; left; reflexivity].
  - rewrite list_lookup_insert_ne by lia. exact Ej.
Qed.

Lemma merge_overlapping_inner_all_at n : forall j data,
  (i < j)%nat -> all_at phi data -> all_at phi (merge_overlapping_inner n i j data).
Proof.
  induction n as [|n IH]; intros j data Hij Hall; simpl; [exact Hall|].
  destruct (data !! i) as [gi|] eqn:Ei; [|exact Hall].
  destruct (data !! j) as [gj|] eqn:Ej; [|exact Hall].
  destruct ((Gap.ae gi >? Gap.ab gj) && (Gap.ab gi <? Gap.ae gj)); [|exact Hall].
  destruct (Gap.support gj =? -1) eqn:Esj; [apply IH; [lia | exact Hall]|].
  destruct (Gap.support gi >? Gap.support gj).
  - apply IH; [lia|].
    apply all_at_insert; [| |left; reflexivity].
    + apply all_at_insert; [exact Hall | exact Ei | right; left; reflexivity].
    + rewrite list_lookup_insert_ne by lia. exact Ej.
  - apply all_at_insert; [| |left; reflexivity].
    + apply all_at_insert; [exact Hall | exact Ej | right; right; lia].
    + rewrite list_lookup_insert_ne by lia. exact Ei.
Qed.

End Updates.

Section Place.

(** A property of a candidate that does not look at its support. *)
Variable P : Gap -> Prop.
Hypothesis P_support : forall g s, P g -> P (Gap.with_support g s).

Lemma Forall_all_at (data : list Gap) : Forall P data <-> all_at (fun _ => P) data.
Proof. unfold all_at. apply Forall_lookup. Qed.

Lemma merge_same_step_place mg data i :
  Forall P data -> Forall P (merge_same_step mg data i).
Proof.
  rewrite !Forall_all_at. intros Hall. unfold merge_same_step.
  destruct (data !! i) as [gi|] eqn:Ei; [|exact Hall].
  destruct (Gap.support gi =? -1); [exact Hall|].
  destruct (gap_too_long mg gi).
  - apply (all_at_insert i); [intros; apply P_support; assumption | exact Hall
                              | exact Ei | left; reflexivity].
  - apply (merge_same_inner_all_at i); [intros; apply P_support; assumption
                                        | lia | exact Hall].
Qed.

Lemma merge_same_place mg data : Forall P data -> Forall P (merge_same mg data).
Proof.
  intros H. unfold merge_same.
  apply foldl_invariant; [exact H|]. intros; apply merge_same_step_place; assumption.
Qed.

Lemma merge_overlapping_step_place data i :
  Forall P data -> Forall P (merge_overlapping_step data i).
Proof.
  rewrite !Forall_all_at. intros Hall. unfold merge_overlapping_step.
  destruct (data !! i) as [gi|] eqn:Ei; [|exact Hall].
  destruct (Gap.support gi =? -1); [exact Hall|].
  apply (merge_overlapping_inner_all_at i); [intros; apply P_support; assumption
                                             | lia | exact Hall].
Qed.

Lemma merge_overlapping_place data : Forall P data -> Forall P (merge_overlapping data).
Proof.
  intros H. unfold merge_overlapping.
  apply foldl_invariant; [exact H|].
  intros; apply merge_overlapping_step_place; assumption.
Qed.

Lemma drop_spanned_place ovl data : Forall P data -> Forall P (drop_spanned ovl data).
Proof.
  intros H. unfold drop_spanned. apply Forall_fmap.
  eapply Forall_impl; [exact H|]. intros g Hg. simpl.
  destruct (_ >? 10); [apply P_support|]; exact Hg.
Qed.

Lemma filter_place (f : Gap -> bool) data : Forall P data -> Forall P (List.filter f data).
Proof.
  intros H. induction H as [|g data Hg H IH]; simpl; [constructor|].
  destruct (f g); [constructor|]; assumption.
Qed.

Lemma insert_gap_place g data : P g -> Forall P data -> Forall P (insert_gap g data).
Proof.
  intros Hg H. induction H as [|h data Hh H IH]; simpl.
  - repeat constructor. exact Hg.
  - destruct (cmp_gaps g h <=? 0); repeat constructor; assumption.
Qed.

Lemma qsort_place data : Forall P data -> Forall P (qsort data).
Proof.
  intros H. unfold qsort. induction H as [|g data Hg H IH]; simpl; [constructor|].
  apply insert_gap_place; assumption.
Qed.

(** What holds for every break found holds for the breaks the merger
    leaves. *)
Lemma merged_gaps_place fctx ovl :
  Forall P (find_gaps fctx ovl) -> Forall P (merged_gaps fctx ovl).
Proof.
  intros H. unfold merged_gaps, keep_supported.
  apply filter_place, drop_spanned_place, merge_overlapping_place,
        merge_same_place, qsort_place, H.
Qed.

End Place.

Lemma find_gaps_Forall (P : Gap -> Prop) fctx ovl :
  (forall o1 o2 g, gap_between fctx o1 o2 = Some g -> P g) ->
  Forall P (find_gaps fctx ovl).
Proof.
  intros HP. induction ovl as [|o1 rest IH]; simpl; [constructor|].
  destruct rest as [|o2 rest]; [constructor|].
  destruct (gap_between fctx o1 o2) as [g|] eqn:E; [constructor|]; eauto.
Qed.

(** ** Track intervals of a patched read *)


(** [cmp_gaps x y <= 0]: [x] comes before [y] by begin, then end, then
    quality. *)
Lemma cmp_gaps_le x y :
  cmp_gaps x y <= 0 <->
  Gap.ab x < Gap.ab y
  \/ Gap.ab x = Gap.ab y
     /\ (Gap.ae x < Gap.ae y \/ Gap.ae x = Gap.ae y /\ Gap.diff x <= Gap.diff y).
Proof.
  unfold cmp_gaps. cbv zeta.
  destruct (Gap.ab x - Gap.ab y =? 0) eqn:E1; cbv iota;
    [destruct (Gap.ae x - Gap.ae y =? 0) eqn:E2 | rewrite E1]; lia.
Qed.

Lemma insert_gap_elem g h l : h ∈ insert_gap g l -> h = g \/ h ∈ l.
Proof.
  induction l as [|x l IH]; simpl; intros H.
  - apply list_elem_of_singleton in H. left. exact H.
  - destruct (cmp_gaps g x <=? 0).
    + apply elem_of_cons in H as [H|H]; [left | right]; exact H.
    + apply elem_of_cons in H as [->|H]; [right; apply list_elem_of_here|].
      destruct (IH H) as [H'|H']; [left; exact H' | right].
      apply list_elem_of_further, H'.
Qed.

Lemma insert_gap_sorted g l :
  StronglySorted (fun x y => cmp_gaps x y <= 0) l ->
  StronglySorted (fun x y => cmp_gaps x y <= 0) (insert_gap g l).
Proof.
  intros H. induction H as [|x l Hl IH Hx]; simpl; [repeat constructor|].
  destruct (cmp_gaps g x <=? 0) eqn:E.
  - constructor; [constructor; assumption|].
    constructor; [lia|].
    eapply Forall_impl; [exact Hx|]. simpl. intros y Hy.
    apply cmp_gaps_le. apply cmp_gaps_le in Hy.
    assert (Hg : cmp_gaps g x <= 0) by lia. apply cmp_gaps_le in Hg. lia.
  - constructor; [exact IH|].
    apply Forall_forall. intros y Hy.
    apply insert_gap_elem in Hy as [->|Hy].
    + apply cmp_gaps_le.
      assert (Hg : ~ cmp_gaps g x <= 0) by lia. rewrite cmp_gaps_le in Hg. lia.
    + rewrite Forall_forall in Hx. apply Hx, Hy.
Qed.

(** [qsort] leaves the candidates in the order of [cmp_gaps], so in the
    order of their begin in A. *)
Lemma qsort_sorted data : sorted_by_ab (qsort data).
Proof.
  assert (H : StronglySorted (fun x y => cmp_gaps x y <= 0) (qsort data)).
  { unfold qsort. induction data as [|g data IH]; simpl; [constructor|].
    apply insert_gap_sorted, IH. }
  unfold sorted_by_ab. induction H as [|x l Hl IH Hx]; constructor; [exact IH|].
  eapply Forall_impl; [exact Hx|]. simpl. intros y Hy.
  apply cmp_gaps_le in Hy. lia.
Qed.






(** ** The candidates handed to the patching phase *)

Lemma weak_segment_appends fctx ovl data i data' :
  weak_segment fctx ovl data i = Some data' -> exists w, data' = data ++ w.
Proof.
  unfold weak_segment. intros H.
  destruct (negb _ && _); [injection H as <-; exists []; symmetry; apply app_nil_r|].
  destruct (existsb _ data); [injection H as <-; exists []; symmetry; apply app_nil_r|].
  destruct (weak_scan _ _ _ _ _ _) as [st|]; [|discriminate]. simpl in H.
  destruct (ovl_q_min st =? -1); [injection H as <-; exists []; symmetry; apply app_nil_r|].
  destruct (at_Z ovl (ovl_q_min st)) as [ovlrep|]; [|discriminate]. simpl in H.
  injection H as <-. eexists. reflexivity.
Qed.

(** The scan for weak segments leaves the breaks of the merger as they
    are and appends its own candidates. *)
Lemma candidates_appended fctx ovl trim_ab trim_ae data :
  candidates fctx ovl trim_ab trim_ae = Some data ->
  exists weak, data = merged_gaps fctx ovl ++ weak.
Proof.
  unfold candidates, find_weak. intros H.
  destruct (skip_zero_up _ _ _) as [seg_first|]; [|discriminate]. simpl in H.
  destruct (skip_zero_down _ _ _) as [seg_last|]; [|discriminate]. simpl in H.
  revert data H.
  apply (foldl_invariant
           (fun acc : option (list Gap) =>
              forall d, acc = Some d -> exists w, d = merged_gaps fctx ovl ++ w)).
  - intros d Hd. injection Hd as <-. exists []. symmetry. apply app_nil_r.
  - intros acc i Hacc d Hd.
    destruct acc as [d0|]; [|discriminate]. simpl in Hd.
    destruct (Hacc d0 eq_refl) as [w0 ->].
    destruct (weak_segment_appends _ _ _ _ _ Hd) as [w ->].
    exists (w0 ++ w). symmetry. apply app_assoc.
Qed.

(** ** Dust in the donor *)

Lemma dust_inside_clear fctx r bb be :
  dust_inside fctx r bb be = false ->
  forall d : Z * Z, d ∈ track_intervals (dusttrack fctx) r -> ~ (bb <= d.1 /\ d.2 <= be).
Proof.
  unfold dust_inside. intros E d Hd [H1 H2].
  assert (Ht : existsb (fun d : Z * Z => (bb <=? d.1) && (be >=? d.2))
                       (track_intervals (dusttrack fctx) r) = true).
  { apply existsb_exists. exists d. split; [apply list_elem_of_In, Hd|].
    apply andb_true_intro. split; lia. }
  rewrite E in Ht. discriminate.
Qed.

Lemma gap_between_dust_clear fctx o1 o2 g :
  gap_between fctx o1 o2 = Some g -> dust_clear fctx g.
Proof.
  unfold gap_between. intros H.
  destruct (_ && _ && _); [|discriminate].
  destruct (_ >=? _); [discriminate|].
  destruct (is_comp o2);
    (destruct (dust_inside fctx _ _ _) eqn:Ed; [discriminate|];
     destruct (existsb _ _); [discriminate|];
     injection H as <-; unfold dust_clear; simpl;
     apply dust_inside_clear, Ed).
Qed.

Lemma dust_clear_support fctx g s :
  dust_clear fctx g -> dust_clear fctx (Gap.with_support g s).
Proof. intros H. exact H. Qed.

(** C6, at S2 with dust in the donor: the candidate for the weak segment
    reaches the patching phase, and the read is written patched, although
    the dust interval [120, 150) of read 7 lies inside the B-interval
    [100, 200) of the candidate. *)
Lemma weak_candidate_with_dust :
  exists data,
    candidates S2_dust_ctx S2_ovl 0 400 = Some data
    /\ ~ Forall (dust_clear S2_dust_ctx) data
    /\ exists f, fix_process S2_dust_ctx S2_ovl = Written f
                 /\ prefix f = "fixed_"%string.
Proof.
  eexists. split; [vm_compute; reflexivity|]. split.
  - intros H. apply Forall_cons in H as [H _].
    apply (H (120, 150)).
    + vm_compute. repeat constructor.
    + simpl. lia.
  - eexists. split; [vm_compute; reflexivity | reflexivity].
Qed.

(** C6, amended. Dust veto for breaks: no break between two overlaps,
    as found or as the merger leaves it, has a B-interval with a dust
    interval of its donor inside; these breaks are the first of the
    candidates handed to the patching phase.  The candidates for weak
    segments, which follow them, are not checked against the dust
    track. *)
Theorem gaps_clear_of_dust (fctx : FixContext) (ovl : list Overlap) :
  Forall (dust_clear fctx) (find_gaps fctx ovl)
  /\ Forall (dust_clear fctx) (merged_gaps fctx ovl)
  /\ (forall trim_ab trim_ae data,
        candidates fctx ovl trim_ab trim_ae = Some data ->
        exists weak,
          data = merged_gaps fctx ovl ++ weak
          /\ Forall (dust_clear fctx) (take (length (merged_gaps fctx ovl)) data)).
Proof.
  assert (H : Forall (dust_clear fctx) (find_gaps fctx ovl)).
  { apply find_gaps_Forall. intros o1 o2 g. apply gap_between_dust_clear. }
  assert (Hm : Forall (dust_clear fctx) (merged_gaps fctx ovl)).
  { apply merged_gaps_place; [|exact H]. intros g s. apply dust_clear_support. }
  split; [exact H|]. split; [exact Hm|].
  intros trim_ab trim_ae data Hd.
  destruct (candidates_appended _ _ _ _ _ Hd) as [weak ->].
  exists weak. split; [reflexivity|].
  rewrite take_app_length. exact Hm.
Qed.

(** ** The cap on the size of a gap *)

Lemma gap_between_proper fctx o1 o2 g :
  0 < twidth fctx -> gap_between fctx o1 o2 = Some g -> gap_proper g.
Proof.
  unfold gap_between. intros Htw H.
  destruct (_ && _ && _) eqn:Ec; [|discriminate].
  destruct (_ >=? _) eqn:Eb; [discriminate|].
  assert (Ha : Z.quot (aepos (path o1) - 1) (twidth fctx)
               <= Z.quot (abpos (path o2)) (twidth fctx))
    by (apply Z.quot_le_mono; lia).
  destruct (is_comp o2);
    (destruct (dust_inside fctx _ _ _); [discriminate|];
     destruct (existsb _ _); [discriminate|];
     injection H as <-; unfold gap_proper; simpl; split; nia).
Qed.

Lemma gap_proper_support g s : gap_proper g -> gap_proper (Gap.with_support g s).
Proof. intros H. exact H. Qed.

Lemma capped_support mg g s : capped mg g -> capped mg (Gap.with_support g s).
Proof. intros H. exact H. Qed.

(** A candidate with both intervals not empty that passes the check of
    the merger is within the cap. *)
Lemma capped_within mg g :
  mg <> -1 -> gap_proper g -> capped mg g -> within_maxgap mg g.
Proof.
  unfold capped, gap_too_long, gap_proper, within_maxgap.
  intros Hmg [Ha Hb] H.
  destruct (mg =? -1) eqn:E; [lia|]. simpl in H.
  apply orb_false_elim in H as [H1 H2]. lia.
Qed.

Lemma length_merge_same_inner n : forall i j data,
  length (merge_same_inner n i j data) = length data.
Proof.
  induction n as [|n IH]; intros i j data; simpl; [reflexivity|].
  destruct (data !! i); [|reflexivity].
  destruct (data !! j); [|reflexivity].
  destruct (_ && _); [|reflexivity].
  rewrite IH.
  destruct (_ =? -1); [reflexivity|].
  destruct (_ <? 40); [|reflexivity].
  rewrite !length_insert. reflexivity.
Qed.

Lemma length_merge_same_step mg data i :
  length (merge_same_step mg data i) = length data.
Proof.
  unfold merge_same_step.
  destruct (data !! i); [|reflexivity].
  destruct (_ =? -1); [reflexivity|].
  destruct (gap_too_long _ _);
    [apply length_insert | apply length_merge_same_inner].
Qed.

Lemma length_merge_same mg data : length (merge_same mg data) = length data.
Proof.
  unfold merge_same. generalize (seq 0 (length data)) as l.
  intros l. revert data.
  induction l as [|i l IH]; intros data; simpl; [reflexivity|].
  rewrite IH. apply length_merge_same_step.
Qed.

Lemma merge_same_step_checked mg data i :
  checked_upto mg i data -> checked_upto mg (S i) (merge_same_step mg data i).
Proof.
  unfold checked_upto, merge_same_step. intros Hall.
  destruct (data !! i) as [gi|] eqn:Ei.
  2: { intros k g Hk Hlt Hs.
       assert (k <> i) by (intros ->; rewrite Ei in Hk; discriminate).
       apply (Hall k g Hk); [lia | exact Hs]. }
  destruct (Gap.support gi =? -1) eqn:Es.
  { intros k g Hk Hlt Hs.
    destruct (decide (k = i)) as [->|Hne].
    - rewrite Ei in Hk. injection Hk as <-. lia.
    - apply (Hall k g Hk); [lia | exact Hs]. }
  destruct (gap_too_long mg gi) eqn:El.
  { intros k g Hk Hlt Hs.
    apply list_lookup_insert_Some in Hk as [(<- & <- & _)|(Hne & Hk)].
    - simpl in Hs. lia.
    - apply (Hall k g Hk); [lia | exact Hs]. }
  assert (Hinner : all_at (fun k g => (k = i -> capped mg g)
                                       /\ ((k < i)%nat -> Gap.support g <> -1 -> capped mg g))
                          (merge_same_inner (length data - S i) i (S i) data)).
  { apply (merge_same_inner_all_at i).
    - intros k g s [H1 H2] Hs. split.
      + intros Hk. apply capped_support, H1, Hk.
      + intros Hlt Hsup. apply capped_support.
        destruct Hs as [->|[->|Hs]]; [simpl in Hsup; lia | lia | apply H2; assumption].
    - lia.
    - intros k g Hk. split.
      + intros ->. rewrite Ei in Hk. injection Hk as <-. exact El.
      + apply Hall, Hk. }
  intros k g Hk Hlt Hs. destruct (Hinner k g Hk) as [H1 H2].
  destruct (decide (k = i)) as [->|Hne]; [apply H1; reflexivity|].
  apply H2; [lia | exact Hs].
Qed.

Lemma merge_same_alive_capped mg data : alive_capped mg (merge_same mg data).
Proof.
  assert (H : checked_upto mg (0 + length data) (merge_same mg data)).
  { unfold merge_same.
    apply (foldl_seq_invariant (checked_upto mg)).
    - intros i a. apply merge_same_step_checked.
    - intros k g _ Hlt. lia. }
  intros k g Hk. apply (H k g Hk).
  apply lookup_lt_Some in Hk. rewrite length_merge_same in Hk. lia.
Qed.

Lemma merge_overlapping_step_alive mg data i :
  alive_capped mg data -> alive_capped mg (merge_overlapping_step data i).
Proof.
  unfold alive_capped, merge_overlapping_step. intros Hall.
  destruct (data !! i) as [gi|] eqn:Ei; [|exact Hall].
  destruct (Gap.support gi =? -1) eqn:Es; [exact Hall|].
  assert (Hinner : all_at (fun k g => (k = i -> capped mg g)
                                       /\ (k <> i -> Gap.support g <> -1 -> capped mg g))
                          (merge_overlapping_inner (length data - S i) i (S i) data)).
  { apply (merge_overlapping_inner_all_at i).
    - intros k g s [H1 H2] Hs. split.
      + intros Hk. apply capped_support, H1, Hk.
      + intros Hne Hsup. apply capped_support.
        destruct Hs as [->|[->|Hs]]; [simpl in Hsup; lia | lia | apply H2; assumption].
    - lia.
    - intros k g Hk. split.
      + intros ->. rewrite Ei in Hk. injection Hk as <-. apply (Hall i gi Ei). lia.
      + intros _. exact (Hall k g Hk). }
  intros k g Hk Hs. destruct (Hinner k g Hk) as [H1 H2].
  destruct (decide (k = i)) as [->|Hne]; [apply H1; reflexivity|].
  apply H2; assumption.
Qed.

Lemma merge_overlapping_alive mg data :
  alive_capped mg data -> alive_capped mg (merge_overlapping data).
Proof.
  intros H. unfold merge_overlapping.
  apply foldl_invariant; [exact H|].
  intros; apply merge_overlapping_step_alive; assumption.
Qed.

Lemma drop_spanned_alive mg ovl data :
  alive_capped mg data -> alive_capped mg (drop_spanned ovl data).
Proof.
  unfold alive_capped, drop_spanned. intros Hall k g Hk Hs.
  apply list_lookup_fmap_Some in Hk as (g0 & -> & Hk).
  destruct (_ >? 10); [simpl in Hs; lia|].
  apply (Hall k g0 Hk Hs).
Qed.

Lemma keep_supported_capped mg fctx a data :
  alive_capped mg data -> Forall (capped mg) (keep_supported fctx a data).
Proof.
  unfold keep_supported. intros Hall.
  apply Forall_forall. intros g Hg.
  apply list_elem_of_In, filter_In in Hg as [Hin Hf].
  apply list_elem_of_In, list_elem_of_lookup in Hin as [k Hk].
  apply (Hall k g Hk).
  apply andb_prop in Hf as [Hf _]. lia.
Qed.

Lemma merged_gaps_capped fctx ovl : Forall (capped (maxgap fctx)) (merged_gaps fctx ovl).
Proof.
  unfold merged_gaps.
  apply keep_supported_capped, drop_spanned_alive, merge_overlapping_alive,
        merge_same_alive_capped.
Qed.

(** C7, at S2 run with [-g 100]: the candidate for the weak segment
    spans 100 bases of A, which is not below the cap, and yet it reaches
    the patching phase and the read is written patched. *)
Lemma weak_candidate_beyond_maxgap :
  maxgap S2_g100_ctx = 100
  /\ exists data,
       candidates S2_g100_ctx S2_ovl 0 400 = Some data
       /\ ~ Forall (within_maxgap (maxgap S2_g100_ctx)) data
       /\ exists f, fix_process S2_g100_ctx S2_ovl = Written f
                    /\ prefix f = "fixed_"%string.
Proof.
  split; [reflexivity|].
  eexists. split; [vm_compute; reflexivity|]. split.
  - intros H. apply Forall_cons in H as [[H _] _]. simpl in H. lia.
  - eexists. split; [vm_compute; reflexivity | reflexivity].
Qed.

(** C7, amended. When [maxgap] is not -1, every break between two
    overlaps that the merger leaves satisfies [ae - ab < maxgap] and
    [|(be - bb) - (ae - ab)| < maxgap]; a break that exceeds either bound
    is dropped by the merger, there is none left for its place.  The
    candidates for weak segments are found after the merger and are not
    held against [maxgap]. *)
Theorem merger_caps_gaps (fctx : FixContext) (ovl : list Overlap) :
  0 < twidth fctx -> maxgap fctx <> -1 ->
  Forall (within_maxgap (maxgap fctx)) (merged_gaps fctx ovl)
  /\ (forall g g',
        g ∈ find_gaps fctx ovl -> ~ within_maxgap (maxgap fctx) g ->
        g' ∈ merged_gaps fctx ovl -> ~ same_place g g')
  /\ (forall trim_ab trim_ae data,
        candidates fctx ovl trim_ab trim_ae = Some data ->
        exists weak, data = merged_gaps fctx ovl ++ weak).
Proof.
  intros Htw Hmg.
  assert (Hproper : Forall gap_proper (merged_gaps fctx ovl)).
  { apply merged_gaps_place; [intros g s; apply gap_proper_support|].
    apply find_gaps_Forall. intros o1 o2 g. apply gap_between_proper, Htw. }
  assert (H : Forall (within_maxgap (maxgap fctx)) (merged_gaps fctx ovl)).
  { pose proof (merged_gaps_capped fctx ovl) as Hc.
    rewrite Forall_forall in *. intros g Hg.
    apply capped_within; [exact Hmg | apply Hproper, Hg | apply Hc, Hg]. }
  split; [exact H|].
  split; [|intros trim_ab trim_ae data; apply candidates_appended].
  intros g g' _ Hg Hg' (Ha & Hb & Hc & Hd).
  rewrite Forall_forall in H. specialize (H g' Hg').
  apply Hg. unfold within_maxgap in *. rewrite Ha, Hb, Hc, Hd. exact H.
Qed.

Lemma merger_caps_gaps_witness :
  0 < twidth G5_ctx /\ maxgap G5_ctx <> -1
  /\ merged_gaps G5_ctx G5_ovl
     = [ {| Gap.ab := 100; Gap.ae := 400; Gap.bb := 100; Gap.be := 400;
            Gap.diff := 12; Gap.b := 10; Gap.support := 5; Gap.span := 0;
            Gap.comp := 0 |} ]
  /\ Forall (within_maxgap (maxgap G5_ctx)) (merged_gaps G5_ctx G5_ovl).
Proof.
  assert (H1 : 0 < twidth G5_ctx) by (vm_compute; reflexivity).
  assert (H2 : maxgap G5_ctx <> -1) by (vm_compute; discriminate).
  split; [exact H1|]. split; [exact H2|].
  split; [vm_compute; reflexivity|].
  exact (proj1 (merger_caps_gaps G5_ctx G5_ovl H1 H2)).
Defined.

(** * Further properties of the code *)

(** ** The order of the candidates *)

Lemma insert_gap_perm g l : insert_gap g l ≡ₚ g :: l.
Proof.
  induction l as [|h l IH]; simpl; [reflexivity|].
  destruct (cmp_gaps g h <=? 0); [reflexivity|].
  rewrite IH. apply Permutation_swap.
Qed.

Lemma qsort_perm l : qsort l ≡ₚ l.
Proof.
  unfold qsort. induction l as [|g l IH]; simpl; [reflexivity|].
  rewrite insert_gap_perm, IH. reflexivity.
Qed.

Lemma qsort_cmp_sorted l : StronglySorted (fun x y => cmp_gaps x y <= 0) (qsort l).
Proof.
  unfold qsort. induction l as [|g l IH]; simpl; [constructor|].
  apply insert_gap_sorted, IH.
Qed.

Lemma wrap_int_id z : int_range z -> wrap_int z = z.
Proof.
  unfold int_range, wrap_int. intros H.
  rewrite Z.mod_small by lia. lia.
Qed.

Lemma cmp_gaps_lt x y : cmp_gaps x y < 0 <-> gap_before x y.
Proof.
  unfold cmp_gaps, gap_before. cbv zeta.
  destruct (Gap.ab x - Gap.ab y =? 0) eqn:E1; cbv iota;
    [destruct (Gap.ae x - Gap.ae y =? 0) eqn:E2 | rewrite E1]; lia.
Qed.

Lemma cmp_gaps_zero x y : cmp_gaps x y = 0 <-> same_keys x y.
Proof.
  unfold cmp_gaps, same_keys. cbv zeta.
  destruct (Gap.ab x - Gap.ab y =? 0) eqn:E1; cbv iota;
    [destruct (Gap.ae x - Gap.ae y =? 0) eqn:E2 | rewrite E1]; lia.
Qed.

Lemma cmp_gaps_gt x y : 0 < cmp_gaps x y <-> gap_before y x.
Proof.
  unfold cmp_gaps, gap_before. cbv zeta.
  destruct (Gap.ab x - Gap.ab y =? 0) eqn:E1; cbv iota;
    [destruct (Gap.ae x - Gap.ae y =? 0) eqn:E2 | rewrite E1]; lia.
Qed.

Lemma cmp_sorted_keys d :
  StronglySorted (fun g h => cmp_gaps g h <= 0) d ->
  StronglySorted (fun g h => gap_before g h \/ same_keys g h) d.
Proof.
  intros Hs. induction Hs as [|g r Hr IH Hg]; constructor; [exact IH|].
  eapply Forall_impl; [exact Hg|]. simpl. intros h Hgh.
  destruct (Z.lt_total (cmp_gaps g h) 0) as [H|[H|H]]; [| |lia].
  - left. apply cmp_gaps_lt, H.
  - right. apply cmp_gaps_zero, H.
Qed.

(** Outside that range the subtraction of the code overflows and the
    sign is lost: 2147483647 - (-2) comes out negative. *)
Example cmp_gaps_int_overflow :
  let x := {| Gap.ab := 2147483647; Gap.ae := 0; Gap.bb := 0; Gap.be := 0; Gap.diff := 0;
              Gap.b := 0; Gap.support := 0; Gap.span := 0; Gap.comp := 0 |} in
  let y := {| Gap.ab := -2; Gap.ae := 0; Gap.bb := 0; Gap.be := 0; Gap.diff := 0;
              Gap.b := 0; Gap.support := 0; Gap.span := 0; Gap.comp := 0 |} in
  cmp_gaps_int x y = -2147483647 /\ cmp_gaps x y = 2147483649.
Proof. split; reflexivity. Qed.

(** On keys in their range no difference overflows, and the comparator
    of the code is [cmp_gaps]. *)
Lemma cmp_gaps_int_exact x y :
  key_range x -> key_range y -> cmp_gaps_int x y = cmp_gaps x y.
Proof.
  intros (Ha & He & Hd) (Ha' & He' & Hd').
  unfold cmp_gaps_int, cmp_gaps.
  rewrite !wrap_int_id by (unfold int_range; lia). reflexivity.
Qed.

(** X1. [cmp_gaps] orders the candidates by begin in A, then by end in
    A, then by [diff]: for candidates whose keys are places and
    qualities within [int], where the subtractions of the code do not
    overflow, it is negative exactly when the first comes before the
    second in that order, zero exactly when the three keys are equal,
    and positive exactly when the second comes before the first.
    Sorting such candidates with it gives the same candidates, each
    before or equal in keys to every later one. *)
Theorem cmp_gaps_orders_candidates (x y : Gap) (l : list Gap) :
  key_range x -> key_range y -> Forall key_range l ->
  cmp_gaps_int x y = cmp_gaps x y
  /\ (cmp_gaps_int x y < 0 <-> gap_before x y)
  /\ (cmp_gaps_int x y = 0 <-> same_keys x y)
  /\ (0 < cmp_gaps_int x y <-> gap_before y x)
  /\ qsort l ≡ₚ l
  /\ StronglySorted (fun g h => gap_before g h \/ same_keys g h) (qsort l).
Proof.
  intros Hx Hy Hl. rewrite (cmp_gaps_int_exact x y Hx Hy).
  split; [reflexivity|]. split; [apply cmp_gaps_lt|].
  split; [apply cmp_gaps_zero|]. split; [apply cmp_gaps_gt|].
  split; [apply qsort_perm|].
  apply cmp_sorted_keys, qsort_cmp_sorted.
Qed.

Lemma cmp_gaps_orders_candidates_witness :
  let later := Gap.with_support early_gap 1 in
  key_range early_gap
  /\ key_range later
  /\ Forall key_range [later; early_gap]
  /\ cmp_gaps_int early_gap later = cmp_gaps early_gap later
  /\ (cmp_gaps_int early_gap later = 0 <-> same_keys early_gap later)
  /\ StronglySorted (fun g h => gap_before g h \/ same_keys g h)
                    (qsort [later; early_gap]).
Proof.
  intros later.
  assert (H1 : key_range early_gap) by (unfold key_range; simpl; lia).
  assert (H2 : key_range later) by (unfold key_range; simpl; lia).
  assert (H3 : Forall key_range [later; early_gap])
    by (constructor; [exact H2 | constructor; [exact H1 | constructor]]).
  split; [exact H1|]. split; [exact H2|]. split; [exact H3|].
  destruct (cmp_gaps_orders_candidates early_gap later [later; early_gap] H1 H2 H3)
    as (Ha & _ & Hb & _ & _ & Hc).
  split; [exact Ha|]. split; [exact Hb | exact Hc].
Defined.

(** ** Overlaps that span an interval *)

Lemma spanners_acc (b e : Z) (ovls : list Overlap) : forall a,
  foldl (fun span ovl =>
           if (abpos (path ovl) <? b - MIN_SPAN) && (aepos (path ovl) >? e + MIN_SPAN)
           then span + 1 else span) a ovls
  = a + spanners ovls b e.
Proof.
  unfold spanners. induction ovls as [|o ovls IH]; intros a; simpl; [lia|].
  rewrite IH. symmetry. rewrite IH.
  destruct (_ && _); lia.
Qed.

Lemma spanners_cons o ovls b e :
  spanners (o :: ovls) b e
  = (if (abpos (path o) <? b - MIN_SPAN) && (aepos (path o) >? e + MIN_SPAN) then 1 else 0)
    + spanners ovls b e.
Proof.
  unfold spanners at 1. simpl. rewrite spanners_acc.
  destruct (_ && _); reflexivity.
Qed.

Lemma spanners_test b e o :
  (abpos (path o) <? b - MIN_SPAN) && (aepos (path o) >? e + MIN_SPAN) = true
  <-> spans b e o.
Proof. unfold spans. rewrite andb_true_iff. lia. Qed.

Lemma spanners_filter ovls b e :
  spanners ovls b e = Z.of_nat (length (filter (spans b e) ovls)).
Proof.
  induction ovls as [|o ovls IH]; [reflexivity|].
  rewrite spanners_cons, filter_cons, IH.
  destruct (decide (spans b e o)) as [H|H].
  - apply spanners_test in H. rewrite H. simpl length. lia.
  - destruct ((abpos (path o) <? b - MIN_SPAN) && (aepos (path o) >? e + MIN_SPAN)) eqn:E;
      [|lia].
    exfalso. apply H, spanners_test, E.
Qed.

(** X2. [spanners] returns the number of overlaps of the group that
    start more than [MIN_SPAN] bases before [b] and end more than
    [MIN_SPAN] bases after [e], for [b] and [e] with [b - MIN_SPAN] and
    [e + MIN_SPAN] within [int]: it is positive exactly when there is
    such an overlap, it adds up over the parts of a group, and it does
    not grow when the interval is widened. *)
Theorem spanners_counts (ovls : list Overlap) (b e : Z) :
  int_range (b - MIN_SPAN) -> int_range (e + MIN_SPAN) ->
  spanners ovls b e = Z.of_nat (length (filter (spans b e) ovls))
  /\ (0 < spanners ovls b e <-> exists o, o ∈ ovls /\ spans b e o)
  /\ (forall more, spanners (ovls ++ more) b e = spanners ovls b e + spanners more b e)
  /\ (forall b' e', int_range (b' - MIN_SPAN) -> int_range (e' + MIN_SPAN) ->
        b' <= b -> e <= e' -> spanners ovls b' e' <= spanners ovls b e).
Proof.
  intros _ _. split; [apply spanners_filter|]. split; [|split].
  - rewrite spanners_filter. split.
    + intros H. destruct (filter (spans b e) ovls) as [|o l] eqn:E; [simpl in H; lia|].
      assert (Ho : o ∈ filter (spans b e) ovls) by (rewrite E; apply list_elem_of_here).
      apply list_elem_of_filter in Ho as [Hs Ho]. exists o. split; assumption.
    + intros (o & Ho & Hs).
      assert (Hin : o ∈ filter (spans b e) ovls) by (apply list_elem_of_filter; split; assumption).
      destruct (filter (spans b e) ovls); [inversion Hin | simpl; lia].
  - intros more. rewrite !spanners_filter, filter_app, length_app. lia.
  - intros b' e' _ _ Hb He. induction ovls as [|o ovls IH]; [unfold spanners; simpl; lia|].
    rewrite !spanners_cons.
    destruct ((abpos (path o) <? b' - MIN_SPAN) && (aepos (path o) >? e' + MIN_SPAN)) eqn:E1;
      destruct ((abpos (path o) <? b - MIN_SPAN) && (aepos (path o) >? e + MIN_SPAN)) eqn:E2;
      lia.
Qed.

Lemma spanners_counts_witness :
  int_range (1000 - MIN_SPAN)
  /\ int_range (1100 + MIN_SPAN)
  /\ spanners [mk_ovl 1 7 0 0 2000 0 2000 []; mk_ovl 1 8 0 700 2000 0 1300 []] 1000 1100 = 1
  /\ spanners [mk_ovl 1 7 0 0 2000 0 2000 []; mk_ovl 1 8 0 700 2000 0 1300 []] 1000 1100
     = Z.of_nat (length (filter (spans 1000 1100)
                           [mk_ovl 1 7 0 0 2000 0 2000 []; mk_ovl 1 8 0 700 2000 0 1300 []])).
Proof.
  assert (H1 : int_range (1000 - MIN_SPAN)) by (unfold int_range, MIN_SPAN; lia).
  assert (H2 : int_range (1100 + MIN_SPAN)) by (unfold int_range, MIN_SPAN; lia).
  split; [exact H1|]. split; [exact H2|]. split; [reflexivity|].
  exact (proj1 (spanners_counts _ 1000 1100 H1 H2)).
Defined.

(** ** What the flip detector leaves alone *)

Lemma flip_cross_flag tb te st sab sae : flag_inv tb te (flip_cross st sab sae).
Proof.
  unfold flag_inv, flip_cross. right.
  destruct (_ && _); [destruct (_ <? _)|]; reflexivity.
Qed.

Lemma flip_gap_flag tb te st mid : flag_inv tb te (flip_gap st mid).
Proof.
  unfold flag_inv, flip_gap. right.
  destruct (_ && _); [destruct (_ <? _)|]; reflexivity.
Qed.

Lemma flips_walk_flag tb te tw alen ovl st :
  flag_inv tb te st -> flag_inv tb te (flips_walk tw alen ovl st).
Proof.
  intros H. unfold flips_walk.
  apply (foldl_invariant (fun s : Z * Z * Z * Z * FlipTrim => flag_inv tb te s.2));
    [exact H|].
  intros [[[[sab sae] sbb] sbe] s] j Hs. simpl in *.
  destruct (negb _); [apply flip_cross_flag | exact Hs].
Qed.

Lemma filter_flips_flag_inv fctx ovls tb te : flag_inv tb te (filter_flips fctx ovls tb te).
Proof.
  unfold filter_flips.
  destruct (flips_scan _ _ _ _ _ _ _) as [[[b e] self_c] self_n].
  assert (H0 : flag_inv tb te {| trimmed := 0; trim_b := tb; trim_e := te |})
    by (left; repeat split).
  destruct (self_c =? 0); [exact H0|].
  apply foldl_invariant.
  - apply foldl_invariant; [exact H0|].
    intros st i Hst. unfold flips_overlap.
    destruct (at_Z ovls i) as [ovl|]; [|exact Hst].
    destruct (is_comp ovl); [|exact Hst].
    destruct (negb _); [apply flips_walk_flag|]; exact Hst.
  - intros st i Hst. unfold flips_pair.
    destruct (at_Z ovls i) as [ovl|]; [|exact Hst].
    destruct (at_Z ovls (i + 1)) as [ovl2|]; [|exact Hst].
    destruct (is_comp ovl && is_comp ovl2); [|exact Hst].
    destruct (negb _ && _); [apply flip_gap_flag | exact Hst].
Qed.

(** X3. The value [filter_flips] returns is 0 or 1, and when it is 0 the
    trim has not been touched: a read is counted as flipped whenever its
    trim is changed. *)
Theorem filter_flips_flag (fctx : FixContext) (ovls : list Overlap) (tb te : Z) :
  (trimmed (filter_flips fctx ovls tb te) = 0 \/ trimmed (filter_flips fctx ovls tb te) = 1)
  /\ (trimmed (filter_flips fctx ovls tb te) = 0 ->
      trim_b (filter_flips fctx ovls tb te) = tb
      /\ trim_e (filter_flips fctx ovls tb te) = te).
Proof.
  destruct (filter_flips_flag_inv fctx ovls tb te) as [(H0 & Hb & He)|H1].
  - split; [left; exact H0 | intros _; split; assumption].
  - split; [right; exact H1 | intros H; lia].
Qed.

Lemma flips_scan_no_comp a ovls :
  Forall (fun o => bread o = a -> is_comp o = false) ovls ->
  forall i b e c n, (flips_scan a ovls i b e c n).1.2 = c.
Proof.
  intros H. induction H as [|o ovls Ho H IH]; intros i b e c n; simpl; [reflexivity|].
  destruct (a <? bread o); [reflexivity|].
  destruct (a =? bread o) eqn:E; [|apply IH].
  rewrite Ho by lia. apply IH.
Qed.

(** X4. Without a complement overlap of the read with itself
    [filter_flips] flags nothing: it returns 0 and leaves the trim as it
    is. *)
Theorem filter_flips_without_flip (fctx : FixContext) (ovls : list Overlap) (tb te : Z) :
  Forall (fun o => bread o = group_aread ovls -> is_comp o = false) ovls ->
  filter_flips fctx ovls tb te = {| trimmed := 0; trim_b := tb; trim_e := te |}.
Proof.
  intros H. unfold filter_flips.
  pose proof (flips_scan_no_comp _ _ H 0 (-1) (-1) 0 0) as Hc.
  destruct (flips_scan _ _ _ _ _ _ _) as [[[b e] self_c] self_n].
  simpl in Hc. subst self_c. reflexivity.
Qed.

Lemma filter_flips_without_flip_witness :
  Forall (fun o => bread o = group_aread S3_ovl -> is_comp o = false) S3_ovl
  /\ filter_flips S3_ctx S3_ovl 0 500 = {| trimmed := 0; trim_b := 0; trim_e := 500 |}.
Proof.
  assert (H : Forall (fun o => bread o = group_aread S3_ovl -> is_comp o = false) S3_ovl)
    by (repeat constructor).
  split; [exact H|].
  exact (filter_flips_without_flip S3_ctx S3_ovl 0 500 H).
Defined.

Lemma flips_scan_no_later a ovls :
  Forall (fun o => bread o <= a) ovls ->
  forall i b e c n, 0 <= i -> -1 <= b ->
    -1 <= (flips_scan a ovls i b e c n).1.1.1
    /\ (flips_scan a ovls i b e c n).1.1.2 = e.
Proof.
  intros H. induction H as [|o ovls Ho H IH]; intros i b e c n Hi Hb; simpl;
    [split; [exact Hb | reflexivity]|].
  destruct (a <? bread o) eqn:E1; [lia|].
  destruct (a =? bread o); [|apply IH; lia].
  destruct (is_comp o); apply IH; try lia; destruct (b =? -1); lia.
Qed.

(** X5. The range of self-overlaps that [filter_flips] examines ends at
    the first overlap with a larger B-read.  When no overlap of the group
    has a B-read larger than the A-read, the range stays open: nothing is
    examined, and the trim is returned as it is, whatever the
    self-overlaps look like. *)
Theorem filter_flips_needs_later_read (fctx : FixContext) (ovls : list Overlap) (tb te : Z) :
  Forall (fun o => bread o <= group_aread ovls) ovls ->
  filter_flips fctx ovls tb te = {| trimmed := 0; trim_b := tb; trim_e := te |}.
Proof.
  intros H. unfold filter_flips.
  destruct (flips_scan_no_later _ _ H 0 (-1) (-1) 0 0) as [Hb He]; [lia..|].
  destruct (flips_scan _ _ _ _ _ _ _) as [[[b e] self_c] self_n].
  simpl in Hb, He. subst e.
  destruct (self_c =? 0); [reflexivity|].
  unfold for_range.
  replace (Z.to_nat (-1 - b)) with 0%nat by lia.
  replace (Z.to_nat (-1 - 1 - b)) with 0%nat by lia.
  reflexivity.
Qed.

Lemma filter_flips_needs_later_read_witness :
  Forall (fun o => bread o <= group_aread S4_ovl) S4_ovl
  /\ is_comp (S4_self 6 [0; 100; 0; 100; 0; 100]) = true
  /\ filter_flips S4_ctx S4_ovl 0 1000 = {| trimmed := 0; trim_b := 0; trim_e := 1000 |}.
Proof.
  assert (H : Forall (fun o => bread o <= group_aread S4_ovl) S4_ovl)
    by (repeat constructor; simpl; lia).
  split; [exact H|]. split; [reflexivity|].
  exact (filter_flips_needs_later_read S4_ctx S4_ovl 0 1000 H).
Defined.

(** ** Breaks between overlaps *)

Lemma quot_segment tw x :
  0 < tw -> 0 <= x -> 0 <= Z.quot x tw /\ Z.quot x tw * tw <= x < (Z.quot x tw + 1) * tw.
Proof.
  intros Htw Hx.
  pose proof (Z.quot_rem' x tw) as Hq.
  pose proof (Z.rem_bound_pos x tw Hx Htw) as Hr.
  pose proof (Z.quot_pos x tw Hx Htw). lia.
Qed.

Lemma gap_between_shape fctx o1 o2 g :
  0 < twidth fctx -> 1 <= aepos (path o1) -> 0 <= abpos (path o2) ->
  gap_between fctx o1 o2 = Some g -> gap_shape fctx o1 o2 g.
Proof.
  unfold gap_between. intros Htw H1 H2 H.
  destruct (_ && _ && _) eqn:Ec; [|discriminate].
  apply andb_prop in Ec as [Ec E3]. apply andb_prop in Ec as [E1 E2].
  destruct (_ >=? _) eqn:Eb; [discriminate|].
  destruct (quot_segment (twidth fctx) (aepos (path o1) - 1) Htw ltac:(lia)) as (Ha0 & Ha1 & Ha2).
  destruct (quot_segment (twidth fctx) (abpos (path o2)) Htw H2) as (Hb0 & Hb1 & Hb2).
  destruct (is_comp o2);
    (destruct (dust_inside fctx _ _ _); [discriminate|];
     destruct (existsb _ _); [discriminate|];
     injection H as <-; unfold gap_shape; simpl;
     repeat split; try lia; try (eexists; reflexivity)).
Qed.

Lemma find_gaps_consecutive fctx ovl g :
  g ∈ find_gaps fctx ovl ->
  exists l1 o1 o2 l2, ovl = l1 ++ o1 :: o2 :: l2 /\ gap_between fctx o1 o2 = Some g.
Proof.
  induction ovl as [|o1 rest IH]; simpl; [intros H; inversion H|].
  destruct rest as [|o2 rest]; [intros H; inversion H|].
  intros H.
  assert (Hrest : g ∈ find_gaps fctx (o2 :: rest) ->
                  exists l1 o1' o2' l2,
                    o1 :: o2 :: rest = l1 ++ o1' :: o2' :: l2
                    /\ gap_between fctx o1' o2' = Some g).
  { intros Hg. destruct (IH Hg) as (l1 & a & b & l2 & Heq & Hgb).
    exists (o1 :: l1), a, b, l2. rewrite Heq. split; [reflexivity | exact Hgb]. }
  destruct (gap_between fctx o1 o2) as [g0|] eqn:E; [|apply Hrest, H].
  apply elem_of_cons in H as [->|H]; [|apply Hrest, H].
  exists [], o1, o2, rest. split; [reflexivity | exact E].
Qed.

Lemma length_find_gaps fctx ovl : (length (find_gaps fctx ovl) <= length ovl - 1)%nat.
Proof.
  induction ovl as [|o1 rest IH]; simpl; [lia|].
  destruct rest as [|o2 rest]; [simpl; lia|].
  destruct (gap_between fctx o1 o2); simpl in *; lia.
Qed.

(** X6. Every break that the scan of the group finds comes from two
    consecutive overlaps with the same B-read and orientation that leave
    bases of A uncovered between them.  Its A-interval starts and ends on
    segment boundaries and contains the uncovered bases, with the end of
    the first overlap and the begin of the second strictly inside; its
    B-interval is not empty and as long as the stretch between the last
    trace point of the first overlap and the first of the second, on
    either strand; it starts with support 1 and span 0.  A group of [n]
    overlaps yields at most [n - 1] breaks. *)
Theorem find_gaps_shape (fctx : FixContext) (ovl : list Overlap) :
  0 < twidth fctx ->
  Forall (fun o => 0 <= abpos (path o) /\ 1 <= aepos (path o)) ovl ->
  (forall g, g ∈ find_gaps fctx ovl ->
     exists l1 o1 o2 l2, ovl = l1 ++ o1 :: o2 :: l2 /\ gap_shape fctx o1 o2 g)
  /\ (length (find_gaps fctx ovl) <= length ovl - 1)%nat.
Proof.
  intros Htw Hovl. split; [|apply length_find_gaps].
  intros g Hg.
  destruct (find_gaps_consecutive _ _ _ Hg) as (l1 & o1 & o2 & l2 & Heq & Hgb).
  exists l1, o1, o2, l2. split; [exact Heq|].
  rewrite Heq in Hovl.
  apply Forall_app in Hovl as [_ Hovl].
  apply Forall_cons in Hovl as [[_ H1] Hovl].
  apply Forall_cons in Hovl as [[H2 _] _].
  apply gap_between_shape; assumption.
Qed.

Lemma find_gaps_shape_witness :
  0 < twidth S3_ctx
  /\ Forall (fun o => 0 <= abpos (path o) /\ 1 <= aepos (path o)) S3_ovl
  /\ length (find_gaps S3_ctx S3_ovl) = 1%nat
  /\ (forall g, g ∈ find_gaps S3_ctx S3_ovl ->
        exists l1 o1 o2 l2, S3_ovl = l1 ++ o1 :: o2 :: l2 /\ gap_shape S3_ctx o1 o2 g).
Proof.
  assert (H1 : 0 < twidth S3_ctx) by (vm_compute; reflexivity).
  assert (H2 : Forall (fun o => 0 <= abpos (path o) /\ 1 <= aepos (path o)) S3_ovl)
    by (repeat constructor; simpl; lia).
  split; [exact H1|]. split; [exact H2|]. split; [vm_compute; reflexivity|].
  exact (proj1 (find_gaps_shape S3_ctx S3_ovl H1 H2)).
Defined.

(** ** What the merger keeps *)

Lemma merged_from_support fctx ovl g s :
  merged_from fctx ovl g -> merged_from fctx ovl (Gap.with_support g s).
Proof.
  intros (g0 & Hin & Hg). exists g0. split; [exact Hin|].
  rewrite Hg. reflexivity.
Qed.

Lemma drop_spanned_few ovl data :
  Forall (fun g => Gap.support g = -1 \/ spanners ovl (Gap.ab g) (Gap.ae g) <= 10)
         (drop_spanned ovl data).
Proof.
  unfold drop_spanned. apply Forall_fmap, Forall_forall. intros g _. simpl.
  destruct (spanners ovl (Gap.ab g) (Gap.ae g) >? 10) eqn:E; [left; reflexivity | right; lia].
Qed.

Lemma length_filter_le {A : Type} (f : A -> bool) (l : list A) :
  (length (List.filter f l) <= length l)%nat.
Proof. induction l as [|x l IH]; simpl; [lia|]. destruct (f x); simpl; lia. Qed.

Lemma length_merge_overlapping_inner n : forall i j data,
  length (merge_overlapping_inner n i j data) = length data.
Proof.
  induction n as [|n IH]; intros i j data; simpl; [reflexivity|].
  destruct (data !! i); [|reflexivity].
  destruct (data !! j); [|reflexivity].
  destruct (_ && _); [|reflexivity].
  destruct (_ =? -1); [apply IH|].
  destruct (_ >? _); [rewrite IH|]; rewrite !length_insert; reflexivity.
Qed.

Lemma length_merge_overlapping data : length (merge_overlapping data) = length data.
Proof.
  unfold merge_overlapping. generalize (seq 0 (length data)) as l.
  intros l. revert data.
  induction l as [|i l IH]; intros data; simpl; [reflexivity|].
  rewrite IH. unfold merge_overlapping_step.
  destruct (data !! i); [|reflexivity].
  destruct (_ =? -1); [reflexivity | apply length_merge_overlapping_inner].
Qed.

(** X7. The merger only drops breaks and changes their support: every
    break it leaves is one the scan found, with nothing but the support
    changed; it has a support of at least 5, a segment of A inside it
    that is bad (Q of 0 or at least [lowq]), and at most 10 overlaps
    that span it.  There are never more breaks after the merger than
    before. *)
Theorem merged_gaps_kept (fctx : FixContext) (ovl : list Overlap) :
  Forall (fun g => merged_from fctx ovl g
                   /\ 5 <= Gap.support g
                   /\ bad_q fctx (group_aread ovl) g = true
                   /\ spanners ovl (Gap.ab g) (Gap.ae g) <= 10)
         (merged_gaps fctx ovl)
  /\ (length (merged_gaps fctx ovl) <= length (find_gaps fctx ovl))%nat.
Proof.
  split.
  - assert (Hfrom : Forall (merged_from fctx ovl) (merged_gaps fctx ovl)).
    { apply merged_gaps_place; [intros g s; apply merged_from_support|].
      apply Forall_forall. intros g Hg. exists g. split; [exact Hg|].
      destruct g; reflexivity. }
    rewrite Forall_forall in *. intros g Hg.
    split; [apply Hfrom, Hg|].
    unfold merged_gaps, keep_supported in Hg.
    apply list_elem_of_In, filter_In in Hg as [Hin Hf].
    apply andb_prop in Hf as [Hs Hq].
    split; [lia|]. split; [exact Hq|].
    pose proof (drop_spanned_few ovl
                  (merge_overlapping (merge_same (maxgap fctx) (qsort (find_gaps fctx ovl)))))
      as Hfew.
    rewrite Forall_forall in Hfew.
    destruct (Hfew g (proj2 (list_elem_of_In _ _) Hin)) as [Hd|Hd]; lia.
  - unfold merged_gaps, keep_supported.
    etransitivity; [apply length_filter_le|].
    unfold drop_spanned. rewrite length_fmap, length_merge_overlapping, length_merge_same.
    rewrite (Permutation_length (qsort_perm _)). lia.
Qed.

(** ** Breaks that overlap *)

Lemma weaker_refl g : weaker g g.
Proof.
  unfold weaker. split; [reflexivity|]. split; [reflexivity|].
  split; intros H; exact H.
Qed.

Lemma weaker_trans g1 g2 g3 : weaker g1 g2 -> weaker g2 g3 -> weaker g1 g3.
Proof.
  intros (A1 & B1 & C1 & D1) (A2 & B2 & C2 & D2).
  unfold weaker. split; [lia|]. split; [lia|].
  split; [intros H; apply C1, C2, H | intros H; apply D2, D1, H].
Qed.

Lemma refines_refl data : refines data data.
Proof. intros k g H. exists g. split; [exact H | apply weaker_refl]. Qed.

Lemma refines_trans d1 d2 d3 : refines d1 d2 -> refines d2 d3 -> refines d1 d3.
Proof.
  intros H12 H23 k g3 H3.
  destruct (H23 k g3 H3) as (g2 & H2 & W2).
  destruct (H12 k g2 H2) as (g1 & H1 & W1).
  exists g1. split; [exact H1 | eapply weaker_trans; eassumption].
Qed.

Lemma weaker_support g s :
  s = -1 \/ Gap.support g <> -1 /\ 1 <= s -> weaker g (Gap.with_support g s).
Proof.
  intros Hs. unfold weaker, gap_ok. simpl.
  split; [reflexivity|]. split; [reflexivity|]. split; [lia|].
  intros [_ Hlt]. split; [lia | exact Hlt].
Qed.

Lemma refines_insert data m h s :
  data !! m = Some h -> s = -1 \/ Gap.support h <> -1 /\ 1 <= s ->
  refines data (<[m := Gap.with_support h s]> data).
Proof.
  intros Hm Hs k g' H.
  apply list_lookup_insert_Some in H as [(<- & <- & _)|(Hne & H)].
  - exists h. split; [exact Hm | apply weaker_support, Hs].
  - exists g'. split; [exact H | apply weaker_refl].
Qed.

Lemma refines_ok data data' :
  refines data data' -> all_at (fun _ => gap_ok) data -> all_at (fun _ => gap_ok) data'.
Proof.
  intros Hr Hok k g' H. destruct (Hr k g' H) as (g & Hg & _ & _ & _ & Hw).
  apply Hw, (Hok k g Hg).
Qed.

Lemma refines_sorted data data' : refines data data' -> ab_sorted data -> ab_sorted data'.
Proof.
  intros Hr Hs i k g' h' Hik Hg Hh.
  destruct (Hr i g' Hg) as (g & Hg0 & Ag & _).
  destruct (Hr k h' Hh) as (h & Hh0 & Ah & _).
  rewrite Ag, Ah. eapply Hs; eassumption.
Qed.

Lemma refines_apart B data data' : refines data data' -> apart B data -> apart B data'.
Proof.
  intros Hr Ha i k g' h' HB Hg Hh Hag Hah.
  destruct (Hr i g' Hg) as (g & Hg0 & _ & Eg & Lg & _).
  destruct (Hr k h' Hh) as (h & Hh0 & Ah & _ & Lh & _).
  rewrite Eg, Ah. eapply Ha; eauto.
Qed.

Lemma merge_same_inner_refines i n : forall j data,
  (i < j)%nat -> all_at (fun _ => gap_ok) data ->
  (forall g, data !! i = Some g -> Gap.support g <> -1) ->
  refines data (merge_same_inner n i j data).
Proof.
  induction n as [|n IH]; intros j data Hij Hok Hi; simpl; [apply refines_refl|].
  case_eq (data !! i); [intros gi Ei | intros _; apply refines_refl].
  case_eq (data !! j); [intros gj Ej | intros _; apply refines_refl].
  destruct (_ && _); [|apply refines_refl].
  destruct (Gap.support gj =? -1) eqn:Esj; [apply IH; [lia | exact Hok | exact Hi]|].
  destruct (_ <? 40); [|apply IH; [lia | exact Hok | exact Hi]].
  pose proof (Hi gi Ei) as Hai.
  destruct (Hok i gi Ei) as [Hsi _].
  assert (Hr1 : refines data (<[i := Gap.with_support gi (Gap.support gi + 1)]> data))
    by (apply refines_insert; [exact Ei | right; lia]).
  assert (Hr2 : refines data (<[j := Gap.with_support gj (-1)]>
                                (<[i := Gap.with_support gi (Gap.support gi + 1)]> data))).
  { eapply refines_trans; [exact Hr1|].
    apply refines_insert; [|left; reflexivity].
    rewrite list_lookup_insert_ne by lia. exact Ej. }
  eapply refines_trans; [exact Hr2|].
  apply IH; [lia | eapply refines_ok; eassumption|].
  intros g Hg.
  rewrite list_lookup_insert_ne in Hg by lia.
  rewrite list_lookup_insert_eq in Hg by (eapply lookup_lt_Some, Ei).
  injection Hg as <-. simpl. lia.
Qed.

Lemma merge_same_step_refines mg data i :
  all_at (fun _ => gap_ok) data -> refines data (merge_same_step mg data i).
Proof.
  intros Hok. unfold merge_same_step.
  destruct (data !! i) as [gi|] eqn:Ei; [|apply refines_refl].
  destruct (Gap.support gi =? -1) eqn:Es; [apply refines_refl|].
  destruct (gap_too_long mg gi).
  - apply refines_insert; [exact Ei | left; reflexivity].
  - apply merge_same_inner_refines; [lia | exact Hok|].
    intros g Hg. rewrite Ei in Hg. injection Hg as <-. lia.
Qed.

Lemma merge_same_refines mg data :
  all_at (fun _ => gap_ok) data -> refines data (merge_same mg data).
Proof.
  intros Hok. unfold merge_same.
  enough (H : refines data (foldl (merge_same_step mg) data (seq 0 (length data)))
              /\ all_at (fun _ => gap_ok)
                        (foldl (merge_same_step mg) data (seq 0 (length data))))
    by exact (proj1 H).
  apply (foldl_invariant (fun d => refines data d /\ all_at (fun _ => gap_ok) d)).
  - split; [apply refines_refl | exact Hok].
  - intros d i [Hr Hd].
    pose proof (merge_same_step_refines mg d i Hd) as Hs.
    split; [eapply refines_trans; eassumption | eapply refines_ok; eassumption].
Qed.

(** The loop over [j] for the break at [i]: when it ends, the break at
    [i] is dropped or no break after it that is left overlaps it. *)
Lemma merge_overlapping_inner_apart i n : forall j data,
  (i < j)%nat -> (length data <= n + j)%nat ->
  all_at (fun _ => gap_ok) data -> ab_sorted data ->
  (forall g, data !! i = Some g -> Gap.support g <> -1) ->
  (forall g k h, data !! i = Some g -> (i < k < j)%nat -> data !! k = Some h ->
                 Gap.support h <> -1 -> Gap.ae g <= Gap.ab h) ->
  refines data (merge_overlapping_inner n i j data)
  /\ (forall g k h, merge_overlapping_inner n i j data !! i = Some g ->
                    Gap.support g <> -1 -> (i < k)%nat ->
                    merge_overlapping_inner n i j data !! k = Some h ->
                    Gap.support h <> -1 -> Gap.ae g <= Gap.ab h).
Proof.
  induction n as [|n IH]; intros j data Hij Hlen Hok Hsort Hi Hbefore; simpl.
  { split; [apply refines_refl|]. intros g k h Hg _ Hk Hh Hah.
    apply (Hbefore g k h Hg); [|exact Hh | exact Hah].
    apply lookup_lt_Some in Hh. lia. }
  case_eq (data !! i);
    [intros gi Ei
    |intros Ei; split; [apply refines_refl | intros g k h Hg; rewrite Ei in Hg; discriminate]].
  case_eq (data !! j); [intros gj Ej | intros Ej].
  2: { split; [apply refines_refl|]. intros g k h Hg _ Hk Hh Hah.
       apply (Hbefore g k h Hg); [|exact Hh | exact Hah].
       apply lookup_lt_Some in Hh. apply lookup_ge_None in Ej. lia. }
  pose proof (Hi gi Ei) as Hai.
  destruct (Hok i gi Ei) as [Hsi Hpi].
  destruct (Hok j gj Ej) as [Hsj Hpj].
  destruct ((Gap.ae gi >? Gap.ab gj) && (Gap.ab gi <? Gap.ae gj)) eqn:Ec.
  2: { split; [apply refines_refl|]. intros g k h Hg _ Hk Hh Hah.
       rewrite Ei in Hg. injection Hg as <-.
       destruct (decide (k < j)%nat) as [Hlt|Hge];
         [apply (Hbefore gi k h Ei); [lia | exact Hh | exact Hah]|].
       assert (Hij' : Gap.ab gi <= Gap.ab gj) by (eapply Hsort; [exact Hij | eassumption..]).
       assert (Hjk : Gap.ab gj <= Gap.ab h).
       { destruct (decide (k = j)) as [->|Hne].
         - rewrite Ej in Hh. injection Hh as <-. lia.
         - apply (Hsort j k gj h); [lia | exact Ej | exact Hh]. }
       apply andb_false_iff in Ec. lia. }
  destruct (Gap.support gj =? -1) eqn:Esj.
  { apply IH; [lia | lia | exact Hok | exact Hsort | exact Hi|].
    intros g k h Hg Hk Hh Hah.
    destruct (decide (k = j)) as [->|Hne].
    - rewrite Ej in Hh. injection Hh as <-. lia.
    - apply (Hbefore g k h Hg); [lia | exact Hh | exact Hah]. }
  destruct (Gap.support gi >? Gap.support gj) eqn:Egt.
  - set (data1 := <[j := Gap.with_support gj (-1)]>
                    (<[i := Gap.with_support gi (Gap.support gi + Gap.support gj)]> data)).
    assert (Hr1 : refines data data1).
    { eapply refines_trans.
      - apply (refines_insert data i gi (Gap.support gi + Gap.support gj));
          [exact Ei | right; lia].
      - apply refines_insert; [|left; reflexivity].
        rewrite list_lookup_insert_ne by lia. exact Ej. }
    assert (Hi1 : data1 !! i = Some (Gap.with_support gi (Gap.support gi + Gap.support gj))).
    { unfold data1. rewrite list_lookup_insert_ne by lia.
      apply list_lookup_insert_eq. eapply lookup_lt_Some, Ei. }
    destruct (IH (S j) data1) as [Hr2 Hfin].
    + lia.
    + unfold data1. rewrite !length_insert. lia.
    + eapply refines_ok; eassumption.
    + eapply refines_sorted; eassumption.
    + intros g Hg. rewrite Hi1 in Hg. injection Hg as <-. simpl. lia.
    + intros g k h Hg Hk Hh Hah. rewrite Hi1 in Hg. injection Hg as <-. simpl.
      destruct (decide (k = j)) as [->|Hne].
      * unfold data1 in Hh. rewrite list_lookup_insert_eq in Hh
          by (rewrite length_insert; eapply lookup_lt_Some, Ej).
        injection Hh as <-. simpl in Hah. lia.
      * destruct (Hr1 k h Hh) as (h0 & Hh0 & Ah & _ & Lh & _).
        rewrite Ah. apply (Hbefore gi k h0 Ei); [lia | exact Hh0 | apply Lh, Hah].
    + split; [eapply refines_trans; eassumption | exact Hfin].
  - split.
    + eapply refines_trans.
      * apply (refines_insert data j gj (Gap.support gj + Gap.support gi));
          [exact Ej | right; lia].
      * apply refines_insert; [|left; reflexivity].
        rewrite list_lookup_insert_ne by lia. exact Ei.
    + intros g k h Hg Hag. exfalso.
      rewrite list_lookup_insert_eq in Hg
        by (rewrite length_insert; eapply lookup_lt_Some, Ei).
      injection Hg as <-. simpl in Hag. lia.
Qed.

Lemma merge_overlapping_step_inv data0 data i :
  (length data <= length data0)%nat ->
  overlap_inv data0 i data -> overlap_inv data0 (S i) (merge_overlapping_step data i).
Proof.
  intros Hlen (Hr & Hok & Hsort & Hap). unfold merge_overlapping_step.
  assert (Hdead : (forall g, data !! i = Some g -> Gap.support g = -1) ->
                  overlap_inv data0 (S i) data).
  { intros Hd. split; [exact Hr|]. split; [exact Hok|]. split; [exact Hsort|].
    intros i' k g h [Hi' Hk] Hg Hh Hag Hah.
    destruct (decide (i' = i)) as [->|Hne]; [specialize (Hd g Hg); lia|].
    apply (Hap i' k g h); [lia | assumption..]. }
  destruct (data !! i) as [gi|] eqn:Ei; [|apply Hdead; intros g Hg; discriminate].
  destruct (Gap.support gi =? -1) eqn:Es.
  { apply Hdead. intros g Hg. injection Hg as <-. lia. }
  destruct (merge_overlapping_inner_apart i (length data - S i) (S i) data) as [Hr' Hfin];
    [lia | lia | exact Hok | exact Hsort | | |].
  - intros g Hg. rewrite Ei in Hg. injection Hg as <-. lia.
  - intros g k h _ Hk. lia.
  - split; [eapply refines_trans; eassumption|].
    split; [eapply refines_ok; eassumption|].
    split; [eapply refines_sorted; eassumption|].
    intros i' k g h [Hi' Hk] Hg Hh Hag Hah.
    destruct (decide (i' = i)) as [->|Hne].
    + apply (Hfin g k h); assumption.
    + apply (refines_apart _ _ _ Hr' Hap i' k g h); [lia | assumption..].
Qed.

Lemma merge_overlapping_apart data :
  all_at (fun _ => gap_ok) data -> ab_sorted data ->
  refines data (merge_overlapping data)
  /\ apart (fun i k => (i < k)%nat) (merge_overlapping data).
Proof.
  intros Hok Hsort. unfold merge_overlapping.
  assert (H : (fun i d => (length d <= length data)%nat /\ overlap_inv data i d)
                (0 + length data)%nat
                (foldl merge_overlapping_step data (seq 0 (length data)))).
  { apply (foldl_seq_invariant
             (fun i d => (length d <= length data)%nat /\ overlap_inv data i d)).
    - intros i d [Hlen Hinv]. split; [|apply merge_overlapping_step_inv; assumption].
      unfold merge_overlapping_step.
      destruct (d !! i); [|exact Hlen].
      destruct (_ =? -1); [exact Hlen|].
      rewrite length_merge_overlapping_inner. exact Hlen.
    - split; [lia|]. split; [apply refines_refl|]. split; [exact Hok|].
      split; [exact Hsort|]. intros i k g h [Hi _]. lia. }
  destruct H as [Hlen (Hr & _ & _ & Hap)].
  split; [exact Hr|].
  intros i k g h Hik Hg Hh. apply (Hap i k g h); [|exact Hg | exact Hh].
  split; [|exact Hik]. apply lookup_lt_Some in Hg. lia.
Qed.

Lemma drop_spanned_refines ovl data : refines data (drop_spanned ovl data).
Proof.
  intros k g' H. unfold drop_spanned in H.
  apply list_lookup_fmap_Some in H as (g & -> & Hg).
  exists g. split; [exact Hg|].
  destruct (_ >? 10); [apply weaker_support; left; reflexivity | apply weaker_refl].
Qed.

Lemma sorted_by_ab_index data : sorted_by_ab data -> ab_sorted data.
Proof.
  intros H. induction H as [|x l Hl IH Hx]; intros i k g h Hik Hg Hh.
  - rewrite lookup_nil in Hg. discriminate.
  - destruct k as [|k]; [lia|]. simpl in Hh.
    destruct i as [|i]; simpl in Hg.
    + injection Hg as <-. rewrite Forall_forall in Hx.
      apply Hx. eapply list_elem_of_lookup_2, Hh.
    + apply (IH i k g h); [lia | assumption..].
Qed.

(** The candidates of a list that a filter for candidates not dropped
    keeps are in order and do not overlap, if those not dropped are. *)
Lemma apart_filter (f : Gap -> bool) data :
  (forall g, f g = true -> Gap.support g <> -1) ->
  apart (fun i k => (i < k)%nat) data ->
  StronglySorted (fun g h => Gap.ae g <= Gap.ab h) (List.filter f data).
Proof.
  intros Hf. induction data as [|x l IH]; intros Hap; simpl; [constructor|].
  assert (Hl : apart (fun i k => (i < k)%nat) l).
  { intros i k g h Hik Hg Hh. apply (Hap (S i) (S k) g h); [lia | exact Hg | exact Hh]. }
  destruct (f x) eqn:Ex; [|apply IH, Hl].
  constructor; [apply IH, Hl|].
  apply Forall_forall. intros h Hh.
  apply list_elem_of_In, filter_In in Hh as [Hin Hfh].
  apply list_elem_of_In, list_elem_of_lookup in Hin as [k Hk].
  apply (Hap 0%nat (S k) x h); [lia | reflexivity | exact Hk | apply Hf, Ex | apply Hf, Hfh].
Qed.

Lemma find_gaps_ok fctx ovl :
  0 < twidth fctx -> Forall gap_ok (find_gaps fctx ovl).
Proof.
  intros Htw. apply find_gaps_Forall. intros o1 o2 g H.
  destruct (gap_between_proper _ _ _ _ Htw H) as [Ha _].
  split; [right; rewrite (gap_between_support _ _ _ _ H); lia | exact Ha].
Qed.

(** The breaks the merger leaves, in their order, do not overlap. *)
Lemma merged_gaps_apart fctx ovl :
  0 < twidth fctx ->
  StronglySorted (fun g h => Gap.ae g <= Gap.ab h) (merged_gaps fctx ovl).
Proof.
  intros Htw. unfold merged_gaps, keep_supported.
  set (d0 := qsort (find_gaps fctx ovl)).
  assert (Hok0 : all_at (fun _ => gap_ok) d0).
  { apply Forall_all_at, qsort_place, find_gaps_ok, Htw. }
  assert (Hs0 : ab_sorted d0) by apply sorted_by_ab_index, qsort_sorted.
  pose proof (merge_same_refines (maxgap fctx) d0 Hok0) as Hr1.
  destruct (merge_overlapping_apart (merge_same (maxgap fctx) d0)) as [Hr2 Hap];
    [eapply refines_ok; eassumption | eapply refines_sorted; eassumption|].
  apply apart_filter.
  - intros g Hg. apply andb_prop in Hg as [Hg _]. lia.
  - eapply refines_apart; [apply drop_spanned_refines | exact Hap].
Qed.

(** X8. Candidate disjointness after merging: the breaks the merger
    leaves follow one another in A without overlap, each ending at or
    before the begin of the next. *)
Theorem merged_gaps_disjoint (fctx : FixContext) (ovl : list Overlap) :
  0 < twidth fctx ->
  StronglySorted (fun g h => Gap.ae g <= Gap.ab h) (merged_gaps fctx ovl)
  /\ Forall (fun g => Gap.ab g < Gap.ae g) (merged_gaps fctx ovl).
Proof.
  intros Htw. split; [apply merged_gaps_apart, Htw|].
  apply (merged_gaps_place (fun g => Gap.ab g < Gap.ae g)); [intros g s H; exact H|].
  eapply Forall_impl; [apply find_gaps_ok, Htw|]. intros g [_ H]. exact H.
Qed.

(** ** Candidates for weak segments *)

Lemma at_Z_middle {A : Type} (pre : list A) (x : A) (rest : list A) :
  at_Z (pre ++ x :: rest) (Z.of_nat (length pre)) = Some x.
Proof.
  unfold at_Z. pose proof (Nat2Z.is_nonneg (length pre)) as Hn.
  destruct (Z.of_nat (length pre) <? 0) eqn:E; [apply Z.ltb_lt in E; lia|].
  rewrite Nat2Z.id. apply list_lookup_middle. reflexivity.
Qed.

Lemma at_Z_elem {A : Type} (l : list A) (i : Z) (x : A) : at_Z l i = Some x -> x ∈ l.
Proof.
  unfold at_Z. destruct (i <? 0); [discriminate|]. apply list_elem_of_lookup_2.
Qed.

Lemma weak_border_inv ovl ab ae o st :
  donor_inv ovl ab ae st -> donor_inv ovl ab ae (weak_border ab ae o st).
Proof.
  intros (H1 & H2 & H3). unfold weak_border.
  destruct (_ || _); [|repeat split; assumption].
  unfold donor_inv. simpl. split; [exact H1|]. split; [lia | exact H3].
Qed.

(** A B-interval whose segments carry Q has a begin before its end. *)
Lemma q_sum_nonzero fctx r tw bb be :
  0 < tw ->
  (let qs := q_values fctx r (Z.quot bb tw) (Z.quot be tw) in
   if existsb (fun q => q =? 0) qs then 0 else foldl Z.add 0 qs) <> 0 ->
  bb < be.
Proof.
  intros Htw H. destruct (Z_lt_le_dec bb be) as [Hlt|Hle]; [exact Hlt|].
  exfalso. apply H. cbv zeta.
  assert (Hq : Z.quot be tw <= Z.quot bb tw) by (apply Z.quot_le_mono; lia).
  unfold q_values, for_range.
  replace (Z.to_nat (Z.quot be tw - Z.quot bb tw)) with 0%nat by lia.
  reflexivity.
Qed.

Lemma weak_donor_inv fctx ovl ab ae st j o st' :
  0 < twidth fctx -> at_Z ovl j = Some o ->
  donor_inv ovl ab ae st ->
  weak_donor fctx ab ae st j o = Some st' ->
  donor_inv ovl ab ae st'.
Proof.
  intros Htw Hj Hst H. unfold weak_donor in H.
  destruct ((abpos (path o) + 100 <=? ab) && (aepos (path o) - 100 >=? ae)) eqn:Ec.
  2: { injection H as <-. apply weak_border_inv, Hst. }
  apply andb_prop in Ec as [Ec1 Ec2].
  destruct (locate_segment _ _ _ _ _ _ _ _) as [[bb be]|]; [|discriminate]. simpl in H.
  destruct (bb =? -1); [discriminate|].
  set (blen := DB_READ_LEN (db fctx) (bread o)) in *.
  destruct (if is_comp o then (blen - be, blen - bb) else (bb, be)) as [bb' be'] eqn:Ef.
  match type of H with
  | (if ?q =? 0 then _ else _) = _ => destruct (q =? 0) eqn:Eq
  end.
  { injection H as <-. exact Hst. }
  injection H as <-. apply weak_border_inv.
  destruct Hst as (H1 & H2 & H3).
  destruct (_ || _).
  - unfold donor_inv. simpl. split; [lia|]. split; [exact H2|].
    right. exists o. split; [exact Hj|]. split; [lia|]. split; [lia|].
    split; [|lia].
    eapply (q_sum_nonzero fctx (bread o) (twidth fctx)); [exact Htw|]. cbv zeta. lia.
  - unfold donor_inv. simpl. split; [lia|]. split; [exact H2|].
    destruct H3 as [H3|(o' & Ho' & Ha & Hb & Hc & Hd)]; [left; exact H3|].
    right. exists o'. repeat split; try assumption; lia.
Qed.

Lemma weak_scan_inv fctx ab ae rest : forall pre st st',
  0 < twidth fctx ->
  donor_inv (pre ++ rest) ab ae st ->
  weak_scan fctx ab ae rest (Z.of_nat (length pre)) st = Some st' ->
  donor_inv (pre ++ rest) ab ae st'.
Proof.
  induction rest as [|o rest IH]; intros pre st st' Htw Hst H; simpl in H.
  - injection H as <-. exact Hst.
  - destruct (weak_donor fctx ab ae st (Z.of_nat (length pre)) o) as [st1|] eqn:E;
      [|discriminate]. simpl in H.
    pose proof (weak_donor_inv fctx (pre ++ o :: rest) ab ae st _ o st1 Htw
                  (at_Z_middle pre o rest) Hst E) as Hst1.
    replace (pre ++ o :: rest) with ((pre ++ [o]) ++ rest) in *
      by (rewrite <- app_assoc; reflexivity).
    apply (IH (pre ++ [o]) st1 st' Htw Hst1).
    rewrite length_app. simpl.
    replace (Z.of_nat (length pre + 1)) with (Z.of_nat (length pre) + 1) by lia.
    exact H.
Qed.

Lemma weak_segment_shape fctx ovl data i data' :
  0 < twidth fctx ->
  weak_segment fctx ovl data i = Some data' ->
  data' = data \/ exists g, data' = data ++ [g] /\ weak_shape fctx ovl data g.
Proof.
  intros Htw H. unfold weak_segment in H.
  destruct (negb _ && _) eqn:Eq; [injection H as <-; left; reflexivity|].
  destruct (existsb _ data) eqn:Ee; [injection H as <-; left; reflexivity|].
  destruct (weak_scan _ _ _ _ _ _) as [st|] eqn:Es; [|discriminate]. simpl in H.
  destruct (ovl_q_min st =? -1) eqn:Em; [injection H as <-; left; reflexivity|].
  destruct (at_Z ovl (ovl_q_min st)) as [ovlrep|] eqn:Eo; [|discriminate]. simpl in H.
  injection H as <-. right. eexists. split; [reflexivity|].
  assert (Hinv : donor_inv ovl (i * twidth fctx) ((i + 1) * twidth fctx) st).
  { eapply (weak_scan_inv fctx _ _ ovl [] _ st Htw); [|exact Es].
    unfold donor_inv. simpl. split; [lia|]. split; [lia|]. left. reflexivity. }
  destruct Hinv as (Hs & Hb & [Hm|(o & Ho & Ha & He & Hbb & Hsp)]); [lia|].
  rewrite Eo in Ho. injection Ho as <-.
  unfold weak_shape. simpl.
  split; [exists i; split; [reflexivity|]; split; [reflexivity|]|].
  { apply andb_false_iff in Eq as [Eq|Eq]; [left | right]; lia. }
  split.
  { apply Forall_forall. intros h Hh.
    destruct (Z_lt_le_dec (Gap.ae h) (i * twidth fctx)) as [H1|H1]; [left; exact H1|].
    destruct (Z_lt_le_dec ((i + 1) * twidth fctx) (Gap.ab h)) as [H2|H2]; [right; exact H2|].
    exfalso.
    assert (Ht : existsb (fun g => (Gap.ab g <=? (i + 1) * twidth fctx)
                                   && (Gap.ae g >=? i * twidth fctx)) data = true).
    { apply existsb_exists. exists h. split; [apply list_elem_of_In, Hh|].
      apply andb_true_intro. split; lia. }
    rewrite Ee in Ht. discriminate. }
  split.
  { exists ovlrep. split; [eapply at_Z_elem, Eo|]. repeat split; assumption. }
  repeat split; assumption.
Qed.

(** The candidates for weak segments that the scan appends to [data0]. *)
Lemma find_weak_shape fctx ovl trim_ab trim_ae data0 data :
  0 < twidth fctx ->
  find_weak fctx ovl trim_ab trim_ae data0 = Some data ->
  exists weak,
    data = data0 ++ weak
    /\ forall pre g post, weak = pre ++ g :: post -> weak_shape fctx ovl (data0 ++ pre) g.
Proof.
  intros Htw H. unfold find_weak in H.
  destruct (skip_zero_up _ _ _) as [seg_first|]; [|discriminate]. simpl in H.
  destruct (skip_zero_down _ _ _) as [seg_last|]; [|discriminate]. simpl in H.
  revert data H.
  apply (foldl_invariant
           (fun acc : option (list Gap) =>
              forall d, acc = Some d ->
                exists weak,
                  d = data0 ++ weak
                  /\ forall pre g post, weak = pre ++ g :: post ->
                                        weak_shape fctx ovl (data0 ++ pre) g)).
  - intros d Hd. injection Hd as <-. exists []. split; [symmetry; apply app_nil_r|].
    intros pre g post Hw. destruct pre; discriminate.
  - intros acc i Hacc d Hd.
    destruct acc as [d0|]; [|discriminate]. simpl in Hd.
    destruct (Hacc d0 eq_refl) as (w0 & -> & Hw0).
    destruct (weak_segment_shape _ _ _ _ _ Htw Hd) as [->|(g & -> & Hg)].
    + exists w0. split; [reflexivity | exact Hw0].
    + exists (w0 ++ [g]). split; [symmetry; apply app_assoc|].
      intros pre g' post Hw.
      destruct post as [|x post].
      * apply app_inj_tail in Hw as [<- <-]. exact Hg.
      * assert (Hw' : w0 ++ [g] = (pre ++ g' :: removelast (x :: post)) ++ [List.last (x :: post) x]).
        { rewrite Hw. rewrite <- app_assoc. simpl. f_equal. f_equal.
          change (x :: post = removelast (x :: post) ++ [List.last (x :: post) x]).
          apply app_removelast_last. discriminate. }
        apply app_inj_tail in Hw' as [Hw' _].
        apply (Hw0 pre g' _ Hw').
Qed.

Lemma foldl_invariant_in {A B : Type} (P : A -> Prop) (f : A -> B -> A) (l : list B) (a : A) :
  P a -> (forall x y, y ∈ l -> P x -> P (f x y)) -> P (foldl f a l).
Proof.
  revert a. induction l as [|y l IH]; intros a Ha Hf; simpl; [exact Ha|].
  apply IH.
  - apply Hf; [apply list_elem_of_here | exact Ha].
  - intros x z Hz. apply Hf. apply list_elem_of_further, Hz.
Qed.

Lemma for_range_elem lo hi i : i ∈ for_range lo hi -> lo <= i < hi.
Proof.
  unfold for_range. intros H.
  apply list_elem_of_fmap in H as (k & -> & Hk).
  apply elem_of_seq in Hk. lia.
Qed.

Lemma skip_zero_up_ge fuel qa : forall s r, skip_zero_up fuel qa s = Some r -> s <= r /\ qa r <> 0.
Proof.
  induction fuel as [|fuel IH]; intros s r H; simpl in H; [discriminate|].
  destruct (qa s =? 0) eqn:E.
  - apply IH in H. lia.
  - injection H as <-. lia.
Qed.

Lemma skip_zero_down_le fuel qa : forall s r,
  skip_zero_down fuel qa s = Some r -> r <= s /\ qa (r - 1) <> 0.
Proof.
  induction fuel as [|fuel IH]; intros s r H; simpl in H; [discriminate|].
  destruct (qa (s - 1) =? 0) eqn:E.
  - apply IH in H. lia.
  - injection H as <-. lia.
Qed.

Lemma weak_segment_index fctx ovl data i data' g :
  weak_segment fctx ovl data i = Some data' -> g ∈ data' ->
  g ∈ data \/ Gap.ab g = i * twidth fctx /\ Gap.ae g = (i + 1) * twidth fctx.
Proof.
  unfold weak_segment. intros H Hg.
  destruct (negb _ && _); [injection H as <-; left; exact Hg|].
  destruct (existsb _ data); [injection H as <-; left; exact Hg|].
  destruct (weak_scan _ _ _ _ _ _) as [st|]; [|discriminate]. simpl in H.
  destruct (ovl_q_min st =? -1); [injection H as <-; left; exact Hg|].
  destruct (at_Z ovl (ovl_q_min st)) as [ovlrep|]; [|discriminate]. simpl in H.
  injection H as <-.
  apply elem_of_app in Hg as [Hg|Hg]; [left; exact Hg|].
  apply list_elem_of_singleton in Hg as ->. right. split; reflexivity.
Qed.

(** The candidates for weak segments are segments between the first and
    the last segment of the trim that carry Q. *)
Lemma find_weak_range fctx ovl trim_ab trim_ae data0 data g :
  find_weak fctx ovl trim_ab trim_ae data0 = Some data -> g ∈ data ->
  g ∈ data0
  \/ exists i, Z.quot trim_ab (twidth fctx) <= i < Z.quot trim_ae (twidth fctx)
               /\ Gap.ab g = i * twidth fctx /\ Gap.ae g = (i + 1) * twidth fctx.
Proof.
  intros H. unfold find_weak in H.
  destruct (skip_zero_up _ _ _) as [seg_first|] eqn:E1; [|discriminate]. simpl in H.
  destruct (skip_zero_down _ _ _) as [seg_last|] eqn:E2; [|discriminate]. simpl in H.
  apply skip_zero_up_ge in E1 as [E1 _]. apply skip_zero_down_le in E2 as [E2 _].
  revert data H g.
  apply (foldl_invariant_in
           (fun acc : option (list Gap) =>
              forall d, acc = Some d -> forall g, g ∈ d ->
                g ∈ data0
                \/ exists i, Z.quot trim_ab (twidth fctx) <= i < Z.quot trim_ae (twidth fctx)
                             /\ Gap.ab g = i * twidth fctx
                             /\ Gap.ae g = (i + 1) * twidth fctx)).
  - intros d Hd g Hg. injection Hd as <-. left. exact Hg.
  - intros acc i Hi Hacc d Hd g Hg.
    destruct acc as [d0|]; [|discriminate]. simpl in Hd.
    apply for_range_elem in Hi.
    destruct (weak_segment_index _ _ _ _ _ _ Hd Hg) as [Hg0|Hg0].
    + apply (Hacc d0 eq_refl g Hg0).
    + right. exists i. split; [lia | exact Hg0].
Qed.

(** X9. Every candidate for a weak segment covers exactly one segment
    of A, a segment whose Q is 0 or at least [lowq] and that lies between
    the first and the last segment of the trim; it keeps clear of every
    candidate found before it, by at least one base; its donor is an
    overlap of the group that extends at least 100 bases beyond the
    segment on both sides, and the B-interval taken from it is not empty.
    These candidates follow the breaks the merger left. *)
Theorem weak_candidates_shape (fctx : FixContext) (ovl : list Overlap)
    (trim_ab trim_ae : Z) (data : list Gap) :
  0 < twidth fctx ->
  candidates fctx ovl trim_ab trim_ae = Some data ->
  exists weak,
    data = merged_gaps fctx ovl ++ weak
    /\ (forall pre g post, weak = pre ++ g :: post ->
          weak_shape fctx ovl (merged_gaps fctx ovl ++ pre) g)
    /\ Forall (fun g => Z.quot trim_ab (twidth fctx) * twidth fctx <= Gap.ab g
                        /\ Gap.ae g <= Z.quot trim_ae (twidth fctx) * twidth fctx) weak.
Proof.
  intros Htw H. unfold candidates in H.
  destruct (find_weak_shape _ _ _ _ _ _ Htw H) as (weak & -> & Hshape).
  exists weak. split; [reflexivity|]. split; [exact Hshape|].
  apply Forall_forall. intros g Hg.
  destruct (list_elem_of_split _ _ Hg) as (pre & post & ->).
  destruct (find_weak_range _ _ _ _ _ _ g H) as [Hin|(i & Hi & Ha & He)].
  - apply elem_of_app. right. exact Hg.
  - exfalso.
    destruct (Hshape pre g post eq_refl) as (_ & Hclear & _ & _).
    rewrite Forall_forall in Hclear.
    assert (Hm : g ∈ merged_gaps fctx ovl ++ pre) by (apply elem_of_app; left; exact Hin).
    specialize (Hclear g Hm).
    destruct (Hshape pre g post eq_refl) as ((i & Ha & He & _) & _).
    nia.
  - rewrite Ha, He. nia.
Qed.

Lemma weak_candidates_shape_witness :
  0 < twidth S2_ctx
  /\ candidates S2_ctx S2_ovl 0 400 = Some S2_cands
  /\ length S2_cands = 1%nat
  /\ exists weak,
       S2_cands = merged_gaps S2_ctx S2_ovl ++ weak
       /\ (forall pre g post, weak = pre ++ g :: post ->
             weak_shape S2_ctx S2_ovl (merged_gaps S2_ctx S2_ovl ++ pre) g)
       /\ Forall (fun g => Z.quot 0 (twidth S2_ctx) * twidth S2_ctx <= Gap.ab g
                           /\ Gap.ae g <= Z.quot 400 (twidth S2_ctx) * twidth S2_ctx) weak.
Proof.
  assert (H1 : 0 < twidth S2_ctx) by (vm_compute; reflexivity).
  assert (H2 : candidates S2_ctx S2_ovl 0 400 = Some S2_cands) by (vm_compute; reflexivity).
  split; [exact H1|]. split; [exact H2|]. split; [vm_compute; reflexivity|].
  exact (weak_candidates_shape S2_ctx S2_ovl 0 400 S2_cands H1 H2).
Defined.

(** ** The candidates in the patch loop *)

Lemma strongly_sorted_weaken {A : Type} (R R' : A -> A -> Prop) (l : list A) :
  (forall x y, R x y -> R' x y) -> StronglySorted R l -> StronglySorted R' l.
Proof.
  intros HR H. induction H as [|x l Hl IH Hx]; constructor; [exact IH|].
  eapply Forall_impl; [exact Hx | exact (HR x)].
Qed.

Lemma strongly_sorted_both {A : Type} (R1 R2 : A -> A -> Prop) (l : list A) :
  StronglySorted R1 l -> StronglySorted R2 l ->
  StronglySorted (fun x y => R1 x y /\ R2 x y) l.
Proof.
  intros H1. induction H1 as [|x l Hl IH Hx]; intros H2; [constructor|].
  apply StronglySorted_cons in H2 as [Hx2 H2].
  constructor; [apply IH, H2|].
  rewrite Forall_forall in *. intros y Hy. split; [apply Hx, Hy | apply Hx2, Hy].
Qed.

Lemma disjoint_A_sym g h : disjoint_A g h -> disjoint_A h g.
Proof. unfold disjoint_A. lia. Qed.

Lemma insert_gap_disjoint g l :
  Forall (disjoint_A g) l -> StronglySorted disjoint_A l ->
  StronglySorted disjoint_A (insert_gap g l).
Proof.
  intros Hg H. induction H as [|h l Hl IH Hh]; simpl; [repeat constructor|].
  apply Forall_cons in Hg as [Hgh Hg].
  destruct (cmp_gaps g h <=? 0).
  - constructor; [constructor; assumption|]. constructor; assumption.
  - constructor; [apply IH, Hg|].
    apply Forall_forall. intros y Hy.
    apply insert_gap_elem in Hy as [->|Hy]; [apply disjoint_A_sym, Hgh|].
    rewrite Forall_forall in Hh. apply Hh, Hy.
Qed.

Lemma qsort_disjoint l : StronglySorted disjoint_A l -> StronglySorted disjoint_A (qsort l).
Proof.
  intros H. unfold qsort. induction H as [|g l Hl IH Hg]; simpl; [constructor|].
  apply insert_gap_disjoint; [|exact IH].
  apply (qsort_place (disjoint_A g)), Hg.
Qed.

(** Candidates in the order of [cmp_gaps] that do not overlap follow one
    another in A. *)
Lemma sorted_disjoint_follow l :
  Forall (fun g => Gap.ab g < Gap.ae g) l ->
  StronglySorted disjoint_A l ->
  StronglySorted (fun x y => cmp_gaps x y <= 0) l ->
  StronglySorted (fun g h => Gap.ae g <= Gap.ab h) l.
Proof.
  intros Hp Hd Hc.
  pose proof (strongly_sorted_both _ _ _ Hd Hc) as H. clear Hd Hc.
  induction H as [|x l Hl IH Hx]; [constructor|].
  apply Forall_cons in Hp as [Hpx Hp].
  constructor; [apply IH, Hp|].
  rewrite Forall_forall in *. intros y Hy.
  destruct (Hx y Hy) as [Hd Hc]. specialize (Hp y Hy). simpl in Hp.
  apply cmp_gaps_le in Hc. unfold disjoint_A in Hd. lia.
Qed.

Lemma count_span_follow ovl data :
  StronglySorted (fun g h => Gap.ae g <= Gap.ab h) data ->
  StronglySorted (fun g h => Gap.ae g <= Gap.ab h) (count_span ovl data).
Proof.
  intros H. unfold count_span. apply foldl_invariant; [exact H|].
  intros d o Hd.
  eapply StronglySorted_fmap; [|exact Hd].
  intros x y Hxy. destruct (_ && _); destruct (_ && _); simpl; exact Hxy.
Qed.

Lemma count_span_proper ovl data :
  Forall (fun g => Gap.ab g < Gap.ae g) data ->
  Forall (fun g => Gap.ab g < Gap.ae g) (count_span ovl data).
Proof.
  intros H. unfold count_span. apply foldl_invariant; [exact H|].
  intros d o Hd. apply Forall_fmap.
  eapply Forall_impl; [exact Hd|]. intros g Hg. simpl.
  destruct (_ && _); exact Hg.
Qed.

Lemma weak_shape_proper fctx ovl data g :
  0 < twidth fctx -> weak_shape fctx ovl data g ->
  Gap.ab g < Gap.ae g /\ Forall (fun h => disjoint_A h g) data.
Proof.
  intros Htw ((i & Ha & He & _) & Hclear & _). split; [nia|].
  eapply Forall_impl; [exact Hclear|]. intros h Hh. unfold disjoint_A. simpl in Hh. lia.
Qed.

(** The candidates handed to the patching phase do not overlap and none
    is empty. *)
Lemma candidates_disjoint fctx ovl trim_ab trim_ae data :
  0 < twidth fctx ->
  candidates fctx ovl trim_ab trim_ae = Some data ->
  StronglySorted disjoint_A data /\ Forall (fun g => Gap.ab g < Gap.ae g) data.
Proof.
  intros Htw H. unfold candidates in H.
  destruct (find_weak_shape _ _ _ _ _ _ Htw H) as (weak & -> & Hshape). clear H.
  pose proof (merged_gaps_apart fctx ovl Htw) as Hm.
  assert (Hmp : Forall (fun g => Gap.ab g < Gap.ae g) (merged_gaps fctx ovl)).
  { apply (merged_gaps_place (fun g => Gap.ab g < Gap.ae g)); [intros g s H; exact H|].
    eapply Forall_impl; [apply find_gaps_ok, Htw|]. intros g [_ H]. exact H. }
  apply (strongly_sorted_weaken _ disjoint_A) in Hm; [|intros x y Hxy; left; exact Hxy].
  revert Hshape. induction weak as [|g weak IH] using rev_ind; intros Hshape.
  - rewrite app_nil_r. split; assumption.
  - destruct IH as [IH1 IH2].
    { intros pre g' post Hw. apply (Hshape pre g' (post ++ [g])).
      rewrite Hw, <- app_assoc. reflexivity. }
    destruct (weak_shape_proper fctx ovl _ g Htw (Hshape weak g [] eq_refl)) as [Hg Hd].
    rewrite app_assoc. split.
    + apply StronglySorted_app. split; [|split; [exact IH1 | repeat constructor]].
      intros x y Hx Hy. apply list_elem_of_singleton in Hy as ->.
      rewrite Forall_forall in Hd. apply Hd, Hx.
    + apply Forall_app. split; [exact IH2|]. constructor; [exact Hg | constructor].
Qed.

Lemma candidates_follow fctx ovl trim_ab trim_ae data :
  0 < twidth fctx ->
  candidates fctx ovl trim_ab trim_ae = Some data ->
  StronglySorted (fun g h => Gap.ae g <= Gap.ab h) (count_span ovl (qsort data))
  /\ Forall (fun g => Gap.ab g < Gap.ae g) (count_span ovl (qsort data)).
Proof.
  intros Htw H.
  destruct (candidates_disjoint _ _ _ _ _ Htw H) as [Hd Hp].
  assert (Hp' : Forall (fun g => Gap.ab g < Gap.ae g) (qsort data)) by apply qsort_place, Hp.
  split; [|apply count_span_proper, Hp'].
  apply count_span_follow, sorted_disjoint_follow;
    [exact Hp' | apply qsort_disjoint, Hd | apply qsort_cmp_sorted].
Qed.

(** X10. The candidates handed to the patch loop, breaks and weak
    segments together, sorted as the loop reads them, are none of them
    empty and follow one another in A without overlap: each ends at or
    before the begin of every later one. *)
Theorem patch_candidates_disjoint (fctx : FixContext) (ovl : list Overlap)
    (trim_ab trim_ae : Z) (data : list Gap) :
  0 < twidth fctx ->
  candidates fctx ovl trim_ab trim_ae = Some data ->
  StronglySorted (fun g h => Gap.ae g <= Gap.ab h) (count_span ovl (qsort data))
  /\ Forall (fun g => Gap.ab g < Gap.ae g) (count_span ovl (qsort data)).
Proof. apply candidates_follow. Qed.

Lemma patch_candidates_disjoint_witness :
  0 < twidth S2_ctx
  /\ candidates S2_ctx S2_ovl 0 400 = Some S2_cands
  /\ length S2_cands = 1%nat
  /\ StronglySorted (fun g h => Gap.ae g <= Gap.ab h) (count_span S2_ovl (qsort S2_cands))
  /\ Forall (fun g => Gap.ab g < Gap.ae g) (count_span S2_ovl (qsort S2_cands)).
Proof.
  assert (H1 : 0 < twidth S2_ctx) by (vm_compute; reflexivity).
  assert (H2 : candidates S2_ctx S2_ovl 0 400 = Some S2_cands) by (vm_compute; reflexivity).
  split; [exact H1|]. split; [exact H2|]. split; [vm_compute; reflexivity|].
  exact (patch_candidates_disjoint S2_ctx S2_ovl 0 400 S2_cands H1 H2).
Defined.

Lemma merged_gaps_disjoint_witness :
  0 < twidth G5_ctx
  /\ length (merged_gaps G5_ctx G5_ovl) = 1%nat
  /\ StronglySorted (fun g h => Gap.ae g <= Gap.ab h) (merged_gaps G5_ctx G5_ovl)
  /\ Forall (fun g => Gap.ab g < Gap.ae g) (merged_gaps G5_ctx G5_ovl).
Proof.
  assert (H1 : 0 < twidth G5_ctx) by (vm_compute; reflexivity).
  split; [exact H1|]. split; [vm_compute; reflexivity|].
  exact (merged_gaps_disjoint G5_ctx G5_ovl H1).
Defined.

(** ** The assertion of the patch loop *)

(** With candidates that follow one another in A, and a cursor at or
    before every candidate the loop does not skip, [ab <= ae] holds
    whenever the loop asserts it. *)
Lemma patch_loop_runs fctx reada trim_ab trim_ae data :
  StronglySorted (fun g h => Gap.ae g <= Gap.ab h) data ->
  forall st,
    Forall (fun h => trim_ab <= Gap.ab h -> cur_ab st <= Gap.ab h) data ->
    exists st', patch_loop fctx reada trim_ab trim_ae data st = Some st'.
Proof.
  intros Hs. induction Hs as [|g rest Hrest IH Hg]; intros st Hcur; simpl.
  - exists st. reflexivity.
  - apply Forall_cons in Hcur as [Hcg _].
    destruct (trim_ab >? Gap.ab g) eqn:E1.
    + apply IH. simpl.
      eapply Forall_impl; [exact Hg|]. simpl. intros h Hh _. exact Hh.
    + destruct (trim_ae <? Gap.ae g) eqn:E2; [exists st; reflexivity|].
      assert (Hc : cur_ab st <= Gap.ab g) by (apply Hcg; lia).
      set (ab := if (trim_ab <? Gap.ab g) && (trim_ab >? cur_ab st)
                 then trim_ab else cur_ab st).
      assert (Hab : ab <= Gap.ab g).
      { subst ab. destruct ((trim_ab <? Gap.ab g) && (trim_ab >? cur_ab st)); lia. }
      destruct (ab >? Gap.ab g) eqn:E3; [lia|].
      apply IH. simpl.
      eapply Forall_impl; [exact Hg|]. simpl. intros h Hh _. exact Hh.
Qed.

Lemma follow_sorted_by_ab data :
  Forall (fun g => Gap.ab g < Gap.ae g) data ->
  StronglySorted (fun g h => Gap.ae g <= Gap.ab h) data ->
  sorted_by_ab data /\ Forall gap_ab_le_ae data.
Proof.
  intros Hp Hs. split.
  - unfold sorted_by_ab. induction Hs as [|g rest Hrest IH Hg]; [constructor|].
    apply Forall_cons in Hp as [Hpg Hp].
    constructor; [apply IH, Hp|].
    eapply Forall_impl; [exact Hg|]. simpl. intros h Hh. simpl in Hpg. lia.
  - eapply Forall_impl; [exact Hp|]. unfold gap_ab_le_ae. simpl. intros g Hg. lia.
Qed.

(** X11. The assertion [ab <= ae] of the patch loop never fails on the
    candidates the earlier phases hand to it: the loop runs to its end,
    and the triples of [apatches] it records are not empty and follow
    one another in A without overlap. *)
Theorem patch_assertion_holds (fctx : FixContext) (ovl : list Overlap)
    (trim_ab trim_ae : Z) (data : list Gap) :
  0 < twidth fctx ->
  candidates fctx ovl trim_ab trim_ae = Some data ->
  exists st,
    patch fctx (group_aread ovl) trim_ab trim_ae (count_span ovl (qsort data)) = Some st
    /\ splice_ordered (apatches st).
Proof.
  intros Htw H.
  destruct (candidates_follow _ _ _ _ _ Htw H) as [Hs Hp].
  destruct (patch_loop_runs fctx (Load_Read (db fctx) (group_aread ovl)) trim_ab trim_ae
              _ Hs (patch_start trim_ab)) as [st0 E].
  { apply Forall_forall. intros h _ Hh. exact Hh. }
  assert (Hpatch : exists st, patch fctx (group_aread ovl) trim_ab trim_ae
                                (count_span ovl (qsort data)) = Some st).
  { unfold patch. rewrite E. simpl. eexists. reflexivity. }
  destruct Hpatch as [st Hst]. exists st. split; [exact Hst|].
  destruct (follow_sorted_by_ab _ Hp Hs) as [H1 H2].
  exact (patch_ordered _ _ _ _ _ _ H1 H2 Hst).
Qed.

Lemma patch_assertion_holds_witness :
  0 < twidth S2_ctx
  /\ candidates S2_ctx S2_ovl 0 400 = Some S2_cands
  /\ S2_cands <> []
  /\ exists st,
       patch S2_ctx (group_aread S2_ovl) 0 400 (count_span S2_ovl (qsort S2_cands)) = Some st
       /\ splice_ordered (apatches st).
Proof.
  assert (H1 : 0 < twidth S2_ctx) by (vm_compute; reflexivity).
  assert (H2 : candidates S2_ctx S2_ovl 0 400 = Some S2_cands) by (vm_compute; reflexivity).
  split; [exact H1|]. split; [exact H2|]. split; [vm_compute; discriminate|].
  exact (patch_assertion_holds S2_ctx S2_ovl 0 400 S2_cands H1 H2).
Defined.

(** ** The triples and the trim *)

Lemma patch_loop_below fctx reada trim_ab trim_ae data :
  Forall gap_ab_le_ae data ->
  forall st st',
    Forall (fun p => pa_ae p <= trim_ae) (apatches st) ->
    patch_loop fctx reada trim_ab trim_ae data st = Some st' ->
    Forall (fun p => pa_ae p <= trim_ae) (apatches st').
Proof.
  intros Hwf. induction Hwf as [|g rest Hg Hrest IH]; intros st st' Hst H; simpl in H.
  - injection H as <-. exact Hst.
  - destruct (trim_ab >? Gap.ab g); [eapply IH; [|exact H]; exact Hst|].
    destruct (trim_ae <? Gap.ae g) eqn:E2; [injection H as <-; exact Hst|].
    destruct (_ >? Gap.ab g); [discriminate|].
    eapply IH; [|exact H]. unfold gap_ab_le_ae in Hg.
    destruct (_ <? Gap.ab g); simpl; [|exact Hst].
    apply Forall_app. split; [exact Hst|].
    constructor; [simpl; lia | constructor].
Qed.

Lemma patch_loop_above fctx reada trim_ab trim_ae data :
  Forall gap_ab_le_ae data ->
  Forall (fun g => Gap.ab g < trim_ab -> trim_ab <= Gap.ae g) data ->
  forall st st',
    trim_ab <= cur_ab st ->
    Forall (fun p => trim_ab <= pa_ab p) (apatches st) ->
    patch_loop fctx reada trim_ab trim_ae data st = Some st' ->
    trim_ab <= cur_ab st' /\ Forall (fun p => trim_ab <= pa_ab p) (apatches st').
Proof.
  intros Hwf. induction Hwf as [|g rest Hg Hrest IH]; intros Hend st st' Hcur Hst H;
    simpl in H.
  - injection H as <-. split; assumption.
  - apply Forall_cons in Hend as [Hgend Hend]. unfold gap_ab_le_ae in Hg.
    destruct (trim_ab >? Gap.ab g) eqn:E1.
    { eapply IH; [exact Hend | | | exact H]; simpl; [lia | exact Hst]. }
    destruct (trim_ae <? Gap.ae g) eqn:E2; [injection H as <-; split; assumption|].
    set (ab := if (trim_ab <? Gap.ab g) && (trim_ab >? cur_ab st)
               then trim_ab else cur_ab st) in *.
    assert (Hab : trim_ab <= ab).
    { subst ab. destruct ((trim_ab <? Gap.ab g) && (trim_ab >? cur_ab st)); lia. }
    destruct (ab >? Gap.ab g); [discriminate|].
    eapply IH; [exact Hend | | | exact H].
    + simpl. lia.
    + destruct (ab <? Gap.ab g); simpl; [|exact Hst].
      apply Forall_app. split; [exact Hst|].
      constructor; [simpl; exact Hab | constructor].
Qed.

(** X12. No triple of [apatches] reaches beyond the end of the trim.
    None begins before the trim either if every candidate that begins
    before the trim ends in it or after it; the cursor, which a skipped
    candidate leaves at its end, is then never before the trim. *)
Theorem patch_within_trim (fctx : FixContext) (a trim_ab trim_ae : Z)
    (data : list Gap) (st : Patched) :
  Forall gap_ab_le_ae data ->
  patch fctx a trim_ab trim_ae data = Some st ->
  Forall (fun p => pa_ae p <= trim_ae) (apatches st)
  /\ (Forall (fun g => Gap.ab g < trim_ab -> trim_ab <= Gap.ae g) data ->
      Forall (fun p => trim_ab <= pa_ab p) (apatches st)).
Proof.
  intros Hwf H. unfold patch in H.
  destruct (patch_loop _ _ _ _ _ _) as [st0|] eqn:E; [|discriminate].
  simpl in H. injection H as <-. split.
  - assert (H0 : Forall (fun p => pa_ae p <= trim_ae) (apatches st0)).
    { eapply patch_loop_below; [exact Hwf | | exact E]. constructor. }
    destruct (cur_ab st0 <? trim_ae); [|exact H0]. simpl.
    apply Forall_app. split; [exact H0|].
    constructor; [simpl; lia | constructor].
  - intros Hend.
    destruct (patch_loop_above fctx (Load_Read (db fctx) a) trim_ab trim_ae data Hwf Hend
                (patch_start trim_ab) st0) as [Hc H0];
      [simpl; lia | constructor | exact E |].
    destruct (cur_ab st0 <? trim_ae); [|exact H0]. simpl.
    apply Forall_app. split; [exact H0|].
    constructor; [simpl; exact Hc | constructor].
Qed.

Lemma patch_within_trim_witness :
  Forall gap_ab_le_ae (count_span S2_ovl (qsort S2_cands))
  /\ patch S2_ctx 1 0 400 (count_span S2_ovl (qsort S2_cands)) = Some S2_patched
  /\ length (apatches S2_patched) = 2%nat
  /\ Forall (fun p => pa_ae p <= 400) (apatches S2_patched)
  /\ (Forall (fun g => Gap.ab g < 0 -> 0 <= Gap.ae g) (count_span S2_ovl (qsort S2_cands)) ->
      Forall (fun p => 0 <= pa_ab p) (apatches S2_patched)).
Proof.
  assert (H1 : Forall gap_ab_le_ae (count_span S2_ovl (qsort S2_cands)))
    by (vm_compute; repeat constructor; discriminate).
  assert (H2 : patch S2_ctx 1 0 400 (count_span S2_ovl (qsort S2_cands)) = Some S2_patched)
    by (vm_compute; reflexivity).
  split; [exact H1|]. split; [exact H2|]. split; [vm_compute; reflexivity|].
  exact (patch_within_trim S2_ctx 1 0 400 _ S2_patched H1 H2).
Defined.

(** ** Candidates before the trim *)

Lemma patch_loop_all_skipped fctx reada trim_ab trim_ae data :
  Forall (fun h => Gap.ab h < trim_ab) data ->
  forall st,
    patch_loop fctx reada trim_ab trim_ae data st
    = Some (match last data with
            | Some g => move_cursor st (Gap.ae g)
            | None => st
            end).
Proof.
  intros H. induction H as [|g rest Hg Hrest IH]; intros st; simpl; [reflexivity|].
  destruct (trim_ab >? Gap.ab g) eqn:E; [|lia].
  rewrite IH. destruct rest as [|h rest]; [reflexivity|].
  change (last (g :: h :: rest)) with (last (h :: rest)).
  case_eq (last (h :: rest)); [intros t Ht; reflexivity | intros Ht].
  apply last_None in Ht. discriminate.
Qed.

(** X13. When every candidate begins before the trim, none is spliced
    in, and the patched read is A from the end of the last candidate to
    the end of the trim, wherever that candidate ends: before the begin
    of the trim as well. *)
Theorem patch_all_before_trim (fctx : FixContext) (a trim_ab trim_ae : Z)
    (data : list Gap) (g : Gap) :
  Forall (fun h => Gap.ab h < trim_ab) data ->
  last data = Some g ->
  exists st,
    patch fctx a trim_ab trim_ae data = Some st
    /\ num_gaps st = 0
    /\ if Gap.ae g <? trim_ae
       then apatches st = [ {| pa_ab := Gap.ae g; pa_ae := trim_ae; pa_off := 0 |} ]
            /\ read st = slice (Load_Read (db fctx) a) (Gap.ae g) (trim_ae - Gap.ae g)
       else apatches st = [] /\ read st = [].
Proof.
  intros H Hl. unfold patch.
  rewrite (patch_loop_all_skipped _ _ _ _ _ H), Hl. simpl.
  eexists. split; [reflexivity|].
  destruct (Gap.ae g <? trim_ae); simpl; repeat split; reflexivity.
Qed.

Lemma patch_all_before_trim_witness :
  Forall (fun h => Gap.ab h < 150) [early_gap]
  /\ last [early_gap] = Some early_gap
  /\ exists st,
       patch S2_ctx 1 150 400 [early_gap] = Some st
       /\ num_gaps st = 0
       /\ apatches st = [ {| pa_ab := 100; pa_ae := 400; pa_off := 0 |} ]
       /\ read st = slice (Load_Read (db S2_ctx) 1) 100 300.
Proof.
  assert (H1 : Forall (fun h => Gap.ab h < 150) [early_gap])
    by (repeat constructor).
  assert (H2 : last [early_gap] = Some early_gap) by reflexivity.
  split; [exact H1|]. split; [exact H2|].
  destruct (patch_all_before_trim S2_ctx 1 150 400 [early_gap] early_gap H1 H2)
    as (st & Hp & Hn & Hr).
  exists st. split; [exact Hp|]. split; [exact Hn|]. exact Hr.
Defined.

(** ** The length of the patched read and the counters *)

Lemma patch_loop_accounting fctx reada trim_ab trim_ae data :
  Forall (fun g => trim_ab <= Gap.ab g /\ Gap.ab g <= Gap.ae g) data ->
  forall st st',
    trim_ab <= cur_ab st <= trim_ae ->
    patch_loop fctx reada trim_ab trim_ae data st = Some st' ->
    trim_ab <= cur_ab st' <= trim_ae
    /\ rlen st' - cur_ab st' + stats_bases_before st' - stats_bases_after st'
       = rlen st - cur_ab st + stats_bases_before st - stats_bases_after st
    /\ num_gaps st' = num_gaps st + Z.of_nat (length (spliced trim_ab trim_ae data))
    /\ stats_bases_before st'
       = stats_bases_before st + sum_replaced (spliced trim_ab trim_ae data)
    /\ stats_bases_after st'
       = stats_bases_after st + sum_donor (spliced trim_ab trim_ae data).
Proof.
  intros Hwf. induction Hwf as [|g rest [Hg1 Hg2] Hrest IH]; intros st st' Hcur H;
    simpl in H |- *.
  - injection H as <-. simpl. lia.
  - destruct (trim_ab >? Gap.ab g) eqn:E1; [lia|].
    destruct (trim_ae <? Gap.ae g) eqn:E2; [injection H as <-; simpl; lia|].
    replace ((trim_ab <? Gap.ab g) && (trim_ab >? cur_ab st)) with false in H
      by (symmetry; apply andb_false_iff; right; lia).
    destruct (cur_ab st >? Gap.ab g) eqn:E3; [discriminate|].
    apply IH in H; [|simpl; lia].
    destruct H as (Hc & Hlen & Hn & Hb & Ha).
    split; [exact Hc|].
    unfold sum_replaced, sum_donor in *. simpl length. simpl foldr.
    destruct (cur_ab st <? Gap.ab g) eqn:E4; simpl in Hlen, Hn, Hb, Ha; lia.
Qed.

(** X14. When no candidate begins before the trim, the patched read has
    the length of the trim, less the bases of A replaced, plus the bases
    of the donors; and for this read [num_gaps], [stats_bases_before]
    and [stats_bases_after] grow by the number of candidates spliced in,
    by the bases of A they replace and by the bases of their donors. *)
Theorem patch_length_accounting (fctx : FixContext) (a trim_ab trim_ae : Z)
    (data : list Gap) (st : Patched) :
  trim_ab <= trim_ae ->
  Forall (fun g => trim_ab <= Gap.ab g /\ Gap.ab g <= Gap.ae g) data ->
  patch fctx a trim_ab trim_ae data = Some st ->
  rlen st = (trim_ae - trim_ab) - stats_bases_before st + stats_bases_after st
  /\ num_gaps st = Z.of_nat (length (spliced trim_ab trim_ae data))
  /\ stats_bases_before st = sum_replaced (spliced trim_ab trim_ae data)
  /\ stats_bases_after st = sum_donor (spliced trim_ab trim_ae data).
Proof.
  intros Ht Hwf H. unfold patch in H.
  destruct (patch_loop _ _ _ _ _ _) as [st0|] eqn:E; [|discriminate].
  simpl in H. injection H as <-.
  apply (patch_loop_accounting _ _ _ _ _ Hwf) in E; [|simpl; lia].
  destruct E as (Hc & Hlen & Hn & Hb & Ha). simpl in Hlen, Hn, Hb, Ha.
  destruct (cur_ab st0 <? trim_ae) eqn:E; simpl; lia.
Qed.

Lemma patch_length_accounting_witness :
  0 <= 400
  /\ Forall (fun g => 0 <= Gap.ab g /\ Gap.ab g <= Gap.ae g)
            (count_span S2_ovl (qsort S2_cands))
  /\ patch S2_ctx 1 0 400 (count_span S2_ovl (qsort S2_cands)) = Some S2_patched
  /\ num_gaps S2_patched = 1
  /\ rlen S2_patched
     = (400 - 0) - stats_bases_before S2_patched + stats_bases_after S2_patched.
Proof.
  assert (H1 : Forall (fun g => 0 <= Gap.ab g /\ Gap.ab g <= Gap.ae g)
                      (count_span S2_ovl (qsort S2_cands)))
    by (vm_compute; repeat constructor; discriminate).
  assert (H2 : patch S2_ctx 1 0 400 (count_span S2_ovl (qsort S2_cands)) = Some S2_patched)
    by (vm_compute; reflexivity).
  split; [lia|]. split; [exact H1|]. split; [exact H2|]. split; [vm_compute; reflexivity|].
  exact (proj1 (patch_length_accounting S2_ctx 1 0 400 _ S2_patched ltac:(lia) H1 H2)).
Defined.

(** ** The sanity check of the adjusted intervals *)

Lemma triple_in_read_mono n m p : n <= m -> triple_in_read n p -> triple_in_read m p.
Proof. unfold triple_in_read. lia. Qed.

Lemma patch_loop_offsets fctx reada trim_ab trim_ae data :
  Forall (fun g => Gap.bb g <= Gap.be g) data ->
  forall st st',
    0 <= rlen st -> Forall (triple_in_read (rlen st)) (apatches st) ->
    patch_loop fctx reada trim_ab trim_ae data st = Some st' ->
    0 <= rlen st' /\ Forall (triple_in_read (rlen st')) (apatches st').
Proof.
  intros Hwf. induction Hwf as [|g rest Hg Hrest IH]; intros st st' Hr Hst H; simpl in H.
  - injection H as <-. split; assumption.
  - destruct (trim_ab >? Gap.ab g); [eapply IH; [| |exact H]; assumption|].
    destruct (trim_ae <? Gap.ae g); [injection H as <-; split; assumption|].
    set (ab := if (trim_ab <? Gap.ab g) && (trim_ab >? cur_ab st)
               then trim_ab else cur_ab st) in *.
    destruct (ab >? Gap.ab g); [discriminate|].
    destruct (ab <? Gap.ab g) eqn:E; (eapply IH; [| |exact H]); simpl; try lia.
    + apply Forall_app. split.
      * eapply Forall_impl; [exact Hst|]. intros p. apply triple_in_read_mono. lia.
      * constructor; [|constructor]. unfold triple_in_read. simpl. lia.
    + eapply Forall_impl; [exact Hst|]. intros p. apply triple_in_read_mono. lia.
Qed.

(** The triples a run of the patch loop records lie in the patched
    read. *)
Lemma patch_offsets fctx a trim_ab trim_ae data st :
  Forall (fun g => Gap.bb g <= Gap.be g) data ->
  patch fctx a trim_ab trim_ae data = Some st ->
  0 <= rlen st /\ Forall (triple_in_read (rlen st)) (apatches st).
Proof.
  intros Hwf H. unfold patch in H.
  destruct (patch_loop _ _ _ _ _ _) as [st0|] eqn:E; [|discriminate].
  simpl in H. injection H as <-.
  destruct (patch_loop_offsets fctx (Load_Read (db fctx) a) trim_ab trim_ae data Hwf
              (patch_start trim_ab) st0) as [Hr Hst];
    [simpl; lia | constructor | exact E |].
  destruct (cur_ab st0 <? trim_ae) eqn:E1; simpl; [|split; assumption].
  split; [lia|]. apply Forall_app. split.
  - eapply Forall_impl; [exact Hst|]. intros p. apply triple_in_read_mono. lia.
  - constructor; [|constructor]. unfold triple_in_read. simpl. lia.
Qed.

(** Both ends the loop over the triples computes for an interval that
    is not empty lie in the patched read, or the end is not set; the
    begin is set whenever the end is. *)
Lemma adjust_loop_range R ib ie ps :
  ib < ie -> Forall (triple_in_read R) ps ->
  forall prev b0 b e,
    match prev with Some q => triple_in_read R q | None => True end ->
    b0 = -1 \/ 0 <= b0 <= R ->
    adjust_loop ib ie prev ps b0 (-1) = (b, e) ->
    (b = -1 /\ e = -1 \/ 0 <= b <= R) /\ (e = -1 \/ 0 <= e <= R).
Proof.
  intros Hlt Hps. induction Hps as [|p rest Hp Hrest IH]; intros prev b0 b e Hprev Hb0 H;
    simpl in H.
  - injection H as <- <-. split; [|left; reflexivity].
    destruct Hb0 as [->|Hb0]; [left; split; reflexivity | right; exact Hb0].
  - pose proof Hp as (Hp1 & Hp2 & Hp3).
    set (b1 := if (b0 =? -1) && (ib <? pa_ae p)
               then pa_off p + (Z.max ib (pa_ab p) - pa_ab p) else b0) in *.
    assert (Hb1 : b1 = -1 \/ 0 <= b1 <= R).
    { subst b1. destruct ((b0 =? -1) && (ib <? pa_ae p)) eqn:E; [|exact Hb0].
      right. apply andb_true_iff in E as [_ E]. lia. }
    assert (Hset : ie <= pa_ae p -> 0 <= b1 <= R).
    { intros Hie. subst b1. destruct (b0 =? -1) eqn:E0.
      - destruct (ib <? pa_ae p) eqn:E1; [simpl; lia | lia].
      - simpl. destruct Hb0 as [Hb0|Hb0]; [lia | exact Hb0]. }
    destruct (ie <=? pa_ae p) eqn:E2; simpl in H.
    + assert (Hb1' : 0 <= b1 <= R) by (apply Hset; lia).
      destruct prev as [q|].
      * destruct Hprev as (Hq1 & Hq2 & Hq3).
        destruct (ie <? pa_ab p) eqn:E3.
        { injection H as <- <-. split; right; lia. }
        destruct (ie >? pa_ab p) eqn:E4.
        { injection H as <- <-. split; right; lia. }
        eapply IH; [| |exact H]; [exact Hp | exact Hb1].
      * destruct (ie >? pa_ab p) eqn:E4.
        { injection H as <- <-. split; right; lia. }
        eapply IH; [| |exact H]; [exact Hp | exact Hb1].
    + eapply IH; [| |exact H]; [exact Hp | exact Hb1].
Qed.

Lemma adjust_interval_sane R ps ib ie b e :
  ib < ie -> Forall (triple_in_read R) ps ->
  adjust_interval ps R (ib, ie) <> Some (Insane b e).
Proof.
  intros Hlt Hps H. unfold adjust_interval in H.
  destruct (head ps) as [first|]; [|discriminate]. simpl in H.
  destruct (last ps) as [last_|]; [|discriminate]. simpl in H.
  destruct (_ || _); [discriminate|].
  destruct (adjust_loop ib ie None ps (-1) (-1)) as [b' e'] eqn:E.
  apply (adjust_loop_range R) in E; [|exact Hlt | exact Hps | exact I | left; reflexivity].
  destruct (e' - b' >? MIN_INT_LEN) eqn:E1; [|discriminate].
  destruct ((b' <? 0) || (b' >? R) || (b' >? e') || (e' >? R)) eqn:E2; [|discriminate].
  unfold MIN_INT_LEN in E1.
  repeat (apply orb_true_iff in E2 as [E2|E2]); lia.
Qed.

Lemma adjust_intervals_sane R ps ivs :
  Forall (fun iv : Z * Z => iv.1 < iv.2) ivs -> Forall (triple_in_read R) ps ->
  adjust_intervals ps R ivs <> Exit1.
Proof.
  intros Hivs Hps. induction Hivs as [|[ib ie] ivs Hiv Hivs IH]; [simpl; congruence|].
  pose proof (fun b e => adjust_interval_sane R ps ib ie b e Hiv Hps) as Hne.
  cbn [adjust_intervals].
  destruct (adjust_interval ps R (ib, ie)) as [[| |b e|b e]|]; try exact IH; try congruence.
  - destruct (adjust_intervals ps R ivs); congruence.
  - exfalso. exact (Hne b e eq_refl).
Qed.

Lemma adjust_tracks_sane R ps a ts :
  Forall (fun t => Forall (fun iv : Z * Z => iv.1 < iv.2) (track_intervals t a)) ts ->
  Forall (triple_in_read R) ps ->
  adjust_tracks ps R a ts <> Exit1.
Proof.
  intros Hts Hps. induction Hts as [|t ts Ht Hts IH]; [simpl; congruence|].
  pose proof (adjust_intervals_sane R ps _ Ht Hps) as Hne.
  cbn [adjust_tracks].
  destruct (adjust_intervals ps R (track_intervals t a)); [|contradiction|congruence].
  destruct (adjust_tracks ps R a ts); congruence.
Qed.

Lemma count_span_b ovl data :
  Forall (fun g => Gap.bb g <= Gap.be g) data ->
  Forall (fun g => Gap.bb g <= Gap.be g) (count_span ovl data).
Proof.
  intros H. unfold count_span. apply foldl_invariant; [exact H|].
  intros d o Hd. apply Forall_fmap.
  eapply Forall_impl; [exact Hd|]. intros g Hg. simpl.
  destruct (_ && _); exact Hg.
Qed.

(** The donor of every candidate is an interval of B that is not
    empty. *)
Lemma candidates_donor fctx ovl trim_ab trim_ae data :
  0 < twidth fctx ->
  candidates fctx ovl trim_ab trim_ae = Some data ->
  Forall (fun g => Gap.bb g < Gap.be g) data.
Proof.
  intros Htw H. unfold candidates in H.
  destruct (find_weak_shape _ _ _ _ _ _ Htw H) as (weak & -> & Hshape). clear H.
  apply Forall_app. split.
  - apply (merged_gaps_place (fun g => Gap.bb g < Gap.be g)); [intros g s H; exact H|].
    apply find_gaps_Forall. intros o1 o2 g H.
    destruct (gap_between_proper _ _ _ _ Htw H) as [_ Hb]. exact Hb.
  - apply Forall_forall. intros g Hg.
    apply list_elem_of_split in Hg as (pre & post & ->).
    destruct (Hshape pre g post eq_refl) as (_ & _ & _ & Hb & _). exact Hb.
Qed.

(** X15. [fix_process] exits with a message only from the checks of
    the tracks of A before the breaks are located: when they pass and no
    interval of a track to convert is empty, the check of the adjusted
    intervals never fails, whatever the overlaps. *)
Theorem fixed_header_check_passes (fctx : FixContext) (ovl : list Overlap)
    (trim_ab trim_ae : Z) :
  0 < twidth fctx ->
  Forall (fun t => Forall (fun iv : Z * Z => iv.1 < iv.2)
                          (track_intervals t (group_aread ovl)))
         (convertTracks fctx) ->
  tracks_sane fctx (group_aread ovl) trim_ab trim_ae = true ->
  fix_patch fctx ovl trim_ab trim_ae <> Failed.
Proof.
  intros Htw Hts Hsane. unfold fix_patch. rewrite Hsane. simpl.
  destruct (candidates fctx ovl trim_ab trim_ae) as [data|] eqn:Ec; [|discriminate].
  assert (Hfixed : write_fixed fctx ovl trim_ab trim_ae data <> Failed).
  { unfold write_fixed.
    destruct (patch _ _ _ _ _) as [st|] eqn:Ep; [|discriminate].
    destruct (rlen st >=? minlen fctx); [|discriminate].
    assert (Hb : Forall (fun g => Gap.bb g <= Gap.be g) (count_span ovl (qsort data))).
    { apply count_span_b, qsort_place.
      eapply Forall_impl; [exact (candidates_donor _ _ _ _ _ Htw Ec)|].
      simpl. intros g Hg. lia. }
    destruct (patch_offsets _ _ _ _ _ _ Hb Ep) as [_ Hps].
    pose proof (adjust_tracks_sane (rlen st) (apatches st) (group_aread ovl) _ Hts Hps)
      as Hne.
    destruct (adjust_tracks _ _ _ _); congruence. }
  destruct data as [|g data]; [|exact Hfixed].
  unfold write_trimmed. destruct (_ >=? _); discriminate.
Qed.

Lemma fixed_header_check_passes_witness :
  0 < twidth S2_rep_ctx
  /\ Forall (fun t => Forall (fun iv : Z * Z => iv.1 < iv.2)
                             (track_intervals t (group_aread S2_ovl)))
            (convertTracks S2_rep_ctx)
  /\ tracks_sane S2_rep_ctx (group_aread S2_ovl) 0 400 = true
  /\ (exists f, fix_patch S2_rep_ctx S2_ovl 0 400 = Written f
                /\ tracks f = [("REP"%string, [(50, 300)])])
  /\ fix_patch S2_rep_ctx S2_ovl 0 400 <> Failed.
Proof.
  assert (H1 : 0 < twidth S2_rep_ctx) by (vm_compute; reflexivity).
  assert (H2 : Forall (fun t => Forall (fun iv : Z * Z => iv.1 < iv.2)
                                       (track_intervals t (group_aread S2_ovl)))
                      (convertTracks S2_rep_ctx))
    by (vm_compute; repeat constructor).
  assert (H3 : tracks_sane S2_rep_ctx (group_aread S2_ovl) 0 400 = true)
    by (vm_compute; reflexivity).
  split; [exact H1|]. split; [exact H2|]. split; [exact H3|].
  split; [eexists; split; vm_compute; reflexivity|].
  exact (fixed_header_check_passes S2_rep_ctx S2_ovl 0 400 H1 H2 H3).
Defined.

(** ** Intervals across triples *)

(** The loop passes the triples that end before [ie], and at or before
    [ib] while the begin is not set, without setting an end. *)
Lemma adjust_loop_pass ib ie l rest :
  forall prev b,
    Forall (fun r => pa_ae r < ie /\ (b = -1 -> pa_ae r <= ib)) l ->
    adjust_loop ib ie prev (l ++ rest) b (-1)
    = adjust_loop ib ie (match last l with Some r => Some r | None => prev end) rest b (-1).
Proof.
  induction l as [|r l IH]; intros prev b H; [reflexivity|].
  apply Forall_cons in H as [[Hr1 Hr2] H].
  cbn [app adjust_loop].
  replace ((b =? -1) && (ib <? pa_ae r)) with false
    by (symmetry; destruct (b =? -1) eqn:E; [simpl; lia | reflexivity]).
  replace (((-1) =? -1) && (ie <=? pa_ae r)) with false by (symmetry; simpl; lia).
  rewrite (IH (Some r) b H).
  destruct l as [|r' l]; [reflexivity|].
  change (last (r :: r' :: l)) with (last (r' :: l)).
  case_eq (last (r' :: l)); [reflexivity | intros Hn].
  apply last_None in Hn. discriminate.
Qed.

(** The same for the end alone, whatever becomes of the begin. *)
Lemma adjust_loop_pass_end ib ie l rest :
  forall prev b,
    Forall (fun r => pa_ae r < ie) l ->
    exists b',
      adjust_loop ib ie prev (l ++ rest) b (-1)
      = adjust_loop ib ie (match last l with Some r => Some r | None => prev end) rest b' (-1).
Proof.
  induction l as [|r l IH]; intros prev b H; [exists b; reflexivity|].
  apply Forall_cons in H as [Hr H].
  cbn [app adjust_loop].
  replace (((-1) =? -1) && (ie <=? pa_ae r)) with false by (symmetry; simpl; lia).
  destruct (IH (Some r) (if (b =? -1) && (ib <? pa_ae r)
                         then pa_off r + (Z.max ib (pa_ab r) - pa_ab r) else b) H)
    as [b' Hb'].
  exists b'. rewrite Hb'.
  destruct l as [|r' l]; [reflexivity|].
  change (last (r :: r' :: l)) with (last (r' :: l)).
  case_eq (last (r' :: l)); [reflexivity | intros Hn].
  apply last_None in Hn. discriminate.
Qed.

Lemma splice_ordered_middle ps1 p ps2 :
  splice_ordered (ps1 ++ p :: ps2) ->
  Forall (fun r => pa_ae r <= pa_ab p) ps1
  /\ pa_ab p < pa_ae p
  /\ Forall (fun r => pa_ae p <= pa_ab r) ps2
  /\ splice_ordered ps2.
Proof.
  intros [Hne Hs].
  apply Forall_app in Hne as [_ Hne]. apply Forall_cons in Hne as [Hp Hne2].
  apply StronglySorted_app in Hs as (H12 & _ & Hs2).
  apply StronglySorted_cons in Hs2 as [Hp2 Hs2].
  split; [|split; [exact Hp | split; [exact Hp2 | split; assumption]]].
  apply Forall_forall. intros r Hr.
  exact (H12 r p Hr (list_elem_of_here _ _)).
Qed.

(** X16. An interval that begins in one triple of [apatches] and ends
    in a later one is moved end by end: the begin by the offset of the
    triple it lies in, the end by the offset of the triple it lies in,
    so that it grows or shrinks by what the donors between them add or
    take. *)
Theorem adjust_across_triples (ps1 mid ps2 : list APatch) (pj pk : APatch) (ib ie : Z) :
  splice_ordered (ps1 ++ pj :: mid ++ pk :: ps2) ->
  0 <= pa_off pj ->
  pa_ab pj <= ib < pa_ae pj ->
  pa_ab pk < ie <= pa_ae pk ->
  adjust_loop ib ie None (ps1 ++ pj :: mid ++ pk :: ps2) (-1) (-1)
  = (pa_off pj + (ib - pa_ab pj), pa_off pk + (ie - pa_ab pk)).
Proof.
  intros Hord Hoff Hib Hie.
  destruct (splice_ordered_middle _ _ _ Hord) as (H1 & Hj & H2 & Hord2).
  apply Forall_app in H2 as [Hmid H2]. apply Forall_cons in H2 as [Hjk _].
  destruct (splice_ordered_middle _ _ _ Hord2) as (Hmk & Hk & _ & _).
  rewrite adjust_loop_pass.
  2:{ eapply Forall_impl; [exact H1|]. simpl. intros r Hr. split; [lia | intros _; lia]. }
  cbn [adjust_loop].
  replace (((-1) =? -1) && (ib <? pa_ae pj)) with true by (symmetry; simpl; lia).
  replace (((-1) =? -1) && (ie <=? pa_ae pj)) with false by (symmetry; simpl; lia).
  replace (Z.max ib (pa_ab pj)) with ib by lia.
  rewrite adjust_loop_pass.
  2:{ eapply Forall_impl; [exact Hmk|]. simpl. intros r Hr. split; [lia | intros Hb; lia]. }
  cbn [adjust_loop].
  replace ((pa_off pj + (ib - pa_ab pj) =? -1) && (ib <? pa_ae pk)) with false
    by (symmetry; apply andb_false_iff; left; lia).
  replace (((-1) =? -1) && (ie <=? pa_ae pk)) with true by (symmetry; simpl; lia).
  destruct (last mid) as [q|].
  - destruct (ie <? pa_ab pk) eqn:E3; [lia|].
    destruct (ie >? pa_ab pk) eqn:E4; [reflexivity | lia].
  - destruct (ie <? pa_ab pk) eqn:E3; [lia|].
    destruct (ie >? pa_ab pk) eqn:E4; [reflexivity | lia].
Qed.

Lemma adjust_across_triples_witness :
  let pj := {| pa_ab := 0; pa_ae := 100; pa_off := 0 |} in
  let pk := {| pa_ab := 200; pa_ae := 400; pa_off := 200 |} in
  apatches S2_patched = [] ++ pj :: [] ++ pk :: []
  /\ splice_ordered ([] ++ pj :: [] ++ pk :: [])
  /\ adjust_loop 50 300 None ([] ++ pj :: [] ++ pk :: []) (-1) (-1)
     = (pa_off pj + (50 - pa_ab pj), pa_off pk + (300 - pa_ab pk)).
Proof.
  intros pj pk.
  assert (H1 : splice_ordered ([] ++ pj :: [] ++ pk :: [])).
  { split; simpl; repeat constructor; simpl; lia. }
  split; [vm_compute; reflexivity|]. split; [exact H1|].
  apply (adjust_across_triples [] [] [] pj pk 50 300 H1); simpl; lia.
Defined.

(** X17. An interval that ends exactly where a triple of [apatches]
    begins, with another triple after it, gets the end of that triple in
    the patched read as its end: neither branch of the loop takes
    [ie == apatches[j]], and at the next triple [ie] lies before it. *)
Theorem adjust_end_at_triple_begin (ps1 ps2 : list APatch) (p q : APatch) (ib ie : Z) :
  splice_ordered (ps1 ++ p :: q :: ps2) ->
  Forall (fun r => pa_ae r < pa_ab p) ps1 ->
  ie = pa_ab p ->
  snd (adjust_loop ib ie None (ps1 ++ p :: q :: ps2) (-1) (-1))
  = pa_off p + (pa_ae p - pa_ab p).
Proof.
  intros Hord Hps1 ->.
  destruct (splice_ordered_middle _ _ _ Hord) as (_ & Hp & H2 & Hord2).
  apply Forall_cons in H2 as [Hpq _].
  destruct (splice_ordered_middle [] q ps2 Hord2) as (_ & Hq & _).
  destruct (adjust_loop_pass_end ib (pa_ab p) ps1 (p :: q :: ps2) None (-1) Hps1)
    as [b' ->].
  cbn [adjust_loop].
  replace (((-1) =? -1) && (pa_ab p <=? pa_ae p)) with true by (symmetry; simpl; lia).
  replace (((-1) =? -1) && (pa_ab p <=? pa_ae q)) with true by (symmetry; simpl; lia).
  replace (pa_ab p <? pa_ab p) with false by (symmetry; lia).
  replace (pa_ab p >? pa_ab p) with false by (symmetry; lia).
  replace (pa_ab p <? pa_ab q) with true by (symmetry; lia).
  destruct (last ps1); reflexivity.
Qed.

Lemma adjust_end_at_triple_begin_witness :
  let o := {| pa_ab := 0; pa_ae := 100; pa_off := 0 |} in
  let p := {| pa_ab := 200; pa_ae := 300; pa_off := 200 |} in
  let q := {| pa_ab := 400; pa_ae := 500; pa_off := 400 |} in
  splice_ordered ([o] ++ p :: q :: [])
  /\ Forall (fun r => pa_ae r < pa_ab p) [o]
  /\ snd (adjust_loop 120 200 None ([o] ++ p :: q :: []) (-1) (-1)) = 300
  /\ adjust_interval ([o] ++ p :: q :: []) 500 (120, 200) = Some (Keep 200 300).
Proof.
  intros o p q.
  assert (H1 : splice_ordered ([o] ++ p :: q :: [])).
  { split; simpl; repeat constructor; simpl; lia. }
  assert (H2 : Forall (fun r => pa_ae r < pa_ab p) [o])
    by (repeat constructor; simpl; lia).
  split; [exact H1|]. split; [exact H2|].
  split; [|vm_compute; reflexivity].
  exact (adjust_end_at_triple_begin [o] [] p q 120 200 H1 H2 eq_refl).
Defined.

(** ** The header of a trimmed read *)

Lemma trim_intervals_origin trim_ab trim_ae ivs :
  Forall (fun iv : Z * Z =>
            exists ib ie, (ib, ie) ∈ ivs /\ trim_ab <= ie /\ ib <= trim_ae
                          /\ iv.1 = Z.max 0 (ib - trim_ab)
                          /\ iv.2 = Z.min (ie - trim_ab) (trim_ae - trim_ab))
         (trim_intervals trim_ab trim_ae ivs).
Proof.
  induction ivs as [|[ib ie] ivs IH]; simpl; [constructor|].
  assert (IH' : Forall (fun iv : Z * Z =>
                          exists ib' ie', (ib', ie') ∈ (ib, ie) :: ivs
                                          /\ trim_ab <= ie' /\ ib' <= trim_ae
                                          /\ iv.1 = Z.max 0 (ib' - trim_ab)
                                          /\ iv.2 = Z.min (ie' - trim_ab) (trim_ae - trim_ab))
                       (trim_intervals trim_ab trim_ae ivs)).
  { eapply Forall_impl; [exact IH|]. simpl. intros iv (ib' & ie' & Hin & H).
    exists ib', ie'. split; [apply list_elem_of_further, Hin | exact H]. }
  destruct (ie - trim_ab <? 0) eqn:E1; [exact IH'|].
  destruct ((if ib - trim_ab <? 0 then 0 else ib - trim_ab) >? trim_ae - trim_ab) eqn:E2;
    [constructor|].
  constructor; [|exact IH'].
  exists ib, ie. split; [apply list_elem_of_here|]. simpl.
  destruct (ib - trim_ab <? 0) eqn:E3;
    destruct (ie - trim_ab >? trim_ae - trim_ab) eqn:E4; lia.
Qed.

Lemma length_trim_intervals trim_ab trim_ae ivs :
  (length (trim_intervals trim_ab trim_ae ivs) <= length ivs)%nat.
Proof.
  induction ivs as [|[ib ie] ivs IH]; simpl; [lia|].
  destruct (_ <? 0); [lia|]. destruct (_ >? _); simpl; lia.
Qed.

(** X18. The header of a trimmed read lists intervals of the track
    that meet the trim, each moved by the begin of the trim and cut to
    the trim, in the order of the track and none twice; the intervals
    listed lie in the trimmed read if those of the track are
    well-formed. *)
Theorem trimmed_intervals_clipped (trim_ab trim_ae : Z) (ivs : list (Z * Z)) :
  trim_ab <= trim_ae ->
  Forall (fun iv : Z * Z => iv.1 <= iv.2) ivs ->
  Forall (fun iv : Z * Z =>
            (0 <= iv.1 /\ iv.1 <= iv.2 /\ iv.2 <= trim_ae - trim_ab)
            /\ exists ib ie, (ib, ie) ∈ ivs /\ trim_ab <= ie /\ ib <= trim_ae
                             /\ iv.1 = Z.max 0 (ib - trim_ab)
                             /\ iv.2 = Z.min (ie - trim_ab) (trim_ae - trim_ab))
         (trim_intervals trim_ab trim_ae ivs)
  /\ (length (trim_intervals trim_ab trim_ae ivs) <= length ivs)%nat.
Proof.
  intros Ht Hwf. split; [|apply length_trim_intervals].
  pose proof (trim_intervals_bounds trim_ab trim_ae ivs Ht Hwf) as H1.
  pose proof (trim_intervals_origin trim_ab trim_ae ivs) as H2.
  rewrite Forall_forall in *. intros iv Hiv. split; [apply H1, Hiv | apply H2, Hiv].
Qed.

Lemma trimmed_intervals_clipped_witness :
  150 <= 400
  /\ Forall (fun iv : Z * Z => iv.1 <= iv.2) [(20, 60); (100, 200); (380, 450)]
  /\ trim_intervals 150 400 [(20, 60); (100, 200); (380, 450)] = [(0, 50); (230, 250)]
  /\ Forall (fun iv : Z * Z => 0 <= iv.1 /\ iv.1 <= iv.2 /\ iv.2 <= 400 - 150)
            (trim_intervals 150 400 [(20, 60); (100, 200); (380, 450)]).
Proof.
  assert (H1 : Forall (fun iv : Z * Z => iv.1 <= iv.2) [(20, 60); (100, 200); (380, 450)])
    by (repeat constructor; simpl; lia).
  split; [lia|]. split; [exact H1|]. split; [reflexivity|].
  pose proof (proj1 (trimmed_intervals_clipped 150 400 _ ltac:(lia) H1)) as H.
  eapply Forall_impl; [exact H|]. simpl. intros iv [Hb _]. exact Hb.
Defined.

(** ** The room for the triples *)

Lemma length_patch_loop fctx reada trim_ab trim_ae data :
  forall st st',
    patch_loop fctx reada trim_ab trim_ae data st = Some st' ->
    (length (apatches st') <= length (apatches st) + length (spliced trim_ab trim_ae data))%nat.
Proof.
  induction data as [|g rest IH]; intros st st' H; simpl in H |- *.
  - injection H as <-. lia.
  - destruct (trim_ab >? Gap.ab g); [apply IH in H; simpl in H; exact H|].
    destruct (trim_ae <? Gap.ae g); [injection H as <-; simpl; lia|].
    destruct (_ >? Gap.ab g); [discriminate|].
    apply IH in H. simpl in H |- *.
    destruct (_ <? Gap.ab g); simpl in H; rewrite ?length_app in H; simpl in H; lia.
Qed.

Lemma spliced_place (P : Gap -> Prop) trim_ab trim_ae data :
  Forall P data ->
  Forall (fun g => P g /\ trim_ab <= Gap.ab g /\ Gap.ae g <= trim_ae)
         (spliced trim_ab trim_ae data).
Proof.
  intros H. induction H as [|g rest Hg Hrest IH]; simpl; [constructor|].
  destruct (trim_ab >? Gap.ab g) eqn:E1; [exact IH|].
  destruct (trim_ae <? Gap.ae g) eqn:E2; [constructor|].
  constructor; [|exact IH]. split; [exact Hg | lia].
Qed.

Lemma spliced_sorted (R : Gap -> Gap -> Prop) trim_ab trim_ae data :
  StronglySorted R data -> StronglySorted R (spliced trim_ab trim_ae data).
Proof.
  intros H. induction H as [|g rest Hrest IH Hg]; simpl; [constructor|].
  destruct (trim_ab >? Gap.ab g); [exact IH|].
  destruct (trim_ae <? Gap.ae g); [constructor|].
  constructor; [exact IH|].
  pose proof (spliced_place (R g) trim_ab trim_ae rest Hg) as H.
  eapply Forall_impl; [exact H|]. simpl. intros h [Hh _]. exact Hh.
Qed.

(** Candidates that follow one another between [lo] and [hi], each [tw]
    bases wide at least, are [(hi - lo) / tw] at most. *)
Lemma follow_width tw hi l :
  StronglySorted (fun g h => Gap.ae g <= Gap.ab h) l ->
  forall lo, lo <= hi ->
    Forall (fun g => lo <= Gap.ab g /\ Gap.ae g <= hi /\ tw <= Gap.ae g - Gap.ab g) l ->
    Z.of_nat (length l) * tw <= hi - lo.
Proof.
  intros Hs. induction Hs as [|g rest Hrest IH Hg]; intros lo Hlo H; simpl length; [lia|].
  apply Forall_cons in H as [(H1 & H2 & H3) H].
  assert (Hr : Z.of_nat (length rest) * tw <= hi - Gap.ae g).
  { apply IH; [exact H2|].
    rewrite Forall_forall in *. intros h Hh.
    destruct (H h Hh) as (_ & H5 & H6). specialize (Hg h Hh). simpl in Hg. lia. }
  lia.
Qed.

Lemma count_span_place (P : Gap -> Prop) ovl data :
  (forall g s, P g -> P (Gap.with_span g s)) ->
  Forall P data -> Forall P (count_span ovl data).
Proof.
  intros HP H. unfold count_span. apply foldl_invariant; [exact H|].
  intros d o Hd. apply Forall_fmap.
  eapply Forall_impl; [exact Hd|]. intros g Hg. simpl.
  destruct (_ && _); [apply HP, Hg | exact Hg].
Qed.

Lemma gap_between_whole fctx o1 o2 g :
  0 < twidth fctx -> gap_between fctx o1 o2 = Some g -> whole_segments fctx g.
Proof.
  intros Htw H. destruct (gap_between_proper _ _ _ _ Htw H) as [Hp _].
  unfold gap_between in H.
  destruct (_ && _ && _); [|discriminate].
  destruct (_ >=? _); [discriminate|].
  destruct (is_comp o2);
    (destruct (dust_inside fctx _ _ _); [discriminate|];
     destruct (existsb _ _); [discriminate|];
     injection H as <-; unfold whole_segments; simpl in *;
     split; [eexists; reflexivity | split; [eexists; reflexivity | exact Hp]]).
Qed.

(** Every candidate covers whole segments of A. *)
Lemma candidates_whole fctx ovl trim_ab trim_ae data :
  0 < twidth fctx ->
  candidates fctx ovl trim_ab trim_ae = Some data ->
  Forall (whole_segments fctx) data.
Proof.
  intros Htw H. unfold candidates in H.
  destruct (find_weak_shape _ _ _ _ _ _ Htw H) as (weak & -> & Hshape). clear H.
  apply Forall_app. split.
  - apply (merged_gaps_place (whole_segments fctx)); [intros g s H; exact H|].
    apply find_gaps_Forall. intros o1 o2 g H. exact (gap_between_whole _ _ _ _ Htw H).
  - apply Forall_forall. intros g Hg.
    apply list_elem_of_split in Hg as (pre & post & ->).
    destruct (Hshape pre g post eq_refl) as ((i & Ha & He & _) & _).
    split; [exists i; exact Ha | split; [exists (i + 1); exact He | nia]].
Qed.

(** X19. [apatches] as [fix_pre] allocates it has room for the triples
    the patch loop records: the candidates spliced in cover separate
    segments of the trim, which lies in the read, so they are at most
    [maxlen / twidth], and every one is followed by one triple at most,
    with one more before the first. *)
Theorem apatches_fit (fctx : FixContext) (ovl : list Overlap) (trim_ab trim_ae maxlen : Z)
    (data : list Gap) (st : Patched) :
  0 < twidth fctx ->
  DB_READ_LEN (db fctx) (group_aread ovl) <= maxlen ->
  tracks_sane fctx (group_aread ovl) trim_ab trim_ae = true ->
  candidates fctx ovl trim_ab trim_ae = Some data ->
  patch fctx (group_aread ovl) trim_ab trim_ae (count_span ovl (qsort data)) = Some st ->
  3 * Z.of_nat (length (apatches st)) <= apatches_size maxlen (twidth fctx).
Proof.
  intros Htw Hmax Hsane Hc Hp.
  set (d := count_span ovl (qsort data)) in *.
  assert (Htrim : 0 <= trim_ab /\ trim_ab <= trim_ae
                  /\ trim_ae <= DB_READ_LEN (db fctx) (group_aread ovl)).
  { unfold tracks_sane in Hsane.
    apply andb_prop in Hsane as [_ Hsane]. unfold interval_outside in Hsane.
    apply negb_true_iff in Hsane.
    repeat (apply orb_false_iff in Hsane as [Hsane ?]). lia. }
  destruct (candidates_follow _ _ _ _ _ Htw Hc) as [Hs _]. fold d in Hs.
  assert (Hw : Forall (whole_segments fctx) d).
  { apply count_span_place; [intros g s H; exact H|].
    apply qsort_place, (candidates_whole _ _ _ _ _ Htw Hc). }
  assert (Hn : Z.of_nat (length (spliced trim_ab trim_ae d)) * twidth fctx
               <= trim_ae - trim_ab).
  { apply follow_width; [apply spliced_sorted, Hs | lia |].
    eapply Forall_impl; [exact (spliced_place _ trim_ab trim_ae d Hw)|].
    simpl. intros g (((k & Hk) & (k' & Hk') & Hlt) & H1 & H2).
    split; [exact H1|]. split; [exact H2|].
    rewrite Hk, Hk' in *. assert (Hkk : k < k') by nia. nia. }
  assert (Hq : Z.of_nat (length (spliced trim_ab trim_ae d)) <= Z.quot maxlen (twidth fctx)).
  { apply Z.quot_le_lower_bound; [exact Htw | lia]. }
  assert (Hlen : (length (apatches st) <= length (spliced trim_ab trim_ae d) + 1)%nat).
  { unfold patch in Hp.
    destruct (patch_loop _ _ _ _ _ _) as [st0|] eqn:E; [|discriminate].
    simpl in Hp. injection Hp as <-.
    apply length_patch_loop in E. simpl in E.
    destruct (cur_ab st0 <? trim_ae); simpl; rewrite ?length_app; simpl; lia. }
  unfold apatches_size. lia.
Qed.

Lemma apatches_fit_witness :
  0 < twidth S2_ctx
  /\ DB_READ_LEN (db S2_ctx) (group_aread S2_ovl) <= 400
  /\ tracks_sane S2_ctx (group_aread S2_ovl) 0 400 = true
  /\ candidates S2_ctx S2_ovl 0 400 = Some S2_cands
  /\ patch S2_ctx (group_aread S2_ovl) 0 400 (count_span S2_ovl (qsort S2_cands))
     = Some S2_patched
  /\ length (apatches S2_patched) = 2%nat
  /\ 3 * Z.of_nat (length (apatches S2_patched)) <= apatches_size 400 (twidth S2_ctx).
Proof.
  assert (H1 : 0 < twidth S2_ctx) by (vm_compute; reflexivity).
  assert (H2 : DB_READ_LEN (db S2_ctx) (group_aread S2_ovl) <= 400)
    by (vm_compute; discriminate).
  assert (H3 : tracks_sane S2_ctx (group_aread S2_ovl) 0 400 = true)
    by (vm_compute; reflexivity).
  assert (H4 : candidates S2_ctx S2_ovl 0 400 = Some S2_cands) by (vm_compute; reflexivity).
  assert (H5 : patch S2_ctx (group_aread S2_ovl) 0 400 (count_span S2_ovl (qsort S2_cands))
               = Some S2_patched)
    by (vm_compute; reflexivity).
  split; [exact H1|]. split; [exact H2|]. split; [exact H3|]. split; [exact H4|].
  split; [exact H5|]. split; [vm_compute; reflexivity|].
  exact (apatches_fit S2_ctx S2_ovl 0 400 400 S2_cands S2_patched H1 H2 H3 H4 H5).
Defined.

(** ** Counting the reads that span a candidate *)

Lemma count_span_fmap ovl :
  forall data,
    count_span ovl data
    = (fun g => Gap.with_span g (Gap.span g + wide_spanners ovl g)) <$> data.
Proof.
  unfold count_span.
  induction ovl as [|o ovl IH]; intros data; cbn [foldl].
  - rewrite <- (list_fmap_id data) at 1. apply list_fmap_ext.
    intros _ g _. destruct g. unfold Gap.with_span, wide_spanners. simpl. f_equal. lia.
  - rewrite IH, <- list_fmap_compose. apply list_fmap_ext.
    intros _ g _. unfold wide_spanners. cbn [List.filter compose].
    fold (spans_wide g o).
    destruct (spans_wide g o) eqn:E.
    + unfold spans_wide, Gap.with_span. simpl. f_equal. lia.
    + reflexivity.
Qed.

(** X20. The loops that count the reads spanning the candidates leave
    the candidates in their places and as they are, but for [span]: it
    grows, for each candidate, by the number of overlaps that extend
    more than 100 bases beyond the candidate on both sides. *)
Theorem count_span_counts (ovl : list Overlap) (data : list Gap) :
  length (count_span ovl data) = length data
  /\ forall i g, data !! i = Some g ->
       count_span ovl data !! i
       = Some (Gap.with_span g (Gap.span g + wide_spanners ovl g))
       /\ 0 <= wide_spanners ovl g <= Z.of_nat (length ovl).
Proof.
  rewrite count_span_fmap. split; [apply length_fmap|].
  intros i g Hi. split.
  - rewrite list_lookup_fmap, Hi. reflexivity.
  - unfold wide_spanners. pose proof (List.filter_length_le (spans_wide g) ovl). lia.
Qed.
